(** * Diff splitting, viewed-state tracking and task-id ordering

    A shallow embedding of the diff viewer's pure core
    ([hashString], [validateDiffHunk], [splitUnifiedDiffByFile], the
    viewed-files callbacks of [AgentDiffView]) and of the task-id
    comparator [compareTaskIds].

    JavaScript strings are sequences of UTF-16 code units; they are modelled
    as lists of code units ([N]).  A [Record<string, T>] used as a dictionary
    is a [gmap] keyed by such strings, the map of its own properties; where
    the collapse and expand callbacks write such an object by assignment and
    read it back, what a plain object inherits is modelled as well.  React
    state is threaded explicitly: every callback takes the state of the
    render it closes over and returns the state it sets. *)

From Stdlib Require Import ZArith NArith List Ascii String Decimal DecimalString Lia Bool.
From stdpp Require Import base gmap list.

Import ListNotations.
#[local] Open Scope N_scope.

(** ** JavaScript strings *)

Module JsString.

(** A string is the list of its UTF-16 code units. *)
Definition t := list N.

(** The code units of an ASCII literal. *)
Definition js (s : string) : t :=
  List.map N_of_ascii (list_ascii_of_string s).

Definition LF : N := 10.
Definition CR : N := 13.

(** [s.startsWith(p)] *)
Fixpoint startsWith (p s : t) : bool :=
  match p, s with
  | [], _ => true
  | _ :: _, [] => false
  | a :: p', b :: s' => (a =? b) && startsWith p' s'
  end.

(** [s.endsWith(p)] *)
Definition endsWith (p s : t) : bool :=
  startsWith (rev p) (rev s).

(** [s.includes(p)] *)
Fixpoint includes (p s : t) : bool :=
  startsWith p s ||
  match s with
  | [] => false
  | _ :: s' => includes p s'
  end.

(** [s.split("\n")]: always at least one piece. *)
Fixpoint splitLines (s : t) : list t :=
  match s with
  | [] => [[]]
  | c :: r =>
      if c =? LF then [] :: splitLines r
      else match splitLines r with
           | [] => [[c]]
           | l :: ls => (c :: l) :: ls
           end
  end.

(** [lines.join("\n")] *)
Fixpoint joinLines (ls : list t) : t :=
  match ls with
  | [] => []
  | [l] => l
  | l :: ls' => l ++ LF :: joinLines ls'
  end.

(** White space and line terminators, as [String.prototype.trim] strips
    them. *)
Definition isWhiteSpace (c : N) : bool :=
  (c =? 9) || (c =? 10) || (c =? 11) || (c =? 12) || (c =? 13) ||
  (c =? 32) || (c =? 160) || (c =? 5760) ||
  ((8192 <=? c) && (c <=? 8202)) ||
  (c =? 8232) || (c =? 8233) || (c =? 8239) || (c =? 8287) ||
  (c =? 12288) || (c =? 65279).

Fixpoint trimStart (s : t) : t :=
  match s with
  | [] => []
  | c :: r => if isWhiteSpace c then trimStart r else s
  end.

Definition trimEnd (s : t) : t := rev (trimStart (rev s)).

(** [s.trim()] *)
Definition trim (s : t) : t := trimEnd (trimStart s).

(** [s.replace(/\r\n/g, "\n")]: a carriage return directly followed by a
    line feed is dropped. *)
Fixpoint normalizeCrLf (s : t) : t :=
  match s with
  | [] => []
  | c :: r =>
      if (c =? CR) && startsWith [LF] r then normalizeCrLf r
      else c :: normalizeCrLf r
  end.

(** [s.slice(n)] for a non-negative [n]. *)
Definition slice (n : nat) (s : t) : t := drop n s.

(** [\d] *)
Definition isDigit (c : N) : bool := (48 <=? c) && (c <=? 57).

(** The decimal rendering of an array index, as a template literal
    prints it. *)
Definition ofNat (n : nat) : t := js (NilZero.string_of_uint (Nat.to_uint n)).

(** String equality, [===]. *)
Definition eqb (a b : t) : bool := bool_decide (a = b).

End JsString.

Import JsString.

(** ** The content hash *)

(** [ToInt32] on an integer-valued number. *)
Definition toInt32 (x : Z) : Z :=
  ((x + 2147483648) mod 4294967296 - 2147483648)%Z.

(** [x >>> 0] on an integer-valued number. *)
Definition toUint32 (x : Z) : Z := (x mod 4294967296)%Z.

(** [x << 5] *)
Definition shl5 (x : Z) : Z := toInt32 (toInt32 x * 32).

(** One digit of a radix-36 rendering. *)
Definition digit36 (d : Z) : N :=
  if (d <? 10)%Z then Z.to_N (48 + d) else Z.to_N (97 + (d - 10)).

(** [n.toString(36)] for a non-negative integer below [36 ^ fuel]. *)
Fixpoint toString36_aux (fuel : nat) (n : Z) (acc : JsString.t) : JsString.t :=
  match fuel with
  | O => acc
  | S f =>
      let acc' := digit36 (n mod 36) :: acc in
      if (n / 36 =? 0)%Z then acc' else toString36_aux f (n / 36) acc'
  end.

(** Seven radix-36 digits hold every unsigned 32-bit value. *)
Definition toString36 (n : Z) : JsString.t := toString36_aux 7 n [].

(** [hashString]: djb2.  The accumulator is a number, not an int32: only the
    shift truncates, the additions do not.  The integers here are the
    accumulator's exact values as long as they stay below [2 ^ 53], which
    holds for every text shorter than [2 ^ 21] code units. *)
Definition hashStep (hash : Z) (c : N) : Z :=
  ((shl5 hash + hash) + Z.of_N c)%Z.

Definition hashString (str : JsString.t) : JsString.t :=
  toString36 (toUint32 (fold_left hashStep str 5381%Z)).

(** ** Validation of one file's diff block *)

(** [lines.findIndex(p)], with [None] for [-1]. *)
Fixpoint findIndex {A : Type} (p : A -> bool) (l : list A) : option nat :=
  match l with
  | [] => None
  | x :: r => if p x then Some O else option_map S (findIndex p r)
  end.

(** Consume a literal prefix. *)
Fixpoint stripPrefix (p s : JsString.t) : option JsString.t :=
  match p, s with
  | [], _ => Some s
  | _ :: _, [] => None
  | a :: p', b :: s' => if a =? b then stripPrefix p' s' else None
  end.

Fixpoint skipDigits (s : JsString.t) : JsString.t :=
  match s with
  | [] => []
  | c :: r => if isDigit c then skipDigits r else s
  end.

(** [\d+] *)
Definition digits1 (s : JsString.t) : option JsString.t :=
  match s with
  | [] => None
  | c :: r => if isDigit c then Some (skipDigits r) else None
  end.

(** [(?:,\d+)?]: taken whenever a comma and a digit follow. *)
Definition optCommaDigits (s : JsString.t) : JsString.t :=
  match s with
  | [] => s
  | c :: r =>
      if c =? 44 then match digits1 r with Some r' => r' | None => s end
      else s
  end.

(** [hunkHeaderRegex.test(line)] for
    [/^@@ -\d+(?:,\d+)? \+\d+(?:,\d+)? @@/]. *)
Definition hunkHeaderRegex_test (line : JsString.t) : bool :=
  match stripPrefix (js "@@ -") line with
  | None => false
  | Some r1 =>
      match digits1 r1 with
      | None => false
      | Some r2 =>
          match stripPrefix (js " +") (optCommaDigits r2) with
          | None => false
          | Some r3 =>
              match digits1 r3 with
              | None => false
              | Some r4 =>
                  match stripPrefix (js " @@") (optCommaDigits r4) with
                  | None => false
                  | Some _ => true
                  end
              end
          end
      end
  end.

Record Validation := mkValidation {
  valid : bool;
  reason : option JsString.t
}.

Definition isOldMarker (l : JsString.t) : bool := startsWith (js "--- ") l.
Definition isNewMarker (l : JsString.t) : bool := startsWith (js "+++ ") l.

(** The special cases that carry no hunks. *)
Definition hasSpecialCase (diffText : JsString.t) : bool :=
  includes (js "new mode") diffText ||
  includes (js "old mode") diffText ||
  includes (js "rename from") diffText ||
  includes (js "rename to") diffText ||
  includes (js "Binary files") diffText.

Definition validateDiffHunk (diffText : JsString.t) : Validation :=
  if (length diffText =? 0)%nat || (length (trim diffText) =? 0)%nat then
    mkValidation false (Some (js "empty diff"))
  else
    let lines := splitLines diffText in
    match findIndex isOldMarker lines, findIndex isNewMarker lines with
    | Some minusLineIdx, Some plusLineIdx =>
        if (plusLineIdx <=? minusLineIdx)%nat then
          mkValidation false (Some (js "header order wrong"))
        else if hasSpecialCase diffText then
          mkValidation true None
        else
          let hasHunk := existsb hunkHeaderRegex_test (drop (S plusLineIdx) lines) in
          if negb hasHunk then
            mkValidation false (Some (js "no hunk headers found"))
          else mkValidation true None
    | _, _ => mkValidation false (Some (js "missing header lines"))
    end.

(** ** Splitting a unified diff into per-file records *)

(** [isValid] is optional in the type; the splitter always sets it.  The
    optional server-side fields are read by none of the functions below. *)
Record ParsedDiffFile := mkParsedDiffFile {
  key : JsString.t;
  oldPath : JsString.t;
  newPath : JsString.t;
  diffText : JsString.t;
  isBinary : bool;
  additions : nat;
  deletions : nat;
  isValid : bool
}.

(** The test that guards [blocks.push(text)] in [pushCurrent]. *)
Definition isDiffBlock (text : JsString.t) : bool :=
  negb (length text =? 0)%nat &&
  (startsWith (js "diff --git ") text ||
   startsWith (js "--- ") text ||
   startsWith (js "+++ ") text ||
   startsWith (js "Binary files ") text ||
   includes (LF :: js "+++ ") text ||
   includes (LF :: js "Binary files ") text).

(** The loop state of the block collector: the blocks pushed so far and the
    lines of the block being collected. *)
Definition pushCurrent (st : list JsString.t * list JsString.t)
  : list JsString.t * list JsString.t :=
  let '(blocks, current) := st in
  let text := trim (joinLines current) in
  (if isDiffBlock text then blocks ++ [text] else blocks, []).

Definition isFileHeader (line : JsString.t) : bool :=
  startsWith (js "diff --git ") line.

Definition collectLine (st : list JsString.t * list JsString.t) (line : JsString.t)
  : list JsString.t * list JsString.t :=
  let st' :=
    if isFileHeader line && negb (length (snd st) =? 0)%nat
    then pushCurrent st else st in
  (fst st', snd st' ++ [line]).

Definition collectBlocks (lines : list JsString.t) : list JsString.t :=
  fst (pushCurrent (fold_left collectLine lines ([], []))).

(** The variables of the per-line loop over one block. *)
Record BlockScan := mkBlockScan {
  scanOldPath : JsString.t;
  scanNewPath : JsString.t;
  scanIsBinary : bool;
  scanAdditions : nat;
  scanDeletions : nat
}.

Definition stripDir (prefix raw : JsString.t) : JsString.t :=
  if startsWith prefix raw then slice 2 raw else raw.

Definition isBinaryLine (line : JsString.t) : bool :=
  startsWith (js "Binary files ") line && endsWith (js " differ") line.

Definition scanLine (s : BlockScan) (line : JsString.t) : BlockScan :=
  let isBinary := if isBinaryLine line then true else scanIsBinary s in
  let oldPath :=
    if startsWith (js "--- ") line
    then stripDir (js "a/") (trim (slice 4 line)) else scanOldPath s in
  let newPath :=
    if startsWith (js "+++ ") line
    then stripDir (js "b/") (trim (slice 4 line)) else scanNewPath s in
  let '(additions, deletions) :=
    if startsWith (js "+") line && negb (startsWith (js "+++ ") line)
    then (S (scanAdditions s), scanDeletions s)
    else if startsWith (js "-") line && negb (startsWith (js "--- ") line)
    then (scanAdditions s, S (scanDeletions s))
    else (scanAdditions s, scanDeletions s) in
  mkBlockScan oldPath newPath isBinary additions deletions.

Definition scanBlock (blockLines : list JsString.t) : BlockScan :=
  fold_left scanLine blockLines (mkBlockScan [] [] false O O).

(** The callback of [blocks.map]. *)
Definition parseBlock (index : nat) (blockText : JsString.t) : ParsedDiffFile :=
  let s := scanBlock (splitLines blockText) in
  let oldPath := scanOldPath s in
  let newPath := scanNewPath s in
  let key :=
    if negb (length oldPath =? 0)%nat || negb (length newPath =? 0)%nat
    then oldPath ++ js "->" ++ newPath
    else js "file-" ++ ofNat index in
  let validation :=
    if scanIsBinary s then mkValidation true None
    else validateDiffHunk blockText in
  mkParsedDiffFile key oldPath newPath blockText (scanIsBinary s)
    (scanAdditions s) (scanDeletions s) (valid validation).

Definition splitUnifiedDiffByFile (diffText : JsString.t) : list ParsedDiffFile :=
  let normalized := normalizeCrLf diffText in
  let lines := splitLines normalized in
  imap parseBlock (collectBlocks lines).

(** ** The unfiltered and the displayed file list *)

(** [allFileDiffs]: the pre-parsed files when the parent passes a non-empty
    list, the splitter's output for a non-empty [diff], nothing otherwise. *)
Definition allFileDiffs (initialParsedFiles : option (list ParsedDiffFile))
    (diff : option JsString.t) : list ParsedDiffFile :=
  match initialParsedFiles with
  | Some (f :: fs) => f :: fs
  | _ =>
      match diff with
      | Some (c :: d) => splitUnifiedDiffByFile (c :: d)
      | _ => []
      end
  end.

Definition devNull : JsString.t := js "/dev/null".

Definition nonEmpty (s : JsString.t) : bool := negb (length s =? 0)%nat.

(** The first filter of [fileDiffs]: [false] for a record that failed to
    parse (positional key, no path) and for one with only [/dev/null]
    paths. *)
Definition isDisplayable (file : ParsedDiffFile) : bool :=
  if startsWith (js "file-") (key file)
     && negb (nonEmpty (oldPath file)) && negb (nonEmpty (newPath file))
  then false
  else if JsString.eqb (oldPath file) devNull && JsString.eqb (newPath file) devNull
  then false
  else true.

Definition matchesFilter (validFilterPaths : list JsString.t)
    (file : ParsedDiffFile) : bool :=
  let filePath :=
    if negb (JsString.eqb (newPath file) devNull) then newPath file
    else oldPath file in
  existsb (fun filterPath =>
             JsString.eqb filePath filterPath
             || endsWith filterPath filePath
             || endsWith filePath filterPath)
          validFilterPaths.

(** [fileDiffs]: the list the view renders, counts and iterates over. *)
Definition fileDiffs (all : list ParsedDiffFile)
    (effectiveFilter : option (list JsString.t)) : list ParsedDiffFile :=
  let validFiles := List.filter isDisplayable all in
  let validFilterPaths :=
    match effectiveFilter with
    | Some ps =>
        List.filter (fun p => nonEmpty p && negb (JsString.eqb p devNull)) ps
    | None => []
    end in
  if (length validFilterPaths =? 0)%nat then validFiles
  else List.filter (matchesFilter validFilterPaths) validFiles.

(** ** Viewed-state tracking *)

Record ViewedFileState := mkViewedFileState {
  viewed : bool;
  contentHash : JsString.t
}.

Record UndoEntry := mkUndoEntry {
  fileKey : JsString.t;
  previousState : option ViewedFileState
}.

(** The state the viewed-files callbacks read and write: the [viewedFiles]
    atom, the undo stack held in a ref (oldest entry first) and the local
    collapsed map. *)
Record ViewState := mkViewState {
  viewedFiles : gmap JsString.t ViewedFileState;
  viewedUndoStack : list UndoEntry;
  collapsedByFileKey : gmap JsString.t bool
}.

Definition initialViewState : ViewState := mkViewState ∅ [] ∅.

Definition isFileViewed (vf : gmap JsString.t ViewedFileState)
    (fKey dText : JsString.t) : bool :=
  match vf !! fKey with
  | None => false
  | Some viewedState =>
      if negb (viewed viewedState) then false
      else JsString.eqb (contentHash viewedState) (hashString dText)
  end.

Definition getViewedCount (files : list ParsedDiffFile)
    (vf : gmap JsString.t ViewedFileState) : nat :=
  length (List.filter (fun file => isFileViewed vf (key file) (diffText file)) files).

(** [markAllViewed]: both objects are built from scratch, one assignment per
    file in list order. *)
Definition markAllViewed (files : list ParsedDiffFile) (st : ViewState) : ViewState :=
  let newViewedState :=
    fold_left (fun m file =>
                 <[key file := mkViewedFileState true (hashString (diffText file))]> m)
              files (∅ : gmap JsString.t ViewedFileState) in
  let newCollapsedState :=
    fold_left (fun m file => <[key file := true]> m)
              files (∅ : gmap JsString.t bool) in
  mkViewState newViewedState (viewedUndoStack st) newCollapsedState.

Definition markAllUnviewed (files : list ParsedDiffFile) (st : ViewState) : ViewState :=
  let newCollapsedState :=
    fold_left (fun m file => <[key file := false]> m)
              files (∅ : gmap JsString.t bool) in
  mkViewState ∅ (viewedUndoStack st) newCollapsedState.

(** The effect that resets every displayed file whose stored hash no longer
    matches its diff text. *)
Definition isStale (vf : gmap JsString.t ViewedFileState) (file : ParsedDiffFile) : bool :=
  match vf !! key file with
  | None => false
  | Some viewedState =>
      viewed viewedState
      && negb (JsString.eqb (contentHash viewedState) (hashString (diffText file)))
  end.

Definition invalidateStale (files : list ParsedDiffFile) (st : ViewState) : ViewState :=
  if (length files =? 0)%nat then st
  else
    let keysToInvalidate := List.map key (List.filter (isStale (viewedFiles st)) files) in
    if (0 <? length keysToInvalidate)%nat then
      let updated :=
        fold_left (fun m k => <[k := mkViewedFileState false []]> m)
                  keysToInvalidate (viewedFiles st) in
      mkViewState updated (viewedUndoStack st) (collapsedByFileKey st)
    else st.

(** The path handed to [onSelectNextFile], when there is a real one. *)
Definition selectablePath (file : ParsedDiffFile) : option JsString.t :=
  let filePath :=
    if nonEmpty (newPath file) && negb (JsString.eqb (newPath file) devNull)
    then newPath file else oldPath file in
  if nonEmpty filePath && negb (JsString.eqb filePath devNull)
  then Some filePath else None.

(** The two scans of [handleToggleViewed]: after the current position, then
    from the start up to it. *)
Definition nextUnviewedFile (newViewedFiles : gmap JsString.t ViewedFileState)
    (all : list ParsedDiffFile) (currentIndex : nat) : option ParsedDiffFile :=
  let unviewed file := negb (isFileViewed newViewedFiles (key file) (diffText file)) in
  match List.find unviewed (drop (S currentIndex) all) with
  | Some file => Some file
  | None => List.find unviewed (take currentIndex all)
  end.

(** [handleToggleViewed].  [hasOnSelectNextFile] tells whether the optional
    callback was passed; the second component is the argument of its call,
    if it is called. *)
Definition handleToggleViewed (all : list ParsedDiffFile)
    (hasOnSelectNextFile : bool) (st : ViewState) (fKey dText : JsString.t)
  : ViewState * option JsString.t :=
  let currentHash := hashString dText in
  let isCurrentlyViewed := isFileViewed (viewedFiles st) fKey dText in
  let willBeViewed := negb isCurrentlyViewed in
  let pushed := viewedUndoStack st ++ [mkUndoEntry fKey (viewedFiles st !! fKey)] in
  let stack := if (50 <? length pushed)%nat then tail pushed else pushed in
  let newViewedFiles :=
    <[fKey := mkViewedFileState willBeViewed currentHash]> (viewedFiles st) in
  let selected :=
    if willBeViewed && hasOnSelectNextFile then
      match findIndex (fun f => JsString.eqb (key f) fKey) all with
      | None => None
      | Some currentIndex =>
          match nextUnviewedFile newViewedFiles all currentIndex with
          | Some file => selectablePath file
          | None => None
          end
      end
    else None in
  (mkViewState newViewedFiles stack (collapsedByFileKey st), selected).

(** [array.pop()]: the remaining array and the removed last element. *)
Definition pop {A : Type} (l : list A) : option (list A * A) :=
  match rev l with
  | [] => None
  | x :: r => Some (rev r, x)
  end.

(** [undoLastViewed]: the new state, the returned boolean and the argument
    of the [onSelectNextFile] call, if any. *)
Definition undoLastViewed (all : list ParsedDiffFile)
    (hasOnSelectNextFile : bool) (st : ViewState)
  : ViewState * bool * option JsString.t :=
  match pop (viewedUndoStack st) with
  | None => (st, false, None)
  | Some (stack, lastAction) =>
      let fKey := fileKey lastAction in
      let newViewedFiles :=
        match previousState lastAction with
        | None => delete fKey (viewedFiles st)
        | Some previous => <[fKey := previous]> (viewedFiles st)
        end in
      let selected :=
        match List.find (fun f => JsString.eqb (key f) fKey) all with
        | Some file => if hasOnSelectNextFile then selectablePath file else None
        | None => None
        end in
      (mkViewState newViewedFiles stack (collapsedByFileKey st), true, selected)
  end.

(** ** Ordering of task identifiers *)

Fixpoint takeDigits (s : JsString.t) : JsString.t :=
  match s with
  | [] => []
  | c :: r => if isDigit c then c :: takeDigits r else []
  end.

Definition digitsValue (ds : JsString.t) : Z :=
  fold_left (fun acc c => (acc * 10 + (Z.of_N c - 48))%Z) ds 0%Z.

(** [parseInt(s, 10)], with [None] for [NaN]: leading white space is
    skipped, one sign is read, then the longest run of decimal digits;
    whatever follows is ignored.  The result is the exact integer; the
    number the engine returns equals it below [2 ^ 53]. *)
Definition parseInt (s : JsString.t) : option Z :=
  let s1 := trimStart s in
  let '(sign, s2) :=
    match s1 with
    | c :: r =>
        if c =? 45 then ((-1)%Z, r)
        else if c =? 43 then (1%Z, r)
        else (1%Z, s1)
    | [] => (1%Z, s1)
    end in
  match takeDigits s2 with
  | [] => None
  | ds => Some (sign * digitsValue ds)%Z
  end.

Section Comparator.

(** [a.localeCompare(b)]: the host's collation, negative, zero or
    positive. *)
Variable localeCompare : JsString.t -> JsString.t -> Z.

(** The callback of [tasks.sort] in the task-tools effect is the same
    expression on [a.id] and [b.id]. *)
Definition compareTaskIds (a b : JsString.t) : Z :=
  match parseInt a, parseInt b with
  | Some numA, Some numB => (numA - numB)%Z
  | _, _ => localeCompare a b
  end.

End Comparator.

(** Comparison by code units, first difference decides: the plain
    lexicographic order on strings. *)
Fixpoint lexCompare (a b : JsString.t) : Z :=
  match a, b with
  | [], [] => 0%Z
  | [], _ :: _ => (-1)%Z
  | _ :: _, [] => 1%Z
  | x :: a', y :: b' =>
      if x <? y then (-1)%Z
      else if y <? x then 1%Z
      else lexCompare a' b'
  end.

(** ** Vocabulary of the statements *)

(** *** Lines of a block *)

(** The [diff --git] header lines among the lines of a diff. *)
Definition countHeaders (lines : list JsString.t) : nat :=
  length (List.filter isFileHeader lines).

(** The lines of a block without its marker line: the first line that
    satisfies [marker] is left out. *)
Fixpoint withoutMarkerLine (marker : JsString.t -> bool) (ls : list JsString.t)
  : list JsString.t :=
  match ls with
  | [] => []
  | l :: r => if marker l then r else l :: withoutMarkerLine marker r
  end.

Definition countLines (p : JsString.t -> bool) (ls : list JsString.t) : nat :=
  length (List.filter p ls).

(** The counts in the specification's words: the lines that start with
    [+], the new-file marker line left out, and the lines that start with
    [-], the old-file marker line left out. *)
Definition specAdditions (blockLines : list JsString.t) : nat :=
  countLines (startsWith (js "+")) (withoutMarkerLine isNewMarker blockLines).

Definition specDeletions (blockLines : list JsString.t) : nat :=
  countLines (startsWith (js "-")) (withoutMarkerLine isOldMarker blockLines).

(** No line feed inside: what every piece of [split("\n")] satisfies. *)
Definition noLineFeed (l : JsString.t) : bool :=
  forallb (fun c => negb (c =? LF)) l.

(** The text before and after one line of a joined block. *)
Definition linesBefore (g : list JsString.t) : JsString.t :=
  concat (List.map (fun x => x ++ [LF]) g).

Definition linesAfter (g : list JsString.t) : JsString.t :=
  concat (List.map (fun x => LF :: x) g).

(** The string starts with a code unit that [trim] keeps. *)
Definition headNonBlank (s : JsString.t) : bool :=
  match s with
  | [] => false
  | c :: _ => negb (isWhiteSpace c)
  end.

(** The line [l] is a line of a block already pushed. *)
Definition linePushed (l : JsString.t) (blocks : list JsString.t) : Prop :=
  exists b, b ∈ blocks /\ l ∈ splitLines b.

(** The line [l] is among the lines being collected or in a pushed block. *)
Definition lineHeld (l : JsString.t)
    (st : list JsString.t * list JsString.t) : Prop :=
  l ∈ snd st \/ linePushed l (fst st).

(** *** Numerals and the stated key order *)

(** A non-empty run of decimal digits. *)
Definition isNumeral (s : JsString.t) : bool :=
  nonEmpty s && forallb isDigit s.

(** What follows the digits does not start with one more digit. *)
Definition noDigitHead (s : JsString.t) : bool :=
  match s with
  | [] => true
  | c :: _ => negb (isDigit c)
  end.


(** The comparator in the specification's words: numeric when both sides
    are numerals from end to end, lexicographic otherwise. *)
Definition specCompareKeys (a b : JsString.t) : Z :=
  if isNumeral a && isNumeral b then (digitsValue a - digitsValue b)%Z
  else lexCompare a b.

(** *** States of the view *)

(** [push] followed by the [shift] that keeps at most 50 entries. *)
Definition pushUndo (stack : list UndoEntry) (e : UndoEntry) : list UndoEntry :=
  if (50 <? length (stack ++ [e]))%nat then tail (stack ++ [e]) else stack ++ [e].

(** The states the view can be in: from the initial one, by any of the
    viewed-files callbacks and the invalidation effect. *)
Inductive reachable : ViewState -> Prop :=
  | reach_init : reachable initialViewState
  | reach_toggle all cb st fKey dText :
      reachable st -> reachable (fst (handleToggleViewed all cb st fKey dText))
  | reach_undo all cb st :
      reachable st -> reachable (fst (fst (undoLastViewed all cb st)))
  | reach_markAll files st :
      reachable st -> reachable (markAllViewed files st)
  | reach_unmarkAll files st :
      reachable st -> reachable (markAllUnviewed files st)
  | reach_invalidate files st :
      reachable st -> reachable (invalidateStale files st).

(** The last record of the list that carries the key [k]. *)
Definition lastWithKey (files : list ParsedDiffFile) (k : JsString.t)
  : option ParsedDiffFile :=
  List.find (fun f => JsString.eqb (key f) k) (rev files).

(** What the view can do to the viewed state: the four callbacks and the
    invalidation effect, with their arguments. *)
Inductive ViewAction :=
  | ActToggle (all : list ParsedDiffFile) (cb : bool) (fKey dText : JsString.t)
  | ActUndo (all : list ParsedDiffFile) (cb : bool)
  | ActMarkAllViewed (files : list ParsedDiffFile)
  | ActMarkAllUnviewed (files : list ParsedDiffFile)
  | ActInvalidate (files : list ParsedDiffFile).

Definition perform (a : ViewAction) (st : ViewState) : ViewState :=
  match a with
  | ActToggle all cb fKey dText => fst (handleToggleViewed all cb st fKey dText)
  | ActUndo all cb => fst (fst (undoLastViewed all cb st))
  | ActMarkAllViewed files => markAllViewed files st
  | ActMarkAllUnviewed files => markAllUnviewed files st
  | ActInvalidate files => invalidateStale files st
  end.

Definition performAll (acts : list ViewAction) (st : ViewState) : ViewState :=
  fold_left (fun s a => perform a s) acts st.

(** The action marks the file [k] under a text that hashes to [h]: a
    toggle of [k] with such a text, or mark-all-viewed over a list whose
    last record for [k] has such a text. *)
Definition marksUnder (k h : JsString.t) (a : ViewAction) : bool :=
  match a with
  | ActToggle _ _ fKey dText =>
      JsString.eqb fKey k && JsString.eqb (hashString dText) h
  | ActMarkAllViewed files =>
      match lastWithKey files k with
      | Some f => JsString.eqb (hashString (diffText f)) h
      | None => false
      end
  | _ => false
  end.

(** The action is an undo whose entry is for [k] and holds a state viewed
    under the hash [h]. *)
Definition restoresUnder (k h : JsString.t) (st : ViewState) (a : ViewAction) : bool :=
  match a with
  | ActUndo _ _ =>
      match pop (viewedUndoStack st) with
      | Some (_, e) =>
          JsString.eqb (fileKey e) k
          && match previousState e with
             | Some s => viewed s && JsString.eqb (contentHash s) h
             | None => false
             end
      | None => false
      end
  | _ => false
  end.

(** No action of the run marks [k] under [h] or restores such a state. *)
Fixpoint quietRun (k h : JsString.t) (acts : list ViewAction) (st : ViewState) : bool :=
  match acts with
  | [] => true
  | a :: rest =>
      negb (marksUnder k h a) && negb (restoresUnder k h st a)
      && quietRun k h rest (perform a st)
  end.

(** ** The closures of the diff view *)

(** The object handed to [onStatsChange]. *)
Record DiffStats := mkDiffStats {
  fileCount : nat;
  statAdditions : nat;
  statDeletions : nat;
  statIsLoading : bool;
  hasChanges : bool
}.

Definition totalAdditions (all : list ParsedDiffFile) : nat :=
  fold_left (fun sum f => (sum + additions f)%nat) all 0%nat.

Definition totalDeletions (all : list ParsedDiffFile) : nat :=
  fold_left (fun sum f => (sum + deletions f)%nat) all 0%nat.

(** The props and the filter atom the two lists are computed from. *)
Record ViewProps := mkViewProps {
  initialParsedFiles : option (list ParsedDiffFile);
  diff : option JsString.t;
  filteredDiffFiles : option (list JsString.t);
  initialSelectedFile : option JsString.t;
  hasOnSelectNextFile : bool;
  isLoadingDiff : bool
}.

(** The callbacks and effects of the component, each over the list it
    closes over: the displayed list [fileDiffs] or the unfiltered list
    [allFileDiffs]. *)
Definition viewAllFileDiffs (p : ViewProps) : list ParsedDiffFile :=
  allFileDiffs (initialParsedFiles p) (diff p).

(** [filteredDiffFiles ?? (initialSelectedFile ? [initialSelectedFile] : null)] *)
Definition viewEffectiveFilter (p : ViewProps) : option (list JsString.t) :=
  match filteredDiffFiles p with
  | Some ps => Some ps
  | None =>
      match initialSelectedFile p with
      | Some (c :: r) => Some [c :: r]
      | _ => None
      end
  end.

Definition viewFileDiffs (p : ViewProps) : list ParsedDiffFile :=
  fileDiffs (viewAllFileDiffs p) (viewEffectiveFilter p).

Definition viewGetViewedCount (p : ViewProps) (st : ViewState) : nat :=
  getViewedCount (viewFileDiffs p) (viewedFiles st).

Definition viewMarkAllViewed (p : ViewProps) (st : ViewState) : ViewState :=
  markAllViewed (viewFileDiffs p) st.

Definition viewInvalidateStale (p : ViewProps) (st : ViewState) : ViewState :=
  invalidateStale (viewFileDiffs p) st.

Definition viewHandleToggleViewed (p : ViewProps) (st : ViewState)
    (fKey dText : JsString.t) : ViewState * option JsString.t :=
  handleToggleViewed (viewAllFileDiffs p) (hasOnSelectNextFile p) st fKey dText.

(** The stats effect: the argument of the [onStatsChange] call, if the
    effect gets there.  [prevStats] is what [prevStatsRef] holds. *)
Definition viewStatsEffect (p : ViewProps) (prevStats : option DiffStats)
  : option DiffStats :=
  let all := viewAllFileDiffs p in
  let filtering :=
    match filteredDiffFiles p with
    | Some (_ :: _) => true
    | _ => false
    end in
  if filtering then None
  else if (length all =? 0)%nat && negb (isLoadingDiff p) then None
  else
    let stats :=
      mkDiffStats (length all) (totalAdditions all) (totalDeletions all)
                  (isLoadingDiff p) (0 <? length all)%nat in
    match prevStats with
    | Some prev =>
        if (fileCount prev =? length all)%nat
           && (statAdditions prev =? totalAdditions all)%nat
           && (statDeletions prev =? totalDeletions all)%nat
           && Bool.eqb (statIsLoading prev) (isLoadingDiff p)
        then None else Some stats
    | None => Some stats
    end.

(** ** Sample inputs *)

(** The two markers and nothing else; the same with a hunk header. *)
Definition markersOnly : JsString.t :=
  joinLines [js "--- a/x"; js "+++ b/x"; js ""].

Definition markersWithHunk : JsString.t :=
  joinLines [js "--- a/x"; js "+++ b/x"; js "@@ -1,1 +1,1 @@"].

(** The two markers and an added line that speaks of a rename; the two
    markers after a stray new-file marker, with a hunk header. *)
Definition markersWithPhrase : JsString.t :=
  joinLines [js "--- a/x"; js "+++ b/x"; js "+see rename to y"].

Definition misorderedWithHunk : JsString.t :=
  joinLines [js "+++ b/w"; js "--- a/x"; js "+++ b/x"; js "@@ -1,1 +1,1 @@"].

(** A lone header, and a block whose two markers name [/dev/null]. *)
Definition headerOnlyDiff : JsString.t := js "diff --git a/x b/x".

Definition devNullDiff : JsString.t :=
  joinLines [js "--- /dev/null"; js "+++ /dev/null"].

(** One modified file: two additions, one deletion. *)
Definition modifyDiff : JsString.t :=
  joinLines
    [ js "diff --git a/x b/x"; js "--- a/x"; js "+++ b/x";
      js "@@ -1,2 +1,3 @@"; js "-old"; js "+new"; js "+more"; js " same" ].

Definition modifyRecord : ParsedDiffFile :=
  mkParsedDiffFile (js "x->x") (js "x") (js "x") modifyDiff false 2 1 true.

(** One modified file whose removed and added lines are comments that
    start with two dashes and two plus signs. *)
Definition commentDiff : JsString.t :=
  joinLines
    [ js "diff --git a/q b/q"; js "--- a/q"; js "+++ b/q";
      js "@@ -1,2 +1,2 @@"; js "--- old comment"; js "-x";
      js "+++ new comment"; js "+y" ].

(** A binary-only block: no markers, no hunk header. *)
Definition binaryLine : JsString.t := js "Binary files a/x and b/x differ".

Definition binaryDiff : JsString.t :=
  joinLines [js "diff --git a/x b/x"; binaryLine].


(** A diff that lists the files [b], [a] and [c], in this order, and the
    block of [b] in it. *)
Definition unsortedDiff : JsString.t :=
  joinLines
    [ js "diff --git a/b b/b"; js "--- a/b"; js "+++ b/b";
      js "@@ -1,1 +1,1 @@"; js "-x"; js "+y";
      js "diff --git a/a b/a"; js "--- a/a"; js "+++ b/a";
      js "@@ -1,1 +1,1 @@"; js "-x"; js "+y";
      js "diff --git a/c b/c"; js "--- a/c"; js "+++ b/c";
      js "@@ -1,1 +1,1 @@"; js "-x"; js "+y" ].

Definition unsortedFiles : list ParsedDiffFile :=
  allFileDiffs None (Some unsortedDiff).

Definition blockOfB : JsString.t :=
  joinLines
    [ js "diff --git a/b b/b"; js "--- a/b"; js "+++ b/b";
      js "@@ -1,1 +1,1 @@"; js "-x"; js "+y" ].

Definition blockOfC : JsString.t :=
  joinLines
    [ js "diff --git a/c b/c"; js "--- a/c"; js "+++ b/c";
      js "@@ -1,1 +1,1 @@"; js "-x"; js "+y" ].

(** A diff of three files, the second of which only changes its mode, and
    the props of a view that shows it, with the navigation callback. *)
Definition modeChangeDiff : JsString.t :=
  joinLines
    [ js "diff --git a/a b/a"; js "--- a/a"; js "+++ b/a";
      js "@@ -1,1 +1,1 @@"; js "-x"; js "+y";
      js "diff --git a/run b/run"; js "old mode 100644"; js "new mode 100755";
      js "diff --git a/c b/c"; js "--- a/c"; js "+++ b/c";
      js "@@ -1,1 +1,1 @@"; js "-x"; js "+y" ].

Definition blockOfA : JsString.t :=
  joinLines
    [ js "diff --git a/a b/a"; js "--- a/a"; js "+++ b/a";
      js "@@ -1,1 +1,1 @@"; js "-x"; js "+y" ].

Definition modeChangeView : ViewProps :=
  mkViewProps None (Some modeChangeDiff) None None true false.

(** Two records with distinct keys, and a key. *)
Definition twoFiles : list ParsedDiffFile :=
  [ mkParsedDiffFile (js "a->a") (js "a") (js "a") (js "x") false 0 0 true;
    mkParsedDiffFile (js "b->b") (js "b") (js "b") (js "y") false 0 0 true ].

Definition sampleKey : JsString.t := js "a->a".


(** ** Sequences of viewed-files actions *)

(** A run of toggles, each on the state the previous one set. *)
Definition toggleAll (all : list ParsedDiffFile) (cb : bool)
    (ops : list (JsString.t * JsString.t)) (st : ViewState) : ViewState :=
  fold_left (fun s op => fst (handleToggleViewed all cb s (fst op) (snd op)))
            ops st.

(** [n] undos in a row. *)
Fixpoint undoTimes (all : list ParsedDiffFile) (cb : bool) (n : nat)
    (st : ViewState) : ViewState :=
  match n with
  | O => st
  | S n' => undoTimes all cb n' (fst (fst (undoLastViewed all cb st)))
  end.

(** ** Plain objects used as maps *)

(** The collapsed state is a plain object.  A map holds its own
    properties; what the object inherits decides the rest. *)
Definition PROTO : JsString.t := js "__proto__".

(** The names of the properties of [Object.prototype]. *)
Definition objectPrototypeMembers : list JsString.t :=
  [ js "constructor"; js "__defineGetter__"; js "__defineSetter__";
    js "hasOwnProperty"; js "__lookupGetter__"; js "__lookupSetter__";
    js "isPrototypeOf"; js "propertyIsEnumerable"; js "toString";
    js "valueOf"; js "__proto__"; js "toLocaleString" ].

(** [obj[k] = v] for a boolean [v].  Under the key [__proto__] the
    assignment reaches the inherited setter, which ignores a value that is
    no object, unless the object has a property of its own under that key
    (a computed key in an object literal makes one). *)
Definition assign (own : gmap JsString.t bool) (k : JsString.t) (v : bool)
  : gmap JsString.t bool :=
  match own !! k with
  | Some _ => <[k := v]> own
  | None => if JsString.eqb k PROTO then own else <[k := v]> own
  end.

(** [!!obj[k]]: the own value, or else whether the key names an inherited
    member, all of which are functions or objects. *)
Definition readTruthy (own : gmap JsString.t bool) (k : JsString.t) : bool :=
  match own !! k with
  | Some b => b
  | None => bool_decide (k ∈ objectPrototypeMembers)
  end.

(** A key under which assignments are never ignored. *)
Definition ordinaryKey (file : ParsedDiffFile) : bool :=
  negb (JsString.eqb (key file) PROTO).

(** ** Collapsing and expanding *)

(** [collapseAll]: a fresh object, one assignment per displayed file. *)
Definition collapseAll (files : list ParsedDiffFile) (st : ViewState) : ViewState :=
  let collapsedState :=
    fold_left (fun m file => assign m (key file) true)
              files (∅ : gmap JsString.t bool) in
  mkViewState (viewedFiles st) (viewedUndoStack st) collapsedState.

(** [!!collapsedByFileKey[k]] *)
Definition isCollapsed (collapsed : gmap JsString.t bool) (k : JsString.t) : bool :=
  readTruthy collapsed k.

(** [collapsedByFileKey[file.key] === true]: no inherited member is the
    boolean [true]. *)
Definition isAllCollapsed (files : list ParsedDiffFile)
    (collapsed : gmap JsString.t bool) : bool :=
  if (length files =? 0)%nat then true
  else forallb (fun file => bool_decide (collapsed !! key file = Some true)) files.

Definition isAllExpanded (files : list ParsedDiffFile)
    (collapsed : gmap JsString.t bool) : bool :=
  if (length files =? 0)%nat then true
  else forallb (fun file => negb (isCollapsed collapsed (key file))) files.

Definition BATCH_SIZE : nat := 5.

(** The state update of one batch: the files at positions [start] to
    [end - 1] are set expanded in a copy of the previous object. *)
Definition expandBatch (files : list ParsedDiffFile) (currentBatch : nat)
    (prev : gmap JsString.t bool) : gmap JsString.t bool :=
  let start := (currentBatch * BATCH_SIZE)%nat in
  let end_ := Nat.min (start + BATCH_SIZE) (length files) in
  fold_left (fun next file => assign next (key file) false)
            (take (end_ - start) (drop start files)) prev.

(** The batches [expandBatch] runs, in order, from [currentBatch] on: it
    returns at once when [start] is past the list, and schedules itself
    again while files remain.  [fuel] bounds the number of calls. *)
Fixpoint expandSchedule (fuel : nat) (files : list ParsedDiffFile)
    (currentBatch : nat) : list nat :=
  match fuel with
  | O => []
  | S fuel' =>
      if (length files <=? currentBatch * BATCH_SIZE)%nat then []
      else
        currentBatch ::
        (if (S currentBatch * BATCH_SIZE <? length files)%nat
         then expandSchedule fuel' files (S currentBatch)
         else [])
  end.

(** [expandAll], and the auto-expand effect: one update for up to ten
    files, batches of five beyond; the updates are applied in order. *)
Definition expandAll (files : list ParsedDiffFile)
    (collapsed : gmap JsString.t bool) : gmap JsString.t bool :=
  if (length files <=? 10)%nat then
    fold_left (fun m file => assign m (key file) false)
              files (∅ : gmap JsString.t bool)
  else
    fold_left (fun prev b => expandBatch files b prev)
              (expandSchedule (S (length files)) files 0) collapsed.

Definition COLLAPSED_HEIGHT : Z := 44.

(** The virtualizer's [estimateSize]. *)
Definition estimateSize (files : list ParsedDiffFile)
    (collapsed : gmap JsString.t bool) (index : nat) : Z :=
  match files !! index with
  | None => COLLAPSED_HEIGHT
  | Some file =>
      if isCollapsed collapsed (key file) then COLLAPSED_HEIGHT
      else
        let lineCount := Z.of_nat (additions file + deletions file) in
        Z.min (Z.max (lineCount * 22 + COLLAPSED_HEIGHT) 150) 800
  end.


(** ** More vocabulary for the splitter *)

(** The last line of a block that satisfies [p]. *)
Definition lastLine (p : JsString.t -> bool) (ls : list JsString.t)
  : option JsString.t :=
  List.find p (rev ls).

(** The path a marker line names, with the conventional directory cut. *)
Definition markerPath (dir : JsString.t) (line : JsString.t) : JsString.t :=
  stripDir dir (trim (slice 4 line)).

(** A header line that still is one when blanks at its end are cut. *)
Definition isFullHeader (line : JsString.t) : bool :=
  isFileHeader (trimEnd line).

(** The path the path filter compares. *)
Definition filterPathOf (file : ParsedDiffFile) : JsString.t :=
  if negb (JsString.eqb (newPath file) devNull) then newPath file
  else oldPath file.

(** A pure rename, as git prints it: no marker lines. *)
Definition renameDiff : JsString.t :=
  joinLines
    [ js "diff --git a/old b/new"; js "similarity index 100%";
      js "rename from old"; js "rename to new" ].

(** What every pushed block satisfies: it passed the marker test and is
    trimmed. *)
Definition goodBlock (b : JsString.t) : Prop :=
  isDiffBlock b = true /\ trim b = b.

(** The optional count of a range: nothing, or a comma and a numeral. *)
Definition isCount (s : JsString.t) : Prop :=
  s = [] \/ exists ds, s = 44 :: ds /\ isNumeral ds = true.


(** ** The diff text handed to the diff component *)

Fixpoint dropLineFeeds (s : JsString.t) : JsString.t :=
  match s with
  | [] => []
  | c :: r => if c =? LF then dropLineFeeds r else s
  end.

(** [s.replace(/\n+$/, "\n")]: a run of line feeds at the very end becomes
    one line feed. *)
Definition collapseFinalLineFeeds (s : JsString.t) : JsString.t :=
  if startsWith [LF] (rev s) then rev (dropLineFeeds (rev s)) ++ [LF] else s.

(** [normalizedDiff] of [diffViewDataByKey]: the final line feeds are
    collapsed, the line feed after a closing lone [+] or [-] line is cut,
    and a lone [+] or [-] last line gets a space. *)
Definition normalizeForParser (dText : JsString.t) : JsString.t :=
  let n1 := collapseFinalLineFeeds dText in
  let n2 :=
    if endsWith (LF :: js "+" ++ [LF]) n1 || endsWith (LF :: js "-" ++ [LF]) n1
    then removelast n1 else n1 in
  let lines := splitLines n2 in
  let lastLine := List.last lines [] in
  if JsString.eqb lastLine (js "+") || JsString.eqb lastLine (js "-")
  then joinLines (removelast lines ++ [lastLine ++ js " "])
  else n2.

(** ** The 32-bit hash behind [hashString] *)

Definition hash32 (str : JsString.t) : Z :=
  toUint32 (fold_left hashStep str 5381%Z).

(** The value of a radix-36 digit, and of a run of them. *)
Definition digit36Value (c : N) : Z :=
  if c <=? 57 then (Z.of_N c - 48)%Z else (Z.of_N c - 97 + 10)%Z.

Definition fromString36 (s : JsString.t) : Z :=
  fold_left (fun v c => (v * 36 + digit36Value c)%Z) s 0%Z.

Definition isDigit36 (c : N) : bool :=
  ((48 <=? c) && (c <=? 57)) || ((97 <=? c) && (c <=? 122)).

(** ** Task helpers *)

(** [formatTaskSubject] *)
Definition formatTaskSubject (taskId subject : JsString.t) : JsString.t :=
  taskId ++ js ". " ++ subject.

(** [set.add(x)] on a set kept in insertion order. *)
Definition setAdd (s : list JsString.t) (x : JsString.t) : list JsString.t :=
  if bool_decide (x ∈ s) then s else s ++ [x].

(** [Array.from(new Set(xs))] *)
Definition arrayFromSet (xs : list JsString.t) : list JsString.t :=
  fold_left setAdd xs [].

(** [mergeArrays], with [None] for [undefined]. *)
Definition mergeArrays (existing toAdd : option (list JsString.t))
  : option (list JsString.t) :=
  match existing, toAdd with
  | None, None => None
  | _, _ =>
      let result := arrayFromSet (default [] existing ++ default [] toAdd) in
      if (0 <? length result)%nat then Some result else None
  end.

(** [s.split("__")] *)
Fixpoint splitUnderscores (s : JsString.t) : list JsString.t :=
  match s with
  | [] => [[]]
  | c :: r =>
      match r with
      | c' :: r' =>
          if (c =? 95) && (c' =? 95) then [] :: splitUnderscores r'
          else match splitUnderscores r with
               | [] => [[c]]
               | p :: ps => (c :: p) :: ps
               end
      | [] => [[c]]
      end
  end.

(** [parts.join("__")] *)
Fixpoint joinUnderscores (ps : list JsString.t) : JsString.t :=
  match ps with
  | [] => []
  | [p] => p
  | p :: ps' => p ++ js "__" ++ joinUnderscores ps'
  end.

(** [s.replace(pattern, "")] for a string pattern: the first occurrence is
    cut. *)
Fixpoint removeFirst (pattern s : JsString.t) : JsString.t :=
  match stripPrefix pattern s with
  | Some rest => rest
  | None =>
      match s with
      | [] => []
      | c :: r => c :: removeFirst pattern r
      end
  end.

Definition TASK_GET : JsString.t := js "__TASK_GET__".

(** The header text that flags a task read, and the text shown for it. *)
Definition taskGetHeader (id shownSubject : JsString.t) : JsString.t :=
  TASK_GET ++ id ++ js "__" ++ shownSubject.

Definition renderTaskGetHeader (headerText : JsString.t) : JsString.t :=
  let parts := splitUnderscores (removeFirst TASK_GET headerText) in
  let taskId := default (js "undefined") (head parts) in
  let taskSubject := joinUnderscores (tail parts) in
  taskId ++ js ". " ++ taskSubject.


(** ** Task tool parts and snapshots *)

(** A task as a tool payload carries it; every field may be missing. *)
Record TaskPayload := mkTaskPayload {
  payloadId : option JsString.t;
  payloadSubject : option JsString.t;
  payloadDescription : option JsString.t;
  payloadActiveForm : option JsString.t;
  payloadStatus : option JsString.t;
  payloadBlockedBy : option (list JsString.t);
  payloadBlocks : option (list JsString.t)
}.

(** The fields of [part.input] and [part.output] that the task code
    reads.  Identifiers, subjects and statuses are strings, as the
    interfaces of the snapshot declare them; the parts are the objects of
    the array (an absent part changes nothing in these loops). *)
Record PartInput := mkPartInput {
  inputSubject : option JsString.t;
  inputDescription : option JsString.t;
  inputActiveForm : option JsString.t;
  inputTaskId : option JsString.t;
  inputStatus : option JsString.t;
  inputAddBlockedBy : option (list JsString.t);
  inputAddBlocks : option (list JsString.t)
}.

Record PartOutput := mkPartOutput {
  outputTask : option TaskPayload;
  outputStatusChangeTo : option (option JsString.t);
  outputTasks : option (list TaskPayload)
}.

Record ToolPart := mkToolPart {
  partType : JsString.t;
  partState : option JsString.t;
  partToolCallId : option JsString.t;
  partInput : option PartInput;
  partOutput : option PartOutput
}.

Record TaskSnapshot := mkTaskSnapshot {
  taskId : JsString.t;
  taskSubject : JsString.t;
  taskDescription : option JsString.t;
  taskActiveForm : option JsString.t;
  taskStatus : JsString.t;
  taskBlockedBy : option (list JsString.t);
  taskBlocks : option (list JsString.t)
}.

(** A string taken as a condition: present and not empty. *)
Definition truthy (s : option JsString.t) : option JsString.t :=
  match s with
  | Some (c :: r) => Some (c :: r)
  | _ => None
  end.

(** [a ?? b] *)
Definition orElse {A : Type} (a b : option A) : option A :=
  match a with
  | Some x => Some x
  | None => b
  end.

Definition inputField (part : ToolPart) {A : Type} (field : PartInput -> option A)
  : option A :=
  match partInput part with
  | Some i => field i
  | None => None
  end.

Definition outputField (part : ToolPart) {A : Type} (field : PartOutput -> option A)
  : option A :=
  match partOutput part with
  | Some o => field o
  | None => None
  end.

(** The listed task of a [TaskList] or [TaskGet], merged over what the
    snapshot holds. *)
Definition snapshotOfListed (id : JsString.t) (task : TaskPayload)
    (existing : option TaskSnapshot) : TaskSnapshot :=
  mkTaskSnapshot id
    (default (js "Task") (payloadSubject task))
    (orElse (payloadDescription task) (existing ≫= taskDescription))
    (orElse (payloadActiveForm task) (existing ≫= taskActiveForm))
    (default (js "pending") (payloadStatus task))
    (payloadBlockedBy task)
    (payloadBlocks task).

Definition setListed (tasks : gmap JsString.t TaskSnapshot) (task : TaskPayload)
  : gmap JsString.t TaskSnapshot :=
  match truthy (payloadId task) with
  | Some id => <[id := snapshotOfListed id task (tasks !! id)]> tasks
  | None => tasks
  end.

(** The body of the loop of [updateTaskSnapshotFromParts] for one part. *)
Definition updateTaskSnapshotFromPart (tasks : gmap JsString.t TaskSnapshot)
    (part : ToolPart) : gmap JsString.t TaskSnapshot :=
  if bool_decide (partState part = Some (js "input-streaming")) then tasks
  else
    let tasks1 :=
      if JsString.eqb (partType part) (js "tool-TaskCreate") then
        match truthy (outputField part outputTask ≫= payloadId) with
        | Some id =>
            <[id := mkTaskSnapshot id
                      (default (js "Task") (inputField part inputSubject))
                      (inputField part inputDescription)
                      (inputField part inputActiveForm)
                      (js "pending") None None]> tasks
        | None => tasks
        end
      else tasks in
    if JsString.eqb (partType part) (js "tool-TaskUpdate") then
      match truthy (inputField part inputTaskId) with
      | None => tasks1
      | Some taskId =>
          if bool_decide (inputField part inputStatus = Some (js "deleted"))
          then delete taskId tasks1
          else
            let existing := tasks1 !! taskId in
            <[taskId :=
                mkTaskSnapshot taskId
                  (default (js "Task #" ++ taskId)
                     (orElse (inputField part inputSubject) (taskSubject <$> existing)))
                  (orElse (inputField part inputDescription) (existing ≫= taskDescription))
                  (orElse (inputField part inputActiveForm) (existing ≫= taskActiveForm))
                  (default (js "pending")
                     (orElse (mjoin (outputField part outputStatusChangeTo))
                        (orElse (inputField part inputStatus) (taskStatus <$> existing))))
                  (mergeArrays (existing ≫= taskBlockedBy) (inputField part inputAddBlockedBy))
                  (mergeArrays (existing ≫= taskBlocks) (inputField part inputAddBlocks))]>
              tasks1
      end
    else
      let tasks2 :=
        if JsString.eqb (partType part) (js "tool-TaskList") then
          match outputField part outputTasks with
          | Some listed => fold_left setListed listed tasks1
          | None => tasks1
          end
        else tasks1 in
      if JsString.eqb (partType part) (js "tool-TaskGet") then
        match outputField part outputTask with
        | Some task => setListed tasks2 task
        | None => tasks2
        end
      else tasks2.

Definition updateTaskSnapshotFromParts (parts : list ToolPart)
    (existingSnapshot : gmap JsString.t TaskSnapshot)
  : gmap JsString.t TaskSnapshot :=
  fold_left updateTaskSnapshotFromPart parts existingSnapshot.

(** ** The snapshot history of a sub-chat *)

(** The two module-level caches: per sub-chat, the snapshot after each
    group, and the order of the groups. *)
Record TaskCaches := mkTaskCaches {
  snapshotHistoryCache :
    gmap JsString.t (gmap JsString.t (gmap JsString.t TaskSnapshot));
  groupOrderCache : gmap JsString.t (list JsString.t)
}.

Definition emptyCaches : TaskCaches := mkTaskCaches ∅ ∅.

(** [clearTaskSnapshotCache] *)
Definition clearTaskSnapshotCache (subChatId : JsString.t) (c : TaskCaches)
  : TaskCaches :=
  mkTaskCaches (delete subChatId (snapshotHistoryCache c))
               (delete subChatId (groupOrderCache c)).

(** [parts[0]?.toolCallId ?? ''] *)
Definition groupKeyOf (parts : list ToolPart) : JsString.t :=
  default [] (head parts ≫= partToolCallId).

(** The snapshot the group starts from. *)
Definition previousSnapshotOf
    (historyMap : gmap JsString.t (gmap JsString.t TaskSnapshot))
    (groupOrder : list JsString.t) (groupKey : JsString.t)
  : gmap JsString.t TaskSnapshot :=
  match findIndex (fun g => JsString.eqb g groupKey) groupOrder with
  | Some (S i) => default ∅ (groupOrder !! i ≫= (historyMap !!.))
  | Some O => ∅
  | None =>
      match List.last (List.map Some groupOrder) None with
      | Some lastGroupKey => default ∅ (historyMap !! lastGroupKey)
      | None => ∅
      end
  end.

(** The memo of [AgentTaskToolsGroup] that builds the snapshots of a
    group: the caches it leaves, the previous and the current snapshot. *)
Definition buildSnapshots (parts : list ToolPart) (subChatId : JsString.t)
    (c : TaskCaches)
  : TaskCaches * gmap JsString.t TaskSnapshot * gmap JsString.t TaskSnapshot :=
  if negb (nonEmpty subChatId) then (c, ∅, ∅)
  else
    let groupKey := groupKeyOf parts in
    if negb (nonEmpty groupKey) then (c, ∅, ∅)
    else
      let historyMap := default ∅ (snapshotHistoryCache c !! subChatId) in
      let groupOrder := default [] (groupOrderCache c !! subChatId) in
      let groupIndex := findIndex (fun g => JsString.eqb g groupKey) groupOrder in
      let previousSnapshot := previousSnapshotOf historyMap groupOrder groupKey in
      let currentSnapshot := updateTaskSnapshotFromParts parts previousSnapshot in
      let historyMap' := <[groupKey := currentSnapshot]> historyMap in
      let groupOrder' :=
        match groupIndex with
        | None => groupOrder ++ [groupKey]
        | Some _ => groupOrder
        end in
      (mkTaskCaches (<[subChatId := historyMap']> (snapshotHistoryCache c))
                    (<[subChatId := groupOrder']> (groupOrderCache c)),
       previousSnapshot, currentSnapshot).

(** The groups of a sub-chat rendered one after the other. *)
Definition buildAll (subChatId : JsString.t) (groups : list (list ToolPart))
    (c : TaskCaches) : TaskCaches :=
  fold_left (fun c parts => fst (fst (buildSnapshots parts subChatId c))) groups c.

(** Every recorded group key is distinct, not empty and has a snapshot. *)
Definition cachesOk (c : TaskCaches) : Prop :=
  forall subChatId groupOrder,
    groupOrderCache c !! subChatId = Some groupOrder ->
    NoDup groupOrder
    /\ forall g, g ∈ groupOrder ->
         g <> []
         /\ is_Some (snapshotHistoryCache c !! subChatId ≫= (.!! g)).

(** Every task of a snapshot sits under its own, non-empty id. *)
Definition snapshotOk (tasks : gmap JsString.t TaskSnapshot) : Prop :=
  forall k t, tasks !! k = Some t -> taskId t = k /\ k <> [].

Definition isStreaming (part : ToolPart) : bool :=
  bool_decide (partState part = Some (js "input-streaming")).

(** A sample part that deletes the task [id]. *)
Definition deletePart (id : JsString.t) : ToolPart :=
  mkToolPart (js "tool-TaskUpdate") None None
    (Some (mkPartInput None None None (Some id) (Some (js "deleted")) None None))
    None.

(** A sample part that creates the task [id]. *)
Definition createPart (id subject : JsString.t) : ToolPart :=
  mkToolPart (js "tool-TaskCreate") None (Some (js "call-1"))
    (Some (mkPartInput (Some subject) None None None None None None))
    (Some (mkPartOutput
             (Some (mkTaskPayload (Some id) None None None None None None))
             None None)).

(** A finished [TaskUpdate] part that deletes the task [id]. *)
Definition isDeleteOf (id : JsString.t) (part : ToolPart) : Prop :=
  id <> []
  /\ partType part = js "tool-TaskUpdate"
  /\ isStreaming part = false
  /\ inputField part inputTaskId = Some id
  /\ inputField part inputStatus = Some (js "deleted").

(** A finished [TaskCreate] part whose output names the task [id]. *)
Definition isCreateOf (id : JsString.t) (part : ToolPart) : Prop :=
  id <> []
  /\ partType part = js "tool-TaskCreate"
  /\ isStreaming part = false
  /\ outputField part outputTask ≫= payloadId = Some id.

(** The snapshot entry of a task just created. *)
Definition createdSnapshot (id : JsString.t) (part : ToolPart) : TaskSnapshot :=
  mkTaskSnapshot id
    (default (js "Task") (inputField part inputSubject))
    (inputField part inputDescription)
    (inputField part inputActiveForm)
    (js "pending") None None.

(** * Properties *)

(** ** Code-unit tests *)



Lemma startsWith_app p s : startsWith p (p ++ s) = true.
Proof.
  induction p as [|a p IH]; simpl; [done|].
  by rewrite N.eqb_refl, IH.
Qed.

Lemma startsWith_prefix p s : startsWith p s = true <-> exists r, s = p ++ r.
Proof.
  split.
  - revert s. induction p as [|a p IH]; intros s H; [by exists s|].
    destruct s as [|b s]; simpl in H; [done|].
    apply andb_true_iff in H as [Hab Hps]. apply N.eqb_eq in Hab as ->.
    destruct (IH _ Hps) as [r ->]. by exists r.
  - intros [r ->]. apply startsWith_app.
Qed.

(** ** The splitter is total and bounded *)

Lemma pushCurrent_length st :
  (length (fst (pushCurrent st)) <= S (length (fst st)))%nat.
Proof.
  destruct st as [blocks current]. simpl.
  destruct (isDiffBlock _); simpl; [rewrite length_app; simpl|]; lia.
Qed.

Lemma collectLine_length st line :
  (length (fst (collectLine st line))
   <= length (fst st) + (if isFileHeader line then 1 else 0))%nat.
Proof.
  unfold collectLine. simpl.
  destruct (isFileHeader line); simpl.
  - destruct (negb _); [|lia].
    pose proof (pushCurrent_length st). lia.
  - lia.
Qed.

Lemma collect_fold_length lines st :
  (length (fst (fold_left collectLine lines st))
   <= length (fst st) + countHeaders lines)%nat.
Proof.
  revert st. induction lines as [|l lines IH]; intros st; simpl.
  - unfold countHeaders. simpl. lia.
  - specialize (IH (collectLine st l)).
    pose proof (collectLine_length st l) as Hl.
    unfold countHeaders in *. simpl.
    destruct (isFileHeader l); simpl; lia.
Qed.

Lemma collectBlocks_length lines :
  (length (collectBlocks lines) <= S (countHeaders lines))%nat.
Proof.
  unfold collectBlocks.
  pose proof (pushCurrent_length (fold_left collectLine lines ([], []))).
  pose proof (collect_fold_length lines ([], [])). simpl in *. lia.
Qed.

(** C7: the splitter is a total function: every input string yields a
    finite list of records, at most one more than the number of
    [diff --git] header lines of the input, and the empty string yields no
    record.  None of the string and array operations it is built from can
    fail. *)
Theorem splitUnifiedDiffByFile_total :
  (forall diffText : JsString.t,
      exists records : list ParsedDiffFile,
        splitUnifiedDiffByFile diffText = records
        /\ (length records
            <= S (countHeaders (splitLines (normalizeCrLf diffText))))%nat)
  /\ splitUnifiedDiffByFile (js "") = [].
Proof.
  split; [|reflexivity].
  intros d. eexists. split; [reflexivity|].
  unfold splitUnifiedDiffByFile. rewrite length_imap.
  apply collectBlocks_length.
Qed.

(** ** The task-id comparator *)










(** ** Viewed state and content drift *)

Lemma eqb_eq (a b : JsString.t) : JsString.eqb a b = true <-> a = b.
Proof. unfold JsString.eqb. apply bool_decide_eq_true. Qed.

Lemma eqb_neq (a b : JsString.t) : JsString.eqb a b = false <-> a <> b.
Proof. unfold JsString.eqb. apply bool_decide_eq_false. Qed.

Lemma isFileViewed_true_iff (vf : gmap JsString.t ViewedFileState) fKey dText :
  isFileViewed vf fKey dText = true
  <-> exists s, vf !! fKey = Some s /\ viewed s = true
                /\ contentHash s = hashString dText.
Proof.
  unfold isFileViewed. split.
  - destruct (vf !! fKey) as [s|]; [|done].
    destruct (viewed s) eqn:Hv; simpl; [|done].
    intros H%eqb_eq. by exists s.
  - intros (s & -> & -> & Hh). simpl. by apply eqb_eq.
Qed.

Lemma isFileViewed_lookup (vf vf' : gmap JsString.t ViewedFileState) fKey dText :
  vf' !! fKey = vf !! fKey ->
  isFileViewed vf' fKey dText = isFileViewed vf fKey dText.
Proof. unfold isFileViewed. by intros ->. Qed.

Lemma isFileViewed_unviewed (vf : gmap JsString.t ViewedFileState) fKey dText s :
  vf !! fKey = Some s -> viewed s = false -> isFileViewed vf fKey dText = false.
Proof. unfold isFileViewed. by intros -> ->. Qed.

Lemma toggle_viewedFiles all cb st fKey dText :
  viewedFiles (fst (handleToggleViewed all cb st fKey dText))
  = <[fKey := mkViewedFileState
                (negb (isFileViewed (viewedFiles st) fKey dText))
                (hashString dText)]> (viewedFiles st).
Proof. reflexivity. Qed.

(** Marking makes the file viewed under the text it was marked with. *)
Lemma toggle_marks all cb st fKey dText :
  isFileViewed (viewedFiles st) fKey dText = false ->
  isFileViewed (viewedFiles (fst (handleToggleViewed all cb st fKey dText)))
               fKey dText = true.
Proof.
  intros Hnot. rewrite toggle_viewedFiles, Hnot.
  apply isFileViewed_true_iff. eexists. rewrite lookup_insert_eq.
  split; [reflexivity|]. done.
Qed.

Lemma fold_insert_const_lookup {V : Type} (v0 : V) (ks : list JsString.t)
    (m : gmap JsString.t V) (k : JsString.t) :
  fold_left (fun m k => <[k := v0]> m) ks m !! k
  = if decide (k ∈ ks) then Some v0 else m !! k.
Proof.
  revert m. induction ks as [|k' ks IH]; intros m.
  - case_decide as Hin; [|done]. by apply elem_of_nil in Hin.
  - cbn [fold_left]. rewrite IH.
    destruct (decide (k ∈ ks)) as [Hin|Hnin].
    + rewrite decide_True; [done|]. by apply elem_of_cons; right.
    + destruct (decide (k = k')) as [->|Hne].
      * rewrite decide_True; [|by apply elem_of_cons; left].
        by rewrite lookup_insert_eq.
      * rewrite decide_False; [by rewrite lookup_insert_ne|].
        intros [?|?]%elem_of_cons; done.
Qed.

(** The invalidation effect leaves a stored state alone or resets it. *)
Lemma invalidateStale_lookup files st k :
  viewedFiles (invalidateStale files st) !! k = viewedFiles st !! k
  \/ viewedFiles (invalidateStale files st) !! k
     = Some (mkViewedFileState false []).
Proof.
  unfold invalidateStale.
  destruct (length files =? 0)%nat; [by left|].
  destruct (0 <? _)%nat; [|by left]. simpl.
  rewrite fold_insert_const_lookup.
  destruct (decide _); [by right|by left].
Qed.

(** ** Undo *)

Lemma pop_snoc {A : Type} (l : list A) (x : A) : pop (l ++ [x]) = Some (l, x).
Proof. unfold pop. rewrite rev_app_distr. simpl. by rewrite rev_involutive. Qed.

Lemma pop_nil {A : Type} : pop (@nil A) = None.
Proof. reflexivity. Qed.

Lemma pop_Some {A : Type} (l stack : list A) (x : A) :
  pop l = Some (stack, x) -> l = stack ++ [x].
Proof.
  unfold pop. destruct (rev l) as [|y r] eqn:Hrev; [done|].
  intros [= <- <-]. rewrite <- (rev_involutive l), Hrev. reflexivity.
Qed.

Lemma toggle_undoStack all cb st fKey dText :
  viewedUndoStack (fst (handleToggleViewed all cb st fKey dText))
  = pushUndo (viewedUndoStack st) (mkUndoEntry fKey (viewedFiles st !! fKey)).
Proof. reflexivity. Qed.

Lemma pushUndo_small stack e :
  (length stack < 50)%nat -> pushUndo stack e = stack ++ [e].
Proof.
  intros Hlen. unfold pushUndo. rewrite length_app. simpl.
  destruct (Nat.ltb_spec 50 (length stack + 1)); [lia|done].
Qed.

Lemma pushUndo_full stack e :
  (50 <= length stack)%nat -> pushUndo stack e = tail stack ++ [e].
Proof.
  intros Hlen. unfold pushUndo. rewrite length_app. simpl.
  destruct (Nat.ltb_spec 50 (length stack + 1)); [|lia].
  destruct stack; [simpl in Hlen; lia|done].
Qed.

Lemma pushUndo_pop stack e :
  exists rest, pop (pushUndo stack e) = Some (rest, e).
Proof.
  destruct (Nat.lt_ge_cases (length stack) 50).
  - rewrite pushUndo_small by done. eexists. apply pop_snoc.
  - rewrite pushUndo_full by done. eexists. apply pop_snoc.
Qed.

Lemma pushUndo_length stack e :
  (length stack <= 50)%nat -> (length (pushUndo stack e) <= 50)%nat.
Proof.
  intros Hlen. destruct (Nat.lt_ge_cases (length stack) 50).
  - rewrite pushUndo_small by done. rewrite length_app. simpl. lia.
  - rewrite pushUndo_full by done. rewrite length_app. simpl.
    destruct stack; simpl in *; lia.
Qed.

Lemma undo_stack_length all cb st :
  (length (viewedUndoStack (fst (fst (undoLastViewed all cb st))))
   <= length (viewedUndoStack st))%nat.
Proof.
  unfold undoLastViewed.
  destruct (pop (viewedUndoStack st)) as [[stack e]|] eqn:Hpop; [|done].
  apply pop_Some in Hpop. rewrite Hpop. simpl. rewrite length_app. lia.
Qed.

Lemma invalidateStale_undoStack files st :
  viewedUndoStack (invalidateStale files st) = viewedUndoStack st.
Proof.
  unfold invalidateStale.
  destruct (length files =? 0)%nat; [done|]. by destruct (0 <? _)%nat.
Qed.

Lemma reachable_stack_bound st :
  reachable st -> (length (viewedUndoStack st) <= 50)%nat.
Proof.
  induction 1 as [|all cb st k t _ IH|all cb st _ IH| | |files st _ IH];
    try done.
  - simpl. lia.
  - rewrite toggle_undoStack. by apply pushUndo_length.
  - pose proof (undo_stack_length all cb st). lia.
  - by rewrite invalidateStale_undoStack.
Qed.

Lemma undo_after_toggle all cb all' cb' st fKey dText :
  exists st2 sel,
    undoLastViewed all' cb' (fst (handleToggleViewed all cb st fKey dText))
      = (st2, true, sel)
    /\ viewedFiles st2 = viewedFiles st.
Proof.
  unfold undoLastViewed. rewrite toggle_undoStack.
  destruct (pushUndo_pop (viewedUndoStack st)
              (mkUndoEntry fKey (viewedFiles st !! fKey))) as [rest ->].
  do 2 eexists. split; [reflexivity|]. simpl.
  destruct (viewedFiles st !! fKey) as [prev|] eqn:Hprev.
  - rewrite insert_insert_eq. by apply insert_id.
  - by apply delete_insert_id.
Qed.

(** C6: undoing right after a toggle of a file puts the whole viewed map
    back, so the file's viewed status under any diff text is what it was
    before the mark; undo on an empty stack returns false and changes
    nothing; the undo stack never holds more than 50 entries, and a push
    onto a full stack drops the oldest entry. *)
Theorem undoLastViewed_restores
    (all : list ParsedDiffFile) (cb : bool) (st : ViewState)
    (fKey dText : JsString.t) (Hreach : reachable st) :
  let st1 := fst (handleToggleViewed all cb st fKey dText) in
  let entry := mkUndoEntry fKey (viewedFiles st !! fKey) in
  (exists st2 sel,
      undoLastViewed all cb st1 = (st2, true, sel)
      /\ viewedFiles st2 = viewedFiles st
      /\ forall k t, isFileViewed (viewedFiles st2) k t
                     = isFileViewed (viewedFiles st) k t)
  /\ (forall s, viewedUndoStack s = [] -> undoLastViewed all cb s = (s, false, None))
  /\ (length (viewedUndoStack st) <= 50)%nat
  /\ (length (viewedUndoStack st1) <= 50)%nat
  /\ ((length (viewedUndoStack st) < 50)%nat ->
      viewedUndoStack st1 = viewedUndoStack st ++ [entry])
  /\ (length (viewedUndoStack st) = 50%nat ->
      viewedUndoStack st1 = tail (viewedUndoStack st) ++ [entry]).
Proof.
  intros st1 entry.
  pose proof (reachable_stack_bound _ Hreach) as Hbound.
  repeat split.
  - destruct (undo_after_toggle all cb all cb st fKey dText) as (st2 & sel & Hu & Hv).
    exists st2, sel. repeat split; [done|done|]. intros k t. by rewrite Hv.
  - intros s Hs. unfold undoLastViewed. by rewrite Hs.
  - done.
  - apply (reachable_stack_bound st1). by constructor.
  - intros Hlt. unfold st1. rewrite toggle_undoStack. by apply pushUndo_small.
  - intros Heq. unfold st1. rewrite toggle_undoStack. apply pushUndo_full. lia.
Qed.

Lemma undoLastViewed_restores_witness :
  let st := fst (handleToggleViewed [] false initialViewState sampleKey (js "x")) in
  let st1 := fst (handleToggleViewed [] false st sampleKey (js "y")) in
  let entry := mkUndoEntry sampleKey (viewedFiles st !! sampleKey) in
  (exists st2 sel,
      undoLastViewed [] false st1 = (st2, true, sel)
      /\ viewedFiles st2 = viewedFiles st
      /\ forall k t, isFileViewed (viewedFiles st2) k t
                     = isFileViewed (viewedFiles st) k t)
  /\ (forall s, viewedUndoStack s = [] -> undoLastViewed [] false s = (s, false, None))
  /\ (length (viewedUndoStack st) <= 50)%nat
  /\ (length (viewedUndoStack st1) <= 50)%nat
  /\ ((length (viewedUndoStack st) < 50)%nat ->
      viewedUndoStack st1 = viewedUndoStack st ++ [entry])
  /\ (length (viewedUndoStack st) = 50%nat ->
      viewedUndoStack st1 = tail (viewedUndoStack st) ++ [entry]).
Proof.
  apply (undoLastViewed_restores [] false
           (fst (handleToggleViewed [] false initialViewState sampleKey (js "x")))
           sampleKey (js "y")).
  apply reach_toggle. apply reach_init.
Defined.

(** ** The displayed list *)

Lemma filter_sublist {A : Type} (p : A -> bool) (l : list A) :
  sublist (List.filter p l) l.
Proof.
  induction l as [|x l IH]; simpl; [constructor|].
  destruct (p x); by constructor.
Qed.

Lemma elem_of_filter {A : Type} (p : A -> bool) (l : list A) (x : A) :
  x ∈ List.filter p l <-> x ∈ l /\ p x = true.
Proof. rewrite !list_elem_of_In. apply filter_In. Qed.

Lemma fileDiffs_sublist all flt : sublist (fileDiffs all flt) all.
Proof.
  unfold fileDiffs. destruct (length _ =? 0)%nat.
  - apply filter_sublist.
  - etrans; apply filter_sublist.
Qed.

Lemma fileDiffs_displayable all flt f :
  f ∈ fileDiffs all flt -> isDisplayable f = true.
Proof.
  unfold fileDiffs. destruct (length _ =? 0)%nat.
  - by intros [_ ?]%elem_of_filter.
  - by intros [[_ ?]%elem_of_filter _]%elem_of_filter.
Qed.

(** A fold of assignments [m[key f] = v f] leaves, under each key, the value
    of the last file with that key. *)
Lemma fold_insert_lookup {V : Type} (v : ParsedDiffFile -> V)
    (files : list ParsedDiffFile) (m : gmap JsString.t V) (k : JsString.t) :
  fold_left (fun m f => <[key f := v f]> m) files m !! k
  = match List.find (fun f => JsString.eqb (key f) k) (rev files) with
    | Some g => Some (v g)
    | None => m !! k
    end.
Proof.
  induction files as [|x files IH] using rev_ind; [done|].
  rewrite fold_left_app, rev_app_distr. simpl.
  destruct (JsString.eqb (key x) k) eqn:Hk.
  - apply eqb_eq in Hk as <-. by rewrite lookup_insert_eq.
  - apply eqb_neq in Hk. by rewrite lookup_insert_ne.
Qed.

Lemma find_key_is_Some (files : list ParsedDiffFile) k :
  is_Some (List.find (fun f => JsString.eqb (key f) k) (rev files))
  <-> exists f, f ∈ files /\ key f = k.
Proof.
  split.
  - intros [g Hg]. apply find_some in Hg as [Hin Hk].
    exists g. split; [|by apply eqb_eq].
    apply list_elem_of_In. by apply in_rev.
  - intros (f & Hin & Hk).
    destruct (List.find _ _) as [g|] eqn:Hfind; [by eexists|].
    assert (JsString.eqb (key f) k = false) as Hk'%eqb_neq; [|done].
    apply (find_none _ _ Hfind f). rewrite <- in_rev. by apply list_elem_of_In.
Qed.

(** ** Mark all viewed *)

Lemma markAllViewed_lookup files st k :
  viewedFiles (markAllViewed files st) !! k
  = (fun g => mkViewedFileState true (hashString (diffText g)))
      <$> lastWithKey files k.
Proof.
  unfold markAllViewed, lastWithKey. simpl.
  rewrite fold_insert_lookup, lookup_empty. by destruct (List.find _ _).
Qed.

Lemma markAllViewed_collapsed files st f :
  f ∈ files -> collapsedByFileKey (markAllViewed files st) !! key f = Some true.
Proof.
  intros Hin. unfold markAllViewed. simpl.
  rewrite fold_insert_lookup, lookup_empty.
  assert (is_Some (List.find (fun g => JsString.eqb (key g) (key f)) (rev files)))
    as [g ->]; [|done].
  apply find_key_is_Some. by exists f.
Qed.

Lemma lastWithKey_NoDup files f :
  NoDup (List.map key files) -> f ∈ files -> lastWithKey files (key f) = Some f.
Proof.
  unfold lastWithKey.
  induction files as [|x files IH] using rev_ind; intros Hnd Hin.
  - by apply elem_of_nil in Hin.
  - rewrite rev_app_distr. simpl.
    rewrite List.map_app in Hnd. apply NoDup_app in Hnd as (Hnd & Hdisj & _).
    apply elem_of_app in Hin as [Hin|Hin].
    + destruct (JsString.eqb (key x) (key f)) eqn:Hk; [|by apply IH].
      apply eqb_eq in Hk. exfalso. apply (Hdisj (key f)).
      * apply list_elem_of_In, in_map, list_elem_of_In, Hin.
      * rewrite <- Hk. simpl. by left.
    + apply list_elem_of_singleton in Hin as ->.
      by rewrite (proj2 (eqb_eq _ _) eq_refl).
Qed.




(** ** Content drift over runs of actions *)

(** Whether two texts are viewed depends on their hashes only. *)
Lemma isFileViewed_same_hash (vf : gmap JsString.t ViewedFileState) k t t' :
  hashString t = hashString t' -> isFileViewed vf k t = isFileViewed vf k t'.
Proof. unfold isFileViewed. by intros ->. Qed.

Lemma isFileViewed_insert (vf : gmap JsString.t ViewedFileState) k s t :
  isFileViewed (<[k := s]> vf) k t
  = viewed s && JsString.eqb (contentHash s) (hashString t).
Proof. unfold isFileViewed. rewrite lookup_insert_eq. by destruct (viewed s). Qed.

(** One action on a state in which [k] is not viewed under [t]: the file
    is viewed under [t] afterwards exactly when the action marks it under
    the hash of [t] or is an undo that restores a state viewed under it. *)
Lemma perform_viewed (a : ViewAction) (st : ViewState) (k t : JsString.t) :
  isFileViewed (viewedFiles st) k t = false ->
  isFileViewed (viewedFiles (perform a st)) k t
  = marksUnder k (hashString t) a || restoresUnder k (hashString t) st a.
Proof.
  intros Hnot.
  destruct a as [all cb fKey dText|all cb|files|files|files];
    cbn [perform marksUnder restoresUnder].
  - rewrite toggle_viewedFiles, orb_false_r.
    destruct (JsString.eqb fKey k) eqn:Hk; cbn [andb].
    + apply eqb_eq in Hk as ->. rewrite isFileViewed_insert. cbn [viewed contentHash].
      destruct (JsString.eqb (hashString dText) (hashString t)) eqn:Hh;
        [|by rewrite andb_false_r].
      apply eqb_eq in Hh.
      by rewrite (isFileViewed_same_hash _ _ _ _ Hh), Hnot.
    + apply eqb_neq in Hk. rewrite <- Hnot.
      apply isFileViewed_lookup. by apply lookup_insert_ne.
  - unfold undoLastViewed.
    destruct (pop (viewedUndoStack st)) as [[stack e]|]; [|done].
    cbn [fst viewedFiles orb].
    destruct (JsString.eqb (fileKey e) k) eqn:Hk; cbn [andb].
    + apply eqb_eq in Hk as <-.
      destruct (previousState e) as [s|]; [apply isFileViewed_insert|].
      unfold isFileViewed. by rewrite lookup_delete_eq.
    + apply eqb_neq in Hk. rewrite <- Hnot. apply isFileViewed_lookup.
      destruct (previousState e);
        [by apply lookup_insert_ne|by apply lookup_delete_ne].
  - rewrite orb_false_r. unfold isFileViewed. rewrite markAllViewed_lookup.
    by destruct (lastWithKey files k).
  - reflexivity.
  - rewrite orb_false_r.
    destruct (invalidateStale_lookup files st k) as [He|He].
    + by rewrite (isFileViewed_lookup _ _ _ _ He).
    + by eapply isFileViewed_unviewed.
Qed.

Lemma quietRun_stays_unviewed k t acts st :
  quietRun k (hashString t) acts st = true ->
  isFileViewed (viewedFiles st) k t = false ->
  isFileViewed (viewedFiles (performAll acts st)) k t = false.
Proof.
  revert st. induction acts as [|a acts IH]; intros st Hquiet Hnot; [done|].
  cbn [quietRun] in Hquiet.
  apply andb_true_iff in Hquiet as [[Hm Hr]%andb_true_iff Hquiet].
  apply negb_true_iff in Hm, Hr.
  cbn [performAll fold_left]. apply IH; [done|].
  by rewrite perform_viewed, Hm, Hr.
Qed.

(** C2, as the code has it: the viewed query answers true exactly when a
    state is stored for the key with [viewed] true and a content hash equal
    to the hash of the current diff text.  A file marked viewed under a
    text hashing to [h1] is reported unviewed for every text hashing to
    another [h2], through any run of the view's actions (toggles of any
    file, undos, mark-all-viewed, mark-all-unviewed, the invalidation
    effect) in which no action marks it under [h2] and no undo restores a
    state viewed under [h2]; the next action makes it viewed under the new
    text exactly when it is such a mark or such an undo, and a toggle under
    the new text is one. *)
Theorem isFileViewed_current_hash
    (all : list ParsedDiffFile) (cb : bool) (st : ViewState)
    (k t1 t2 : JsString.t) (acts : list ViewAction)
    (Hunviewed : isFileViewed (viewedFiles st) k t1 = false)
    (Hdrift : hashString t2 <> hashString t1)
    (Hquiet : quietRun k (hashString t2) acts
                (fst (handleToggleViewed all cb st k t1)) = true) :
  let st1 := fst (handleToggleViewed all cb st k t1) in
  let st' := performAll acts st1 in
  (forall (vf : gmap JsString.t ViewedFileState) fKey dText,
      isFileViewed vf fKey dText = true
      <-> exists s, vf !! fKey = Some s /\ viewed s = true
                    /\ contentHash s = hashString dText)
  /\ isFileViewed (viewedFiles st1) k t1 = true
  /\ isFileViewed (viewedFiles st') k t2 = false
  /\ (forall a,
        isFileViewed (viewedFiles (perform a st')) k t2
        = marksUnder k (hashString t2) a || restoresUnder k (hashString t2) st' a)
  /\ isFileViewed (viewedFiles (fst (handleToggleViewed all cb st' k t2))) k t2 = true.
Proof.
  intros st1 st'.
  assert (isFileViewed (viewedFiles st') k t2 = false) as Hstale.
  { apply quietRun_stays_unviewed; [done|].
    unfold st1. rewrite toggle_viewedFiles, isFileViewed_insert. cbn [viewed contentHash].
    rewrite Hunviewed. cbn [negb andb]. apply eqb_neq. by intros Hh. }
  split; [apply isFileViewed_true_iff|].
  split; [by apply toggle_marks|].
  split; [done|].
  split; [intros a; by apply perform_viewed|].
  by apply toggle_marks.
Qed.

Lemma isFileViewed_current_hash_witness :
  let acts :=
    [ ActToggle twoFiles false (js "b->b") (js "y");
      ActInvalidate twoFiles;
      ActUndo twoFiles false;
      ActToggle twoFiles false sampleKey (js "x");
      ActUndo twoFiles false;
      ActMarkAllViewed [mkParsedDiffFile (js "b->b") (js "b") (js "b") (js "y")
                          false 0 0 true] ] in
  let st1 := fst (handleToggleViewed twoFiles false initialViewState sampleKey (js "x")) in
  let st' := performAll acts st1 in
  (forall (vf : gmap JsString.t ViewedFileState) fKey dText,
      isFileViewed vf fKey dText = true
      <-> exists s, vf !! fKey = Some s /\ viewed s = true
                    /\ contentHash s = hashString dText)
  /\ isFileViewed (viewedFiles st1) sampleKey (js "x") = true
  /\ isFileViewed (viewedFiles st') sampleKey (js "y") = false
  /\ (forall a,
        isFileViewed (viewedFiles (perform a st')) sampleKey (js "y")
        = marksUnder sampleKey (hashString (js "y")) a
          || restoresUnder sampleKey (hashString (js "y")) st' a)
  /\ isFileViewed
       (viewedFiles (fst (handleToggleViewed twoFiles false st' sampleKey (js "y"))))
       sampleKey (js "y") = true.
Proof.
  apply (isFileViewed_current_hash twoFiles false initialViewState sampleKey
           (js "x") (js "y")).
  - reflexivity.
  - intros H. vm_compute in H. discriminate H.
  - vm_compute. reflexivity.
Defined.

(** C2, as stated, fails when an undo brings back an earlier state: the
    file is viewed under the text ["y"], then marked viewed under the text
    ["x"], which hashes differently; under ["y"] it is now unviewed; the
    undo of that mark restores the state viewed under ["y"], and the file
    is viewed under ["y"] though nothing marked it again. *)
Lemma isFileViewed_undo_counterexample :
  let st1 := fst (handleToggleViewed twoFiles false initialViewState sampleKey (js "y")) in
  let st2 := fst (handleToggleViewed twoFiles false st1 sampleKey (js "x")) in
  let st3 := fst (fst (undoLastViewed twoFiles false st2)) in
  isFileViewed (viewedFiles st1) sampleKey (js "x") = false
  /\ isFileViewed (viewedFiles st2) sampleKey (js "x") = true
  /\ JsString.eqb (hashString (js "y")) (hashString (js "x")) = false
  /\ isFileViewed (viewedFiles st2) sampleKey (js "y") = false
  /\ isFileViewed (viewedFiles st3) sampleKey (js "y") = true.
Proof. repeat split; vm_compute; reflexivity. Qed.

(** ** Focus after marking a file viewed *)

Lemma find_first {A : Type} (p : A -> bool) (l : list A) (j : nat) (x : A) :
  l !! j = Some x -> p x = true ->
  (forall j' y, (j' < j)%nat -> l !! j' = Some y -> p y = false) ->
  List.find p l = Some x.
Proof.
  revert j. induction l as [|a l IH]; intros j Hj Hx Hbefore; [done|].
  destruct j as [|j]; simpl in *.
  - injection Hj as ->. by rewrite Hx.
  - rewrite (Hbefore O a) by (done || lia).
    apply (IH j); [done|done|].
    intros j' y Hlt Hy. apply (Hbefore (S j') y); [lia|done].
Qed.

Lemma find_all_false {A : Type} (p : A -> bool) (l : list A) :
  (forall j y, l !! j = Some y -> p y = false) -> List.find p l = None.
Proof.
  induction l as [|a l IH]; intros Hall; [done|]. simpl.
  rewrite (Hall O a) by done. apply IH.
  intros j y Hy. by apply (Hall (S j) y).
Qed.

Section NextUnviewed.

Variable vf : gmap JsString.t ViewedFileState.
Variable all : list ParsedDiffFile.
Variable i : nat.

Let unviewed (f : ParsedDiffFile) : bool :=
  negb (isFileViewed vf (key f) (diffText f)).

Lemma nextUnviewedFile_after j f :
  (i < j)%nat -> all !! j = Some f -> unviewed f = true ->
  (forall j' f', (i < j' < j)%nat -> all !! j' = Some f' -> unviewed f' = false) ->
  nextUnviewedFile vf all i = Some f.
Proof.
  intros Hij Hj Hf Hbetween. unfold nextUnviewedFile.
  rewrite (find_first _ (drop (S i) all) (j - S i) f); [done| |done|].
  - rewrite lookup_drop. by replace (S i + (j - S i))%nat with j by lia.
  - intros j' y Hlt Hy. rewrite lookup_drop in Hy.
    apply (Hbetween (S i + j')%nat y); [lia|done].
Qed.

Lemma nextUnviewedFile_wrap j f :
  (j < i)%nat -> all !! j = Some f -> unviewed f = true ->
  (forall j' f', (i < j')%nat -> all !! j' = Some f' -> unviewed f' = false) ->
  (forall j' f', (j' < j)%nat -> all !! j' = Some f' -> unviewed f' = false) ->
  nextUnviewedFile vf all i = Some f.
Proof.
  intros Hji Hj Hf Hafter Hbefore. unfold nextUnviewedFile.
  rewrite find_all_false.
  - apply (find_first _ (take i all) j f); [|done|].
    + by rewrite lookup_take_lt.
    + intros j' y Hlt Hy. rewrite lookup_take_lt in Hy by lia.
      by apply (Hbefore j' y).
  - intros j' y Hy. rewrite lookup_drop in Hy.
    apply (Hafter (S i + j')%nat y); [lia|done].
Qed.

Lemma nextUnviewedFile_none :
  (forall f, f ∈ all -> unviewed f = false) ->
  nextUnviewedFile vf all i = None.
Proof.
  intros Hall. unfold nextUnviewedFile.
  rewrite !find_all_false; [done| |].
  - intros j y Hy. apply Hall. apply list_elem_of_lookup. exists j.
    apply lookup_take_Some in Hy. tauto.
  - intros j y Hy. rewrite lookup_drop in Hy.
    apply Hall. apply list_elem_of_lookup. by eexists.
Qed.

End NextUnviewed.

Lemma find_app_first {A : Type} (p : A -> bool) (l1 l2 : list A) :
  List.find p (l1 ++ l2)
  = match List.find p l1 with
    | Some x => Some x
    | None => List.find p l2
    end.
Proof.
  induction l1 as [|x l1 IH]; [done|]. simpl. by destruct (p x).
Qed.

Lemma nextUnviewedFile_rotation vf all i :
  nextUnviewedFile vf all i
  = List.find (fun f => negb (isFileViewed vf (key f) (diffText f)))
              (drop (S i) all ++ take i all).
Proof. unfold nextUnviewedFile. by rewrite find_app_first. Qed.

(** The path handed to the callback is a real one, the new path first. *)
Lemma selectablePath_Some file p :
  selectablePath file = Some p
  <-> p <> [] /\ p <> devNull
      /\ p = (if nonEmpty (newPath file) && negb (JsString.eqb (newPath file) devNull)
              then newPath file else oldPath file).
Proof.
  unfold selectablePath.
  set (filePath := if nonEmpty (newPath file)
                      && negb (JsString.eqb (newPath file) devNull)
                   then newPath file else oldPath file).
  destruct (nonEmpty filePath) eqn:Hne; cbn [andb].
  - destruct (JsString.eqb filePath devNull) eqn:Hdev; cbn [negb].
    + apply eqb_eq in Hdev. split; [done|]. intros (_ & Hp & ->). done.
    + apply eqb_neq in Hdev. split.
      * intros [= <-]. repeat split; [|done]. by destruct filePath.
      * by intros (_ & _ & ->).
  - split; [done|]. intros (Hp & _ & ->). by destruct filePath.
Qed.

(** C8, as the code has it: when a toggle turns a file from unviewed to
    viewed and the callback is there, the unfiltered file list is scanned
    for the next unviewed file in the order in which it was parsed (no key
    comparison orders it): the later positions first, then the earlier
    ones.  The callback receives the usable path of the first unviewed
    file found, which is its new path, or its old path when the new one is
    empty or [/dev/null]; when that file has no usable path the callback is
    not called, whatever unviewed files come after it.  It is not called
    when every file of the list is viewed, nor when the toggle turns the
    file unviewed. *)
Theorem handleToggleViewed_next_unviewed
    (all : list ParsedDiffFile) (st : ViewState) (fKey dText : JsString.t)
    (i : nat)
    (Hunviewed : isFileViewed (viewedFiles st) fKey dText = false)
    (Hindex : findIndex (fun f => JsString.eqb (key f) fKey) all = Some i) :
  let st1 := fst (handleToggleViewed all true st fKey dText) in
  let selected := snd (handleToggleViewed all true st fKey dText) in
  let unviewed f := negb (isFileViewed (viewedFiles st1) (key f) (diffText f)) in
  selected = List.find unviewed (drop (S i) all ++ take i all) ≫= selectablePath
  /\ (forall j f,
        (i < j)%nat -> all !! j = Some f -> unviewed f = true ->
        (forall j' f', (i < j' < j)%nat -> all !! j' = Some f' -> unviewed f' = false) ->
        selected = selectablePath f)
  /\ (forall j f,
        (j < i)%nat -> all !! j = Some f -> unviewed f = true ->
        (forall j' f', (i < j')%nat -> all !! j' = Some f' -> unviewed f' = false) ->
        (forall j' f', (j' < j)%nat -> all !! j' = Some f' -> unviewed f' = false) ->
        selected = selectablePath f)
  /\ (forall f p,
        selectablePath f = Some p
        <-> p <> [] /\ p <> devNull
            /\ p = (if nonEmpty (newPath f) && negb (JsString.eqb (newPath f) devNull)
                    then newPath f else oldPath f))
  /\ (forall f,
        List.find unviewed (drop (S i) all ++ take i all) = Some f ->
        selectablePath f = None -> selected = None)
  /\ ((forall f, f ∈ all -> unviewed f = false) -> selected = None)
  /\ (forall cb st0 k t,
        isFileViewed (viewedFiles st0) k t = true ->
        snd (handleToggleViewed all cb st0 k t) = None).
Proof.
  intros st1 selected unviewed.
  assert (selected
          = match nextUnviewedFile (viewedFiles st1) all i with
            | Some file => selectablePath file
            | None => None
            end) as Hsel.
  { unfold selected, handleToggleViewed. simpl.
    rewrite Hunviewed, Hindex. reflexivity. }
  split.
  { rewrite Hsel, nextUnviewedFile_rotation. fold unviewed.
    by destruct (List.find unviewed _). }
  split.
  { intros j f Hij Hj Hf Hbetween.
    by rewrite Hsel, (nextUnviewedFile_after _ _ _ j f). }
  split.
  { intros j f Hji Hj Hf Hafter Hbefore.
    by rewrite Hsel, (nextUnviewedFile_wrap _ _ _ j f). }
  split; [apply selectablePath_Some|].
  split.
  { intros f Hfind Hnone. rewrite Hsel, nextUnviewedFile_rotation. fold unviewed.
    by rewrite Hfind. }
  split.
  { intros Hall. by rewrite Hsel, nextUnviewedFile_none. }
  intros cb st0 k t Hv. unfold handleToggleViewed. simpl. by rewrite Hv.
Qed.

Lemma handleToggleViewed_next_unviewed_witness :
  let st1 := fst (handleToggleViewed unsortedFiles true initialViewState
                    (js "c->c") blockOfC) in
  let selected := snd (handleToggleViewed unsortedFiles true initialViewState
                         (js "c->c") blockOfC) in
  let unviewed f := negb (isFileViewed (viewedFiles st1) (key f) (diffText f)) in
  selected
  = List.find unviewed (drop 3 unsortedFiles ++ take 2 unsortedFiles) ≫= selectablePath
  /\ (forall j f,
        (2 < j)%nat -> unsortedFiles !! j = Some f -> unviewed f = true ->
        (forall j' f', (2 < j' < j)%nat -> unsortedFiles !! j' = Some f' -> unviewed f' = false) ->
        selected = selectablePath f)
  /\ (forall j f,
        (j < 2)%nat -> unsortedFiles !! j = Some f -> unviewed f = true ->
        (forall j' f', (2 < j')%nat -> unsortedFiles !! j' = Some f' -> unviewed f' = false) ->
        (forall j' f', (j' < j)%nat -> unsortedFiles !! j' = Some f' -> unviewed f' = false) ->
        selected = selectablePath f)
  /\ (forall f p,
        selectablePath f = Some p
        <-> p <> [] /\ p <> devNull
            /\ p = (if nonEmpty (newPath f) && negb (JsString.eqb (newPath f) devNull)
                    then newPath f else oldPath f))
  /\ (forall f,
        List.find unviewed (drop 3 unsortedFiles ++ take 2 unsortedFiles) = Some f ->
        selectablePath f = None -> selected = None)
  /\ ((forall f, f ∈ unsortedFiles -> unviewed f = false) -> selected = None)
  /\ (forall cb st0 k t,
        isFileViewed (viewedFiles st0) k t = true ->
        snd (handleToggleViewed unsortedFiles cb st0 k t) = None).
Proof.
  apply (handleToggleViewed_next_unviewed unsortedFiles initialViewState
           (js "c->c") blockOfC 2); reflexivity.
Defined.

(** C8, as stated, fails on [unsortedDiff]: no file is viewed, the file [b]
    is marked, and the callback receives [a], the file listed after [b] in
    the diff.  In the order of the keys [a->a] comes before [b->b] and the
    unviewed [c->c] after it, so the stated rule selects [c]. *)
Lemma handleToggleViewed_key_order_counterexample :
  List.map key unsortedFiles = [js "b->b"; js "a->a"; js "c->c"]
  /\ snd (handleToggleViewed unsortedFiles true initialViewState (js "b->b") blockOfB)
     = Some (js "a")
  /\ (specCompareKeys (js "a->a") (js "b->b") < 0)%Z
  /\ (specCompareKeys (js "b->b") (js "c->c") < 0)%Z
  /\ (compareTaskIds lexCompare (js "a->a") (js "b->b") < 0)%Z
  /\ (compareTaskIds lexCompare (js "b->b") (js "c->c") < 0)%Z.
Proof. repeat split; vm_compute; reflexivity. Qed.

(** ** Addition and deletion counts *)

Lemma marker_starts_with (sign : JsString.t) (marker l : JsString.t) :
  startsWith (sign ++ marker) l = true -> startsWith sign l = true.
Proof.
  intros [r ->]%startsWith_prefix. rewrite <- app_assoc. apply startsWith_app.
Qed.

Lemma plus_not_minus l :
  startsWith (js "+") l = true -> startsWith (js "-") l = false.
Proof.
  destruct l as [|c l]; [done|].
  cbn [js List.map list_ascii_of_string startsWith].
  change (N_of_ascii "+") with 43. change (N_of_ascii "-") with 45.
  destruct (N.eqb_spec 43 c) as [<-|]; [|done]. done.
Qed.

(** One line of the loop: the counter goes up for a line with the sign,
    unless the line has the shape of a marker. *)
Lemma scanLine_counts s l :
  (scanAdditions (scanLine s l) + (if isNewMarker l then 1 else 0)
   = scanAdditions s + (if startsWith (js "+") l then 1 else 0))%nat
  /\ (scanDeletions (scanLine s l) + (if isOldMarker l then 1 else 0)
      = scanDeletions s + (if startsWith (js "-") l then 1 else 0))%nat.
Proof.
  pose proof (marker_starts_with (js "+") (js "++ ") l) as Hplus.
  pose proof (marker_starts_with (js "-") (js "-- ") l) as Hminus.
  pose proof (plus_not_minus l) as Hexcl.
  change (js "+" ++ js "++ ") with (js "+++ ") in Hplus.
  change (js "-" ++ js "-- ") with (js "--- ") in Hminus.
  unfold scanLine, isNewMarker, isOldMarker.
  destruct (startsWith (js "+") l), (startsWith (js "+++ ") l),
    (startsWith (js "-") l), (startsWith (js "--- ") l);
    try (by specialize (Hplus eq_refl)); try (by specialize (Hminus eq_refl));
    try (by specialize (Hexcl eq_refl)); simpl; lia.
Qed.

Lemma scan_fold_counts ls s :
  (scanAdditions (fold_left scanLine ls s) + countLines isNewMarker ls
   = scanAdditions s + countLines (startsWith (js "+")) ls)%nat
  /\ (scanDeletions (fold_left scanLine ls s) + countLines isOldMarker ls
      = scanDeletions s + countLines (startsWith (js "-")) ls)%nat.
Proof.
  revert s. induction ls as [|l ls IH]; intros s.
  - unfold countLines. simpl. lia.
  - cbn [fold_left]. destruct (IH (scanLine s l)) as [Ha Hd].
    destruct (scanLine_counts s l) as [Ha' Hd'].
    unfold countLines in *. cbn [List.filter].
    destruct (isNewMarker l), (isOldMarker l),
      (startsWith (js "+") l), (startsWith (js "-") l); simpl in *; lia.
Qed.

Lemma parseBlock_diffText index blockText :
  diffText (parseBlock index blockText) = blockText.
Proof. reflexivity. Qed.

Lemma parseBlock_counts index blockText :
  (additions (parseBlock index blockText)
   + countLines isNewMarker (splitLines blockText)
   = countLines (startsWith (js "+")) (splitLines blockText))%nat
  /\ (deletions (parseBlock index blockText)
      + countLines isOldMarker (splitLines blockText)
      = countLines (startsWith (js "-")) (splitLines blockText))%nat.
Proof.
  unfold parseBlock, scanBlock. simpl.
  destruct (scan_fold_counts (splitLines blockText) (mkBlockScan [] [] false 0 0))
    as [Ha Hd].
  simpl in *. lia.
Qed.

Lemma splitUnifiedDiffByFile_records d r :
  r ∈ splitUnifiedDiffByFile d ->
  exists index blockText, r = parseBlock index blockText.
Proof.
  unfold splitUnifiedDiffByFile.
  intros (index & blockText & -> & _)%elem_of_lookup_imap. eauto.
Qed.

(** Leaving out the marker line takes one line out of a count that
    includes markers, when there is a marker. *)
Lemma countLines_withoutMarkerLine (p marker : JsString.t -> bool) ls :
  (forall l, marker l = true -> p l = true) ->
  countLines p ls
  = (countLines p (withoutMarkerLine marker ls)
     + (if existsb marker ls then 1 else 0))%nat.
Proof.
  intros Himp. unfold countLines.
  induction ls as [|l ls IH]; [done|].
  cbn [withoutMarkerLine existsb List.filter].
  destruct (marker l) eqn:Hm.
  - rewrite (Himp l Hm). simpl. lia.
  - cbn [orb List.filter]. destruct (p l); simpl; lia.
Qed.

Lemma existsb_countLines (p : JsString.t -> bool) ls :
  existsb p ls = (0 <? countLines p ls)%nat.
Proof.
  unfold countLines. induction ls as [|l ls IH]; [done|].
  cbn [existsb List.filter]. by destruct (p l).
Qed.

(** C3, as the code has it: in every record of the splitter, [additions]
    is the number of lines of the block that start with [+] less the
    number of lines that start with [+++ ], and [deletions] the number of
    lines that start with [-] less the number that start with [--- ]:
    every line of the shape of a marker is left out, not the marker line
    alone.  So each field falls short of the stated count, which leaves
    out the marker line only, by the number of further lines of that
    shape, and equals it exactly when the block has at most one such
    line. *)
Theorem splitUnifiedDiffByFile_counts
    (d : JsString.t) (r : ParsedDiffFile) (Hin : r ∈ splitUnifiedDiffByFile d) :
  let ls := splitLines (diffText r) in
  (additions r + countLines isNewMarker ls
   = countLines (startsWith (js "+")) ls)%nat
  /\ (deletions r + countLines isOldMarker ls
      = countLines (startsWith (js "-")) ls)%nat
  /\ (additions r + countLines isNewMarker (withoutMarkerLine isNewMarker ls)
      = specAdditions ls)%nat
  /\ (deletions r + countLines isOldMarker (withoutMarkerLine isOldMarker ls)
      = specDeletions ls)%nat
  /\ (additions r = specAdditions ls <-> (countLines isNewMarker ls <= 1)%nat)
  /\ (deletions r = specDeletions ls <-> (countLines isOldMarker ls <= 1)%nat).
Proof.
  intros ls.
  destruct (splitUnifiedDiffByFile_records d r Hin) as (index & blockText & ->).
  unfold ls. rewrite parseBlock_diffText. clear ls.
  destruct (parseBlock_counts index blockText) as [Ha Hd].
  set (ls := splitLines blockText) in *.
  pose proof (countLines_withoutMarkerLine (startsWith (js "+")) isNewMarker ls
                (marker_starts_with (js "+") (js "++ "))) as Hp.
  pose proof (countLines_withoutMarkerLine isNewMarker isNewMarker ls
                (fun _ H => H)) as Hpm.
  pose proof (countLines_withoutMarkerLine (startsWith (js "-")) isOldMarker ls
                (marker_starts_with (js "-") (js "-- "))) as Hm.
  pose proof (countLines_withoutMarkerLine isOldMarker isOldMarker ls
                (fun _ H => H)) as Hmm.
  rewrite existsb_countLines in Hp, Hpm, Hm, Hmm.
  unfold specAdditions, specDeletions.
  destruct (Nat.ltb_spec 0 (countLines isNewMarker ls));
    destruct (Nat.ltb_spec 0 (countLines isOldMarker ls)); lia.
Qed.

Lemma splitUnifiedDiffByFile_counts_witness :
  let ls := splitLines (diffText modifyRecord) in
  (additions modifyRecord + countLines isNewMarker ls
   = countLines (startsWith (js "+")) ls)%nat
  /\ (deletions modifyRecord + countLines isOldMarker ls
      = countLines (startsWith (js "-")) ls)%nat
  /\ (additions modifyRecord
      + countLines isNewMarker (withoutMarkerLine isNewMarker ls)
      = specAdditions ls)%nat
  /\ (deletions modifyRecord
      + countLines isOldMarker (withoutMarkerLine isOldMarker ls)
      = specDeletions ls)%nat
  /\ (additions modifyRecord = specAdditions ls
      <-> (countLines isNewMarker ls <= 1)%nat)
  /\ (deletions modifyRecord = specDeletions ls
      <-> (countLines isOldMarker ls <= 1)%nat).
Proof.
  apply (splitUnifiedDiffByFile_counts modifyDiff modifyRecord).
  apply elem_of_cons. left. reflexivity.
Defined.

(** C3, as stated, fails on [commentDiff]: the block has, besides its two
    marker lines, the removed lines [--- old comment] and [-x] and the
    added lines [+++ new comment] and [+y]; the record counts one addition
    and one deletion where two lines each start with the sign and are not
    the marker line. *)
Lemma splitUnifiedDiffByFile_counts_counterexample :
  List.map (fun r => (additions r, deletions r)) (splitUnifiedDiffByFile commentDiff)
    = [(1, 1)%nat]
  /\ List.map (fun r => (specAdditions (splitLines (diffText r)),
                         specDeletions (splitLines (diffText r))))
       (splitUnifiedDiffByFile commentDiff)
     = [(2, 2)%nat]
  /\ List.map isValid (splitUnifiedDiffByFile commentDiff) = [true].
Proof. repeat split; vm_compute; reflexivity. Qed.

(** ** Binary blocks *)

Lemma scanLine_isBinary s l :
  scanIsBinary (scanLine s l) = isBinaryLine l || scanIsBinary s.
Proof.
  unfold scanLine.
  destruct (isBinaryLine l);
    destruct (startsWith (js "+") l && negb (startsWith (js "+++ ") l));
    destruct (startsWith (js "-") l && negb (startsWith (js "--- ") l));
    reflexivity.
Qed.

Lemma scan_fold_isBinary ls s :
  scanIsBinary (fold_left scanLine ls s)
  = scanIsBinary s || existsb isBinaryLine ls.
Proof.
  revert s. induction ls as [|l ls IH]; intros s.
  - simpl. by rewrite orb_false_r.
  - cbn [fold_left existsb]. rewrite IH, scanLine_isBinary.
    by destruct (isBinaryLine l), (scanIsBinary s).
Qed.

Lemma parseBlock_binary index blockText :
  existsb isBinaryLine (splitLines blockText) = true ->
  isBinary (parseBlock index blockText) = true
  /\ isValid (parseBlock index blockText) = true.
Proof.
  intros Hex. unfold parseBlock, scanBlock. cbn [isBinary isValid].
  rewrite scan_fold_isBinary, Hex. done.
Qed.

Lemma splitLines_nonempty s : splitLines s <> [].
Proof.
  destruct s as [|c s]; [done|]. simpl.
  destruct (c =? LF); [done|]. by destruct (splitLines s).
Qed.

Lemma splitLines_line l : noLineFeed l = true -> splitLines l = [l].
Proof.
  induction l as [|c l IH]; [done|]. simpl.
  intros [Hc Hl]%andb_true_iff. apply negb_true_iff in Hc. rewrite Hc.
  by rewrite IH.
Qed.

Lemma splitLines_app_LF a b :
  splitLines (a ++ LF :: b) = splitLines a ++ splitLines b.
Proof.
  induction a as [|c a IH]; [done|].
  cbn [app splitLines]. rewrite IH.
  destruct (c =? LF); [done|].
  pose proof (splitLines_nonempty a).
  by destruct (splitLines a).
Qed.

Lemma joinLines_cons l g : joinLines (l :: g) = l ++ linesAfter g.
Proof.
  revert l. induction g as [|x g IH]; intros l.
  - simpl. by rewrite app_nil_r.
  - change (joinLines (l :: x :: g)) with (l ++ LF :: joinLines (x :: g)).
    rewrite IH. reflexivity.
Qed.

Lemma joinLines_app_cons g1 l g2 :
  joinLines (g1 ++ l :: g2) = linesBefore g1 ++ l ++ linesAfter g2.
Proof.
  induction g1 as [|x g1 IH]; [apply joinLines_cons|].
  assert (exists y g, g1 ++ l :: g2 = y :: g) as (y & g & Hg).
  { destruct g1; simpl; eauto. }
  cbn [app]. rewrite Hg.
  change (joinLines (x :: y :: g)) with (x ++ LF :: joinLines (y :: g)).
  rewrite <- Hg, IH. unfold linesBefore. simpl.
  by rewrite <- !app_assoc.
Qed.

Lemma linesBefore_ends g :
  linesBefore g = [] \/ exists p, linesBefore g = p ++ [LF].
Proof.
  induction g as [|x g IH] using rev_ind; [by left|]. right.
  unfold linesBefore. rewrite List.map_app, concat_app. simpl.
  rewrite app_nil_r, app_assoc. eauto.
Qed.

Lemma linesAfter_starts g :
  linesAfter g = [] \/ exists q, linesAfter g = LF :: q.
Proof. destruct g as [|x g]; [by left|right]. simpl. eauto. Qed.

Lemma trimStart_app a b :
  headNonBlank b = true -> trimStart (a ++ b) = trimStart a ++ b.
Proof.
  intros Hb. induction a as [|c a IH]; simpl.
  - destruct b as [|c b]; [done|]. simpl in *.
    apply negb_true_iff in Hb. by rewrite Hb.
  - by destruct (isWhiteSpace c).
Qed.

Lemma trimStart_suffix a : exists w, a = w ++ trimStart a.
Proof.
  induction a as [|c a [w IH]]; [by exists []|]. simpl.
  destruct (isWhiteSpace c).
  - exists (c :: w). simpl. by f_equal.
  - by exists [].
Qed.

Lemma trimEnd_prefix a : exists w, a = trimEnd a ++ w.
Proof.
  unfold trimEnd. destruct (trimStart_suffix (rev a)) as [w Hw].
  exists (rev w). rewrite <- rev_app_distr, <- Hw. by rewrite rev_involutive.
Qed.

Lemma headNonBlank_app a b : headNonBlank a = true -> headNonBlank (a ++ b) = true.
Proof. by destruct a. Qed.

Lemma trim_around pre l post :
  headNonBlank l = true -> headNonBlank (rev l) = true ->
  trim (pre ++ l ++ post) = trimStart pre ++ l ++ trimEnd post.
Proof.
  intros Hhead Hlast. unfold trim.
  rewrite trimStart_app by by apply headNonBlank_app.
  unfold trimEnd. rewrite !rev_app_distr, <- app_assoc.
  rewrite trimStart_app by by apply headNonBlank_app.
  rewrite !rev_app_distr, !rev_involutive. by rewrite <- app_assoc.
Qed.

Lemma isBinaryLine_shape l :
  isBinaryLine l = true ->
  headNonBlank l = true /\ headNonBlank (rev l) = true
  /\ startsWith (js "Binary files ") l = true.
Proof.
  unfold isBinaryLine, endsWith. intros [Hs He]%andb_true_iff.
  repeat split; [| |done].
  - apply startsWith_prefix in Hs as [r ->]. reflexivity.
  - apply startsWith_prefix in He as [r ->]. reflexivity.
Qed.

Lemma includes_app p a s : startsWith p s = true -> includes p (a ++ s) = true.
Proof.
  intros Hp. induction a as [|c a IH]; simpl.
  - destruct s; simpl; by rewrite Hp.
  - rewrite IH. apply orb_true_r.
Qed.

Lemma startsWith_app_r p s r : startsWith p s = true -> startsWith p (s ++ r) = true.
Proof.
  intros [q ->]%startsWith_prefix. rewrite <- app_assoc. apply startsWith_app.
Qed.

Lemma suffix_ends_LF (a w s : JsString.t) :
  a = w ++ s -> (a = [] \/ exists p, a = p ++ [LF]) ->
  s = [] \/ exists p, s = p ++ [LF].
Proof.
  intros Ha Hend. destruct s as [|x s _] using rev_ind; [by left|right].
  rewrite app_assoc in Ha. destruct Hend as [->|[p ->]].
  - symmetry in Ha. by apply app_eq_nil in Ha as [_ ?].
  - apply app_inj_tail in Ha as [_ <-]. eauto.
Qed.

Lemma prefix_starts_LF (a s w : JsString.t) :
  a = s ++ w -> (a = [] \/ exists q, a = LF :: q) ->
  s = [] \/ exists q, s = LF :: q.
Proof.
  intros Ha Hstart. destruct s as [|x s]; [by left|right].
  destruct Hstart as [->|[q ->]]; [done|].
  injection Ha as <- _. eauto.
Qed.

Lemma startsWith_cons c p s :
  startsWith p s = true -> startsWith (c :: p) (c :: s) = true.
Proof. intros Hp. cbn [startsWith]. by rewrite N.eqb_refl, Hp. Qed.

(** A collected block that holds a binary-files line is kept, and the line
    is still one of its lines after trimming. *)
Lemma binary_block_kept (current : list JsString.t) (l : JsString.t) :
  l ∈ current -> noLineFeed l = true -> isBinaryLine l = true ->
  isDiffBlock (trim (joinLines current)) = true
  /\ l ∈ splitLines (trim (joinLines current)).
Proof.
  intros (g1 & g2 & ->)%list_elem_of_split Hnl Hbin.
  destruct (isBinaryLine_shape l Hbin) as (Hhead & Hlast & Hstart).
  rewrite joinLines_app_cons, trim_around by done.
  destruct (trimStart_suffix (linesBefore g1)) as [w Hw].
  destruct (trimEnd_prefix (linesAfter g2)) as [w' Hw'].
  pose proof (suffix_ends_LF _ _ _ Hw (linesBefore_ends g1)) as Hpre.
  pose proof (prefix_starts_LF _ _ _ Hw' (linesAfter_starts g2)) as Hpost.
  split.
  - unfold isDiffBlock. apply andb_true_iff. split.
    + destruct l; [done|]. rewrite !length_app. simpl.
      apply negb_true_iff, Nat.eqb_neq. lia.
    + destruct Hpre as [->|[p ->]].
      * simpl app. rewrite (startsWith_app_r _ l _ Hstart).
        by rewrite !orb_true_r.
      * assert (includes (LF :: js "Binary files ")
                  ((p ++ [LF]) ++ l ++ trimEnd (linesAfter g2)) = true) as ->.
        { rewrite <- app_assoc. apply includes_app.
          change ([LF] ++ l ++ trimEnd (linesAfter g2))
            with (LF :: (l ++ trimEnd (linesAfter g2))).
          apply (startsWith_cons LF (js "Binary files ")).
          by apply startsWith_app_r. }
        by rewrite !orb_true_r.
  - assert (l ∈ splitLines (l ++ trimEnd (linesAfter g2))) as Hl.
    { destruct Hpost as [->|[q ->]].
      - rewrite app_nil_r, splitLines_line by done. by apply list_elem_of_singleton.
      - rewrite splitLines_app_LF, splitLines_line by done.
        apply elem_of_app. left. by apply list_elem_of_singleton. }
    destruct Hpre as [->|[p ->]]; [done|].
    rewrite <- app_assoc. change ([LF] ++ ?x) with (LF :: x).
    rewrite splitLines_app_LF. apply elem_of_app. by right.
Qed.

Lemma splitLines_noLineFeed s l : l ∈ splitLines s -> noLineFeed l = true.
Proof.
  revert l. induction s as [|c s IH]; intros l; simpl.
  - by intros ->%list_elem_of_singleton.
  - destruct (N.eqb_spec c LF) as [->|Hc].
    + intros [->|Hl]%elem_of_cons; [done|by apply IH].
    + pose proof (splitLines_nonempty s).
      destruct (splitLines s) as [|h t]; [done|].
      intros [->|Hl]%elem_of_cons.
      * simpl. apply andb_true_iff. split.
        -- by apply negb_true_iff, N.eqb_neq.
        -- apply IH. by left.
      * apply IH. by right.
Qed.

(** The collector never loses a binary-files line: it is in the block being
    collected or in a block already pushed. *)
Section CollectorInvariant.

Variable l : JsString.t.
Hypothesis Hline : noLineFeed l = true.
Hypothesis Hbin : isBinaryLine l = true.

Lemma pushCurrent_holds st :
  lineHeld l st -> linePushed l (fst (pushCurrent st)).
Proof.
  destruct st as [blocks current]. unfold lineHeld, linePushed.
  intros [Hcur|(b & Hb & Hl)]; simpl in *.
  - destruct (binary_block_kept current l Hcur Hline Hbin) as [-> Hl].
    exists (trim (joinLines current)). split; [|done].
    apply elem_of_app. right. by apply list_elem_of_singleton.
  - exists b. split; [|done].
    destruct (isDiffBlock _); [|done]. apply elem_of_app. by left.
Qed.

Lemma collectLine_holds st line :
  lineHeld l st \/ l = line -> lineHeld l (collectLine st line).
Proof.
  unfold collectLine. intros [Hst|Heq].
  - destruct (isFileHeader line && _).
    + right. by apply pushCurrent_holds.
    + destruct Hst as [Hcur|Hp]; [left|by right].
      simpl. apply elem_of_app. by left.
  - left. simpl. apply elem_of_app. right.
    apply list_elem_of_singleton. exact Heq.
Qed.

Lemma collect_fold_holds lines st :
  lineHeld l st \/ l ∈ lines -> lineHeld l (fold_left collectLine lines st).
Proof.
  revert st. induction lines as [|x lines IH]; intros st; simpl.
  - intros [Hst|Hin]; [done|by apply elem_of_nil in Hin].
  - intros [Hst|[Heq|Hin]%elem_of_cons]; apply IH.
    + left. apply collectLine_holds. by left.
    + left. apply collectLine_holds. by right.
    + by right.
Qed.

Lemma collectBlocks_holds lines :
  l ∈ lines -> exists b, b ∈ collectBlocks lines /\ l ∈ splitLines b.
Proof.
  intros Hin. apply pushCurrent_holds, collect_fold_holds. by right.
Qed.

End CollectorInvariant.

(** C5: every line of the input that starts with [Binary files ] and ends
    with [ differ], such as [Binary files a/x and b/x differ], is a line
    of the block of some record of the splitter, and that record has
    [isBinary] and [isValid] true; every record whose block has such a line
    has both flags true.  No hunk header is asked for. *)
Theorem binary_block_is_valid
    (d l : JsString.t)
    (Hin : l ∈ splitLines (normalizeCrLf d))
    (Hbin : isBinaryLine l = true) :
  (exists r, r ∈ splitUnifiedDiffByFile d
             /\ l ∈ splitLines (diffText r)
             /\ isBinary r = true /\ isValid r = true)
  /\ (forall d' r,
        r ∈ splitUnifiedDiffByFile d' ->
        existsb isBinaryLine (splitLines (diffText r)) = true ->
        isBinary r = true /\ isValid r = true)
  /\ isBinaryLine binaryLine = true.
Proof.
  assert (forall d' r,
             r ∈ splitUnifiedDiffByFile d' ->
             existsb isBinaryLine (splitLines (diffText r)) = true ->
             isBinary r = true /\ isValid r = true) as Hrecords.
  { intros d' r Hr Hex.
    destruct (splitUnifiedDiffByFile_records d' r Hr) as (i & b & ->).
    by apply parseBlock_binary. }
  split; [|by split].
  pose proof (splitLines_noLineFeed _ _ Hin) as Hline.
  destruct (collectBlocks_holds l Hline Hbin _ Hin) as (b & Hb & Hl).
  apply list_elem_of_lookup in Hb as [i Hi].
  exists (parseBlock i b).
  assert (parseBlock i b ∈ splitUnifiedDiffByFile d) as Hr.
  { unfold splitUnifiedDiffByFile. apply elem_of_lookup_imap. eauto. }
  split; [done|]. split; [done|].
  apply (Hrecords d); [done|].
  rewrite parseBlock_diffText. apply existsb_exists.
  exists l. split; [by apply list_elem_of_In|done].
Qed.

Lemma binary_block_is_valid_witness :
  (exists r, r ∈ splitUnifiedDiffByFile binaryDiff
             /\ binaryLine ∈ splitLines (diffText r)
             /\ isBinary r = true /\ isValid r = true)
  /\ (forall d' r,
        r ∈ splitUnifiedDiffByFile d' ->
        existsb isBinaryLine (splitLines (diffText r)) = true ->
        isBinary r = true /\ isValid r = true)
  /\ isBinaryLine binaryLine = true.
Proof.
  apply (binary_block_is_valid binaryDiff binaryLine).
  - apply elem_of_cons. right. apply elem_of_cons. left. reflexivity.
  - reflexivity.
Defined.

(** * Further properties of the viewed-files callbacks *)

(** ** Toggling *)

(** X1: a toggle flips the effective viewed status of the file under the
    text it is toggled with, and changes neither the status of any other
    key nor the collapsed map. *)
Theorem handleToggleViewed_flips
    (all : list ParsedDiffFile) (cb : bool) (st : ViewState)
    (fKey dText : JsString.t) :
  let st' := fst (handleToggleViewed all cb st fKey dText) in
  isFileViewed (viewedFiles st') fKey dText
    = negb (isFileViewed (viewedFiles st) fKey dText)
  /\ (forall k t, k <> fKey ->
        isFileViewed (viewedFiles st') k t = isFileViewed (viewedFiles st) k t)
  /\ collapsedByFileKey st' = collapsedByFileKey st.
Proof.
  intros st'. repeat split.
  - unfold st'. rewrite toggle_viewedFiles.
    unfold isFileViewed at 1. rewrite lookup_insert_eq. simpl.
    destruct (isFileViewed (viewedFiles st) fKey dText); simpl; [done|].
    by apply eqb_eq.
  - intros k t Hne. apply isFileViewed_lookup.
    unfold st'. rewrite toggle_viewedFiles. by apply lookup_insert_ne.
Qed.

(** ** Undo, many times *)

Lemma undo_toggle_exact all cb all' cb' st fKey dText :
  (length (viewedUndoStack st) < 50)%nat ->
  fst (fst (undoLastViewed all' cb'
              (fst (handleToggleViewed all cb st fKey dText)))) = st.
Proof.
  intros Hlen. unfold undoLastViewed. rewrite toggle_undoStack.
  rewrite pushUndo_small, pop_snoc by done. simpl.
  destruct st as [vf stack collapsed]. simpl. f_equal.
  destruct (vf !! fKey) as [prev|] eqn:Hprev; simpl.
  - rewrite insert_insert_eq. by apply insert_id.
  - by apply delete_insert_id.
Qed.

Lemma toggleAll_snoc all cb ops op st :
  toggleAll all cb (ops ++ [op]) st
  = fst (handleToggleViewed all cb (toggleAll all cb ops st) (fst op) (snd op)).
Proof. unfold toggleAll. by rewrite fold_left_app. Qed.

Lemma toggleAll_stack_length all cb ops st :
  (length (viewedUndoStack st) + length ops <= 50)%nat ->
  length (viewedUndoStack (toggleAll all cb ops st))
  = (length (viewedUndoStack st) + length ops)%nat.
Proof.
  induction ops as [|op ops IH] using rev_ind; intros Hlen.
  - simpl. lia.
  - rewrite length_app in *. simpl in *.
    rewrite toggleAll_snoc, toggle_undoStack, pushUndo_small.
    + rewrite length_app, IH by lia. simpl. lia.
    + rewrite IH by lia. lia.
Qed.

(** X2: as long as the undo stack has room, as many undos as there were
    toggles bring the whole state back: the viewed map, the undo stack and
    the collapsed map. *)
Theorem undoTimes_toggleAll
    (all : list ParsedDiffFile) (cb : bool)
    (ops : list (JsString.t * JsString.t)) (st : ViewState)
    (Hroom : (length (viewedUndoStack st) + length ops <= 50)%nat) :
  undoTimes all cb (length ops) (toggleAll all cb ops st) = st.
Proof.
  induction ops as [|op ops IH] using rev_ind; [done|].
  rewrite length_app in *. simpl in *.
  replace (length ops + 1)%nat with (S (length ops)) by lia.
  cbn [undoTimes]. rewrite toggleAll_snoc, undo_toggle_exact.
  - apply IH. lia.
  - rewrite toggleAll_stack_length by lia. lia.
Qed.

Lemma undoTimes_toggleAll_witness :
  undoTimes [] false 2
    (toggleAll [] false [(sampleKey, js "x"); (js "b->b", js "y")] initialViewState)
  = initialViewState.
Proof.
  apply (undoTimes_toggleAll [] false
           [(sampleKey, js "x"); (js "b->b", js "y")] initialViewState).
  simpl. lia.
Defined.

(** ** The invalidation effect *)

Lemma filter_none {A : Type} (p : A -> bool) (l : list A) :
  (forall x, x ∈ l -> p x = false) -> List.filter p l = [].
Proof.
  induction l as [|x l IH]; intros Hall; [done|]. simpl.
  rewrite (Hall x) by by left. apply IH. intros y Hy. apply Hall. by right.
Qed.

Lemma invalidateStale_viewedFiles files st k :
  viewedFiles (invalidateStale files st) !! k
  = if decide (k ∈ List.map key (List.filter (isStale (viewedFiles st)) files))
    then Some (mkViewedFileState false [])
    else viewedFiles st !! k.
Proof.
  unfold invalidateStale.
  destruct (length files =? 0)%nat eqn:Hlen.
  - apply Nat.eqb_eq in Hlen. destruct files; [|done].
    cbn [List.filter List.map].
    destruct (decide _) as [Hin|]; [by apply elem_of_nil in Hin|done].
  - destruct (List.map key _) as [|k0 ks] eqn:Hks.
    + cbn [length Nat.ltb Nat.leb].
      destruct (decide _) as [Hin|]; [by apply elem_of_nil in Hin|done].
    + cbn [length Nat.ltb Nat.leb viewedFiles].
      by rewrite fold_insert_const_lookup.
Qed.

Lemma invalidateStale_not_stale files st f :
  f ∈ files -> isStale (viewedFiles (invalidateStale files st)) f = false.
Proof.
  intros Hin. unfold isStale at 1. rewrite invalidateStale_viewedFiles.
  case_decide as Hk; [done|].
  destruct (isStale (viewedFiles st) f) eqn:Hstale.
  - exfalso. apply Hk. apply list_elem_of_In, in_map, filter_In.
    split; [by apply list_elem_of_In|done].
  - exact Hstale.
Qed.

(** X3: after the invalidation effect no displayed file is left with a
    viewed state whose hash differs from the hash of its diff text, and
    running the effect again changes nothing. *)
Theorem invalidateStale_settles (files : list ParsedDiffFile) (st : ViewState) :
  (forall f, f ∈ files ->
     isStale (viewedFiles (invalidateStale files st)) f = false)
  /\ invalidateStale files (invalidateStale files st) = invalidateStale files st.
Proof.
  split; [intros f; apply invalidateStale_not_stale|].
  set (st' := invalidateStale files st).
  unfold invalidateStale at 1.
  destruct (length files =? 0)%nat; [done|].
  assert (List.filter (isStale (viewedFiles st')) files = []) as ->; [|done].
  apply filter_none. intros f Hf. by apply invalidateStale_not_stale.
Qed.

Lemma isFileViewed_not_stale (vf : gmap JsString.t ViewedFileState) f :
  isFileViewed vf (key f) (diffText f) = true -> isStale vf f = false.
Proof.
  intros (s & Hs & Hv & Hh)%isFileViewed_true_iff.
  unfold isStale. rewrite Hs, Hv, Hh. simpl.
  by rewrite (proj2 (eqb_eq _ _) eq_refl).
Qed.

(** X4: the invalidation effect only resets: it never makes a key viewed,
    it keeps a displayed file viewed when every displayed record sharing
    its key has the same content hash, it leaves the keys of files that are
    not displayed alone, and it touches neither the undo stack nor the
    collapsed map. *)
Theorem invalidateStale_only_resets (files : list ParsedDiffFile) (st : ViewState) :
  let st' := invalidateStale files st in
  (forall k t, isFileViewed (viewedFiles st') k t = true ->
               isFileViewed (viewedFiles st) k t = true)
  /\ (forall f, f ∈ files ->
        (forall g, g ∈ files -> key g = key f ->
                   hashString (diffText g) = hashString (diffText f)) ->
        isFileViewed (viewedFiles st') (key f) (diffText f)
        = isFileViewed (viewedFiles st) (key f) (diffText f))
  /\ (forall k, (forall f, f ∈ files -> key f <> k) ->
        viewedFiles st' !! k = viewedFiles st !! k)
  /\ viewedUndoStack st' = viewedUndoStack st
  /\ collapsedByFileKey st' = collapsedByFileKey st.
Proof.
  intros st'. split; [|split; [|split; [|split]]].
  - intros k t Hv. destruct (invalidateStale_lookup files st k) as [He|He].
    + by rewrite <- (isFileViewed_lookup _ _ _ _ He).
    + by rewrite (isFileViewed_unviewed _ _ _ _ He eq_refl) in Hv.
  - intros f Hf Hsame.
    destruct (isFileViewed (viewedFiles st) (key f) (diffText f)) eqn:Hv.
    + rewrite (isFileViewed_lookup (viewedFiles st)); [done|].
      unfold st'. rewrite invalidateStale_viewedFiles.
      case_decide as Hk; [|done]. exfalso.
      apply list_elem_of_In, in_map_iff in Hk as (g & Hkg & Hg).
      apply filter_In in Hg as [Hg Hstale].
      apply list_elem_of_In in Hg. specialize (Hsame g Hg Hkg).
      apply isFileViewed_true_iff in Hv as (s & Hs & Hview & Hh).
      unfold isStale in Hstale. rewrite Hkg, Hs, Hview, Hh, Hsame in Hstale.
      simpl in Hstale. by rewrite (proj2 (eqb_eq _ _) eq_refl) in Hstale.
    + destruct (isFileViewed (viewedFiles st') _ _) eqn:Hv'; [|done].
      destruct (invalidateStale_lookup files st (key f)) as [He|He].
      * by rewrite (isFileViewed_lookup _ _ _ _ He), Hv in Hv'.
      * by rewrite (isFileViewed_unviewed _ _ _ _ He eq_refl) in Hv'.
  - intros k Hk. unfold st'. rewrite invalidateStale_viewedFiles.
    case_decide as Hin; [|done]. exfalso.
    apply list_elem_of_In, in_map_iff in Hin as (g & Hkg & Hg).
    apply filter_In in Hg as [Hg _]. apply list_elem_of_In in Hg.
    by apply (Hk g).
  - apply invalidateStale_undoStack.
  - unfold st', invalidateStale.
    destruct (length files =? 0)%nat; [done|]. by destruct (0 <? _)%nat.
Qed.

(** ** Mark all, unmark all *)

Lemma forallb_elem_of {A : Type} (p : A -> bool) (l : list A) :
  forallb p l = true <-> forall x, x ∈ l -> p x = true.
Proof.
  rewrite forallb_forall. split; intros H x Hx; apply H; by apply list_elem_of_In.
Qed.

Lemma fold_insert_const_files {V : Type} (v : V) (files : list ParsedDiffFile)
    (m : gmap JsString.t V) f :
  f ∈ files ->
  fold_left (fun m file => <[key file := v]> m) files m !! key f = Some v.
Proof.
  intros Hin. rewrite (fold_insert_lookup (fun _ => v)).
  assert (is_Some (List.find (fun g => JsString.eqb (key g) (key f)) (rev files)))
    as [g ->]; [|done].
  apply find_key_is_Some. by exists f.
Qed.

Lemma assign_lookup_ne own k k' v :
  k <> k' -> assign own k' v !! k = own !! k.
Proof.
  intros Hne. unfold assign.
  destruct (own !! k'); [by apply lookup_insert_ne|].
  destruct (JsString.eqb k' PROTO); [done|by apply lookup_insert_ne].
Qed.

Lemma assign_lookup_ordinary own k v :
  k <> PROTO -> assign own k v !! k = Some v.
Proof.
  intros Hne%eqb_neq. unfold assign. rewrite Hne.
  destruct (own !! k); apply lookup_insert_eq.
Qed.

Lemma assign_lookup_proto own k v :
  own !! PROTO = None -> assign own k v !! PROTO = None.
Proof.
  intros Hnone. destruct (decide (PROTO = k)) as [<-|Hne].
  - unfold assign. rewrite Hnone.
    by rewrite (proj2 (eqb_eq PROTO PROTO) eq_refl).
  - by rewrite assign_lookup_ne.
Qed.

Lemma assign_keeps own k k' v :
  own !! k = Some v -> assign own k' v !! k = Some v.
Proof.
  intros Hk. destruct (decide (k = k')) as [<-|Hne].
  - unfold assign. rewrite Hk. apply lookup_insert_eq.
  - by rewrite assign_lookup_ne.
Qed.

Section AssignAll.

Variable v : bool.

Lemma assignAll_keeps files own k :
  own !! k = Some v ->
  fold_left (fun m file => assign m (key file) v) files own !! k = Some v.
Proof.
  revert own. induction files as [|g files IH]; intros own Hk; [done|].
  cbn [fold_left]. apply IH. by apply assign_keeps.
Qed.

Lemma assignAll_sets files own f :
  f ∈ files -> key f <> PROTO ->
  fold_left (fun m file => assign m (key file) v) files own !! key f = Some v.
Proof.
  intros Hin Hne. revert own.
  induction files as [|g files IH]; intros own; [by apply elem_of_nil in Hin|].
  cbn [fold_left]. apply elem_of_cons in Hin as [->|Hin]; [|by apply IH].
  apply assignAll_keeps. by apply assign_lookup_ordinary.
Qed.

Lemma assignAll_proto files own :
  own !! PROTO = None ->
  fold_left (fun m file => assign m (key file) v) files own !! PROTO = None.
Proof.
  revert own. induction files as [|g files IH]; intros own Hnone; [done|].
  cbn [fold_left]. apply IH. by apply assign_lookup_proto.
Qed.

Lemma assignAll_other files own k :
  (forall f, f ∈ files -> key f <> k) ->
  fold_left (fun m file => assign m (key file) v) files own !! k = own !! k.
Proof.
  revert own. induction files as [|g files IH]; intros own Hk; [done|].
  cbn [fold_left]. rewrite IH.
  - apply assign_lookup_ne. intros ->. by apply (Hk g); [left|].
  - intros f Hf. apply Hk. by right.
Qed.

End AssignAll.

Lemma forallb_pointwise {A : Type} (p q : A -> bool) (l : list A) :
  (forall x, x ∈ l -> p x = q x) -> forallb p l = forallb q l.
Proof.
  induction l as [|x l IH]; intros Hpq; [done|]. cbn [forallb].
  rewrite (Hpq x) by by left. f_equal. apply IH. intros y Hy. apply Hpq. by right.
Qed.

Lemma ordinaryKey_spec f : ordinaryKey f = true <-> key f <> PROTO.
Proof. unfold ordinaryKey. rewrite negb_true_iff. apply eqb_neq. Qed.

(** Where no key is [__proto__], assigning to the plain object is
    inserting into the map of its own properties. *)
Lemma assignAll_insert (v : bool) files own :
  forallb ordinaryKey files = true ->
  fold_left (fun m file => assign m (key file) v) files own
  = fold_left (fun m file => <[key file := v]> m) files own.
Proof.
  revert own. induction files as [|f files IH]; intros own Hord; [done|].
  cbn [forallb] in Hord. apply andb_true_iff in Hord as [Hf Hord].
  cbn [fold_left]. rewrite IH by done. f_equal.
  apply ordinaryKey_spec, eqb_neq in Hf. unfold assign. rewrite Hf.
  by destruct (own !! key f).
Qed.

(** X5: for a list none of whose keys is [__proto__], the key under which
    an assignment to the plain collapsed object is ignored: the collapsed
    map after mark-all-unviewed is the object its assignments build; no
    key is viewed under any text, so the viewed count of any list is zero;
    every file of the list is expanded; the undo stack is kept. *)
Theorem markAllUnviewed_clears (files : list ParsedDiffFile) (st : ViewState)
    (Hkeys : forallb ordinaryKey files = true) :
  let st' := markAllUnviewed files st in
  collapsedByFileKey st'
    = fold_left (fun m file => assign m (key file) false) files ∅
  /\ (forall k t, isFileViewed (viewedFiles st') k t = false)
  /\ (forall files', getViewedCount files' (viewedFiles st') = 0%nat)
  /\ (forall f, f ∈ files -> collapsedByFileKey st' !! key f = Some false)
  /\ isAllExpanded files (collapsedByFileKey st') = true
  /\ viewedUndoStack st' = viewedUndoStack st.
Proof.
  intros st'. split; [by rewrite assignAll_insert|].
  split; [done|]. split.
  { intros files'. unfold getViewedCount.
    by rewrite filter_none. }
  assert (forall f, f ∈ files -> collapsedByFileKey st' !! key f = Some false)
    as Hexp.
  { intros f Hf. by apply fold_insert_const_files. }
  split; [done|]. split; [|done].
  unfold isAllExpanded. destruct (length files =? 0)%nat; [done|].
  apply forallb_elem_of. intros f Hf.
  unfold isCollapsed, readTruthy. by rewrite (Hexp f Hf).
Qed.

Lemma markAllUnviewed_clears_witness :
  let st' := markAllUnviewed twoFiles (markAllViewed twoFiles initialViewState) in
  collapsedByFileKey st'
    = fold_left (fun m file => assign m (key file) false) twoFiles ∅
  /\ (forall k t, isFileViewed (viewedFiles st') k t = false)
  /\ (forall files', getViewedCount files' (viewedFiles st') = 0%nat)
  /\ (forall f, f ∈ twoFiles -> collapsedByFileKey st' !! key f = Some false)
  /\ isAllExpanded twoFiles (collapsedByFileKey st') = true
  /\ viewedUndoStack st' = viewedUndoStack (markAllViewed twoFiles initialViewState).
Proof.
  apply (markAllUnviewed_clears twoFiles (markAllViewed twoFiles initialViewState)).
  reflexivity.
Defined.

Lemma filter_all {A : Type} (p : A -> bool) (l : list A) :
  (forall x, x ∈ l -> p x = true) -> List.filter p l = l.
Proof.
  induction l as [|x l IH]; intros Hall; [done|]. simpl.
  rewrite (Hall x) by by left. f_equal. apply IH. intros y Hy. apply Hall. by right.
Qed.

Lemma markAllViewed_viewed_NoDup files st f :
  f ∈ files -> NoDup (List.map key files) ->
  isFileViewed (viewedFiles (markAllViewed files st)) (key f) (diffText f) = true.
Proof.
  intros Hin Hnd. apply isFileViewed_true_iff.
  eexists. rewrite markAllViewed_lookup, (lastWithKey_NoDup _ _ Hnd Hin).
  split; [reflexivity|]. done.
Qed.

(** X6: when the keys of the list are pairwise distinct and none of them
    is [__proto__], the collapsed map after mark-all-viewed is the object
    its assignments build, the viewed count is the number of files, and
    the list reads as all collapsed. *)
Theorem markAllViewed_count
    (files : list ParsedDiffFile) (st : ViewState)
    (Hkeys : NoDup (List.map key files))
    (Hordinary : forallb ordinaryKey files = true) :
  let st' := markAllViewed files st in
  collapsedByFileKey st'
    = fold_left (fun m file => assign m (key file) true) files ∅
  /\ getViewedCount files (viewedFiles st') = length files
  /\ isAllCollapsed files (collapsedByFileKey st') = true.
Proof.
  intros st'. split; [by rewrite assignAll_insert|]. split.
  - unfold getViewedCount. rewrite filter_all; [done|].
    intros f Hf.
    by apply markAllViewed_viewed_NoDup.
  - unfold isAllCollapsed. destruct (length files =? 0)%nat; [done|].
    apply forallb_elem_of. intros f Hf. apply bool_decide_eq_true.
    by apply markAllViewed_collapsed.
Qed.

Lemma markAllViewed_count_witness :
  let st' := markAllViewed twoFiles initialViewState in
  collapsedByFileKey st'
    = fold_left (fun m file => assign m (key file) true) twoFiles ∅
  /\ getViewedCount twoFiles (viewedFiles st') = length twoFiles
  /\ isAllCollapsed twoFiles (collapsedByFileKey st') = true.
Proof.
  apply (markAllViewed_count twoFiles initialViewState).
  - apply (bool_decide_unpack _). vm_compute. exact I.
  - reflexivity.
Defined.

(** ** What the navigation callback receives *)

Lemma selectablePath_real f p :
  selectablePath f = Some p ->
  p <> [] /\ p <> devNull /\ (p = newPath f \/ p = oldPath f).
Proof.
  assert (forall fp,
            (if nonEmpty fp && negb (JsString.eqb fp devNull)
             then Some fp else None) = Some p ->
            p = fp /\ p <> [] /\ p <> devNull) as Haux.
  { intros fp. destruct (nonEmpty fp) eqn:Hne; [|done].
    destruct (JsString.eqb fp devNull) eqn:Hdev; [done|].
    intros [= <-]. apply eqb_neq in Hdev.
    split; [done|]. split; [|done]. intros He. by rewrite He in Hne. }
  unfold selectablePath.
  destruct (nonEmpty (newPath f) && negb (JsString.eqb (newPath f) devNull));
    intros (-> & Hne & Hdev)%Haux; eauto.
Qed.

Lemma find_elem_of {A : Type} (p : A -> bool) (l : list A) (x : A) :
  List.find p l = Some x -> x ∈ l /\ p x = true.
Proof. intros [Hin Hp]%find_some. split; [by apply list_elem_of_In|done]. Qed.

Lemma nextUnviewedFile_found vf all i f :
  nextUnviewedFile vf all i = Some f ->
  f ∈ all /\ isFileViewed vf (key f) (diffText f) = false.
Proof.
  unfold nextUnviewedFile.
  destruct (List.find _ (drop (S i) all)) as [g|] eqn:Hafter.
  - intros [= ->]. apply find_elem_of in Hafter as [Hin Hp].
    split; [|by apply negb_true_iff].
    apply list_elem_of_lookup in Hin as [j Hj]. rewrite lookup_drop in Hj.
    apply list_elem_of_lookup. eauto.
  - intros [Hin Hp]%find_elem_of. split; [|by apply negb_true_iff].
    apply list_elem_of_lookup in Hin as [j Hj].
    apply lookup_take_Some in Hj as [Hj _].
    apply list_elem_of_lookup. eauto.
Qed.

(** X7: when a toggle calls the navigation callback, the file was unviewed
    before the toggle, and the argument is a non-empty path other than
    [/dev/null], the new or the old path of a file of the list that is
    unviewed after the toggle.  The argument of the call made by undo is
    such a path of a file carrying the key of the undone entry. *)
Theorem onSelectNextFile_argument
    (all : list ParsedDiffFile) (cb : bool) (st : ViewState)
    (fKey dText p : JsString.t)
    (Hcall : snd (handleToggleViewed all cb st fKey dText) = Some p) :
  let st' := fst (handleToggleViewed all cb st fKey dText) in
  p <> [] /\ p <> devNull
  /\ cb = true
  /\ isFileViewed (viewedFiles st) fKey dText = false
  /\ (exists f, f ∈ all /\ (p = newPath f \/ p = oldPath f)
                /\ isFileViewed (viewedFiles st') (key f) (diffText f) = false)
  /\ (forall cb0 st0 q,
        snd (undoLastViewed all cb0 st0) = Some q ->
        q <> [] /\ q <> devNull
        /\ exists f stack e,
             f ∈ all /\ (q = newPath f \/ q = oldPath f)
             /\ pop (viewedUndoStack st0) = Some (stack, e)
             /\ key f = fileKey e).
Proof.
  intros st'.
  assert (forall cb0 st0 q,
        snd (undoLastViewed all cb0 st0) = Some q ->
        q <> [] /\ q <> devNull
        /\ exists f stack e,
             f ∈ all /\ (q = newPath f \/ q = oldPath f)
             /\ pop (viewedUndoStack st0) = Some (stack, e)
             /\ key f = fileKey e) as Hundo.
  { intros cb0 st0 q. unfold undoLastViewed.
    destruct (pop (viewedUndoStack st0)) as [[stack e]|] eqn:Hpop; [|done].
    simpl. destruct (List.find _ all) as [f|] eqn:Hfind; [|done].
    destruct cb0; [|done]. intros (Hne & Hdev & Hpath)%selectablePath_real.
    apply find_elem_of in Hfind as [Hin Hk%eqb_eq].
    split; [done|]. split; [done|]. by exists f, stack, e. }
  unfold handleToggleViewed in Hcall. simpl in Hcall.
  destruct (isFileViewed (viewedFiles st) fKey dText) eqn:Hv; [done|].
  destruct cb; [|done]. simpl in Hcall.
  destruct (findIndex _ all) as [i|]; [|done].
  destruct (nextUnviewedFile _ all i) as [f|] eqn:Hnext; [|done].
  apply selectablePath_real in Hcall as (Hne & Hdev & Hpath).
  apply nextUnviewedFile_found in Hnext as [Hin Hunviewed].
  split; [done|]. split; [done|]. split; [done|]. split; [done|].
  split; [|exact Hundo].
  exists f. split; [done|]. split; [done|].
  unfold st'. rewrite toggle_viewedFiles, Hv. exact Hunviewed.
Qed.

Lemma onSelectNextFile_argument_witness :
  let st' := fst (handleToggleViewed unsortedFiles true initialViewState
                    (js "b->b") blockOfB) in
  js "a" <> [] /\ js "a" <> devNull
  /\ true = true
  /\ isFileViewed (viewedFiles initialViewState) (js "b->b") blockOfB = false
  /\ (exists f, f ∈ unsortedFiles /\ (js "a" = newPath f \/ js "a" = oldPath f)
                /\ isFileViewed (viewedFiles st') (key f) (diffText f) = false)
  /\ (forall cb0 st0 q,
        snd (undoLastViewed unsortedFiles cb0 st0) = Some q ->
        q <> [] /\ q <> devNull
        /\ exists f stack e,
             f ∈ unsortedFiles /\ (q = newPath f \/ q = oldPath f)
             /\ pop (viewedUndoStack st0) = Some (stack, e)
             /\ key f = fileKey e).
Proof.
  apply (onSelectNextFile_argument unsortedFiles true initialViewState
           (js "b->b") blockOfB (js "a")).
  reflexivity.
Defined.

(** ** Collapsing and expanding *)

(** The splitter makes no key under which an assignment is ignored. *)
Lemma splitUnifiedDiffByFile_ordinaryKey d r :
  r ∈ splitUnifiedDiffByFile d -> ordinaryKey r = true.
Proof.
  intros (index & blockText & ->)%splitUnifiedDiffByFile_records.
  apply ordinaryKey_spec. unfold parseBlock. cbn [key].
  destruct (_ || _).
  - intros Heq.
    assert (In 45 PROTO) as Hin.
    { apply list_elem_of_In. rewrite <- Heq. apply elem_of_app. right. by left. }
    vm_compute in Hin. intuition discriminate.
  - done.
Qed.

(** X8: after collapse-all the displayed list reads as all collapsed
    exactly when none of its keys is [__proto__], the key under which the
    assignment to the plain object is ignored; no key the splitter makes
    is that one.  Unless the list is empty it does not read as all
    expanded.  The viewed map and the undo stack are kept. *)
Theorem collapseAll_isAllCollapsed (files : list ParsedDiffFile) (st : ViewState) :
  let st' := collapseAll files st in
  isAllCollapsed files (collapsedByFileKey st') = forallb ordinaryKey files
  /\ (isAllExpanded files (collapsedByFileKey st') = true <-> files = [])
  /\ (forall d, forallb ordinaryKey (splitUnifiedDiffByFile d) = true)
  /\ viewedFiles st' = viewedFiles st
  /\ viewedUndoStack st' = viewedUndoStack st.
Proof.
  intros st'.
  assert (forall f, f ∈ files ->
            collapsedByFileKey st' !! key f
            = if ordinaryKey f then Some true else None) as Hall.
  { intros f Hf. unfold st', collapseAll. cbn [collapsedByFileKey].
    destruct (ordinaryKey f) eqn:Hord.
    - apply assignAll_sets; [done|]. by apply ordinaryKey_spec.
    - unfold ordinaryKey in Hord. apply negb_false_iff, eqb_eq in Hord. rewrite Hord.
      by apply assignAll_proto. }
  split; [|split; [|split; [|done]]].
  - unfold isAllCollapsed. destruct files as [|f0 files']; [done|].
    cbn [length Nat.eqb]. apply forallb_pointwise. intros f Hf.
    rewrite (Hall f Hf). by destruct (ordinaryKey f).
  - split; [|by intros ->].
    destruct files as [|f files]; [done|]. intros Hexp. exfalso.
    unfold isAllExpanded in Hexp. cbn [length Nat.eqb] in Hexp.
    rewrite forallb_elem_of in Hexp.
    specialize (Hexp f (list_elem_of_here _ _)).
    unfold isCollapsed, readTruthy in Hexp.
    rewrite (Hall f) in Hexp by by left.
    destruct (ordinaryKey f) eqn:Hord; [done|].
    unfold ordinaryKey in Hord. apply negb_false_iff, eqb_eq in Hord.
    by rewrite Hord in Hexp.
  - intros d. apply forallb_elem_of. apply splitUnifiedDiffByFile_ordinaryKey.
Qed.

Lemma expandSchedule_seq fuel files b :
  (length files - b * BATCH_SIZE < fuel)%nat ->
  expandSchedule fuel files b
  = seq b ((length files + 4) / 5 - b).
Proof.
  unfold BATCH_SIZE. revert b.
  induction fuel as [|fuel IH]; intros b Hfuel; [lia|].
  cbn [expandSchedule]. unfold BATCH_SIZE.
  destruct (Nat.leb_spec (length files) (b * 5)) as [Hdone|Hmore].
  - replace ((length files + 4) / 5 - b)%nat with 0%nat; [done|].
    pose proof (Nat.div_mod_eq (length files + 4) 5).
    pose proof (Nat.mod_upper_bound (length files + 4) 5). lia.
  - assert (exists k, ((length files + 4) / 5 - b)%nat = S k
                      /\ ((length files + 4) / 5 - S b)%nat = k) as (k & -> & Hk).
    { exists ((length files + 4) / 5 - S b)%nat. split; [|done].
      pose proof (Nat.div_mod_eq (length files + 4) 5).
      pose proof (Nat.mod_upper_bound (length files + 4) 5). lia. }
    cbn [seq]. f_equal.
    destruct (Nat.ltb_spec (S b * 5) (length files)) as [Hnext|Hlast].
    + rewrite IH by lia. by rewrite Hk.
    + replace k with 0%nat; [done|].
      pose proof (Nat.div_mod_eq (length files + 4) 5).
      pose proof (Nat.mod_upper_bound (length files + 4) 5). lia.
Qed.

Lemma expandBatch_keeps files b prev k :
  prev !! k = Some false -> expandBatch files b prev !! k = Some false.
Proof. apply assignAll_keeps. Qed.

Lemma expandBatch_sets files b prev i f :
  files !! i = Some f -> (i / 5)%nat = b -> key f <> PROTO ->
  expandBatch files b prev !! key f = Some false.
Proof.
  intros Hi Hb Hne. unfold expandBatch, BATCH_SIZE.
  apply assignAll_sets; [|done].
  pose proof (lookup_lt_Some _ _ _ Hi) as Hlt.
  pose proof (Nat.div_mod_eq i 5). pose proof (Nat.mod_upper_bound i 5).
  apply list_elem_of_lookup. exists (i - b * 5)%nat.
  rewrite lookup_take_lt by lia. rewrite lookup_drop.
  by replace (b * 5 + (i - b * 5))%nat with i by lia.
Qed.

Lemma expandBatch_other files b prev k :
  (forall f, f ∈ files -> key f <> k) -> expandBatch files b prev !! k = prev !! k.
Proof.
  intros Hk. unfold expandBatch. apply assignAll_other.
  intros f Hf. apply Hk.
  apply list_elem_of_lookup in Hf as [j Hj].
  apply lookup_take_Some in Hj as [Hj _]. rewrite lookup_drop in Hj.
  apply list_elem_of_lookup. eauto.
Qed.

Lemma expandBatches_set files bs prev i f :
  files !! i = Some f -> key f <> PROTO -> In (i / 5)%nat bs ->
  fold_left (fun prev b => expandBatch files b prev) bs prev !! key f = Some false.
Proof.
  intros Hi Hne. revert prev. induction bs as [|b bs IH]; intros prev Hin; [done|].
  cbn [fold_left].
  assert (forall m, m !! key f = Some false ->
            fold_left (fun prev b => expandBatch files b prev) bs m !! key f
            = Some false) as Hkeep.
  { clear. induction bs as [|b bs IH]; intros m Hm; [done|].
    cbn [fold_left]. apply IH. by apply expandBatch_keeps. }
  destruct Hin as [Hb|Hin].
  - apply Hkeep. by apply (expandBatch_sets files b prev i f).
  - by apply IH.
Qed.

Lemma expandBatches_proto files bs prev :
  prev !! PROTO = None ->
  fold_left (fun prev b => expandBatch files b prev) bs prev !! PROTO = None.
Proof.
  revert prev. induction bs as [|b bs IH]; intros prev Hnone; [done|].
  cbn [fold_left]. apply IH. by apply assignAll_proto.
Qed.

(** X9: after expand-all, with its updates applied in order, every
    displayed file whose key is not [__proto__] is expanded, so that the
    list reads as all expanded when it has no such key; when the object
    has no property of its own under [__proto__], a file with that key
    reads as collapsed, and the list reads as all expanded exactly when it
    has no such key.  Beyond ten files the work is done in batches, which
    run in order and stop by themselves: one for every five files, rounded
    up, none changing a key that no displayed file carries. *)
Theorem expandAll_isAllExpanded
    (files : list ParsedDiffFile) (collapsed : gmap JsString.t bool) :
  (forall f, f ∈ files -> key f <> PROTO ->
     isCollapsed (expandAll files collapsed) (key f) = false)
  /\ (forallb ordinaryKey files = true ->
      isAllExpanded files (expandAll files collapsed) = true)
  /\ (collapsed !! PROTO = None ->
      isAllExpanded files (expandAll files collapsed) = forallb ordinaryKey files)
  /\ expandSchedule (S (length files)) files 0
     = seq 0 ((length files + 4) / 5)
  /\ (forall k, (10 < length files)%nat ->
        (forall f, f ∈ files -> key f <> k) ->
        expandAll files collapsed !! k = collapsed !! k).
Proof.
  assert (expandSchedule (S (length files)) files 0
          = seq 0 ((length files + 4) / 5)) as Hsched.
  { rewrite expandSchedule_seq by (unfold BATCH_SIZE; lia).
    by rewrite Nat.sub_0_r. }
  assert (forall f, f ∈ files -> key f <> PROTO ->
            expandAll files collapsed !! key f = Some false) as Hset.
  { intros f Hf Hne. unfold expandAll.
    destruct (length files <=? 10)%nat; [by apply assignAll_sets|].
    apply list_elem_of_lookup in Hf as [i Hi].
    apply (expandBatches_set files _ collapsed i f Hi Hne).
    rewrite Hsched. apply in_seq.
    pose proof (lookup_lt_Some _ _ _ Hi).
    pose proof (Nat.div_mod_eq i 5). pose proof (Nat.mod_upper_bound i 5).
    pose proof (Nat.div_mod_eq (length files + 4) 5).
    pose proof (Nat.mod_upper_bound (length files + 4) 5). lia. }
  assert (forall f, f ∈ files -> key f <> PROTO ->
            isCollapsed (expandAll files collapsed) (key f) = false) as Hexp.
  { intros f Hf Hne. unfold isCollapsed, readTruthy. by rewrite (Hset f Hf Hne). }
  split; [done|]. split; [|split; [|split; [done|]]].
  - intros Hord. unfold isAllExpanded. destruct (length files =? 0)%nat; [done|].
    apply forallb_elem_of. intros f Hf. rewrite Hexp; [done|done|].
    apply ordinaryKey_spec. by apply (proj1 (forallb_elem_of _ _) Hord).
  - intros Hnone. unfold isAllExpanded. destruct files as [|f0 files']; [done|].
    cbn [length Nat.eqb]. apply forallb_pointwise. intros f Hf.
    destruct (ordinaryKey f) eqn:Hord.
    + rewrite Hexp; [done|done|]. by apply ordinaryKey_spec.
    + unfold ordinaryKey in Hord. apply negb_false_iff, eqb_eq in Hord.
      unfold isCollapsed, readTruthy. rewrite Hord.
      assert (expandAll (f0 :: files') collapsed !! PROTO = None) as ->; [|done].
      unfold expandAll. destruct (_ <=? 10)%nat.
      * by apply assignAll_proto.
      * by apply expandBatches_proto.
  - intros k Hlen Hk. unfold expandAll.
    destruct (Nat.leb_spec (length files) 10); [lia|].
    clear Hset Hexp.
    generalize (expandSchedule (S (length files)) files 0). intros bs.
    revert collapsed. induction bs as [|b bs IH]; intros collapsed; [done|].
    cbn [fold_left]. rewrite IH. by apply expandBatch_other.
Qed.

(** X10: the estimated height of a row is 44 for a collapsed file and for
    an index past the list; for an expanded file it is 22 per changed line
    plus 44, kept between 150 and 800, so it grows with the number of
    changed lines and is 800 from 35 lines on. *)
Theorem estimateSize_bounds
    (files : list ParsedDiffFile) (collapsed : gmap JsString.t bool) (index : nat) :
  (44 <= estimateSize files collapsed index <= 800)%Z
  /\ (files !! index = None -> estimateSize files collapsed index = 44%Z)
  /\ (forall f, files !! index = Some f ->
        (isCollapsed collapsed (key f) = true ->
         estimateSize files collapsed index = 44%Z)
        /\ (isCollapsed collapsed (key f) = false ->
            (150 <= estimateSize files collapsed index <= 800)%Z
            /\ ((35 <= additions f + deletions f)%nat ->
                estimateSize files collapsed index = 800%Z)
            /\ ((additions f + deletions f <= 4)%nat ->
                estimateSize files collapsed index = 150%Z)
            /\ forall files' collapsed' index' f',
                 files' !! index' = Some f' ->
                 isCollapsed collapsed' (key f') = false ->
                 (additions f + deletions f <= additions f' + deletions f')%nat ->
                 (estimateSize files collapsed index
                  <= estimateSize files' collapsed' index')%Z)).
Proof.
  unfold estimateSize, COLLAPSED_HEIGHT.
  split; [|split].
  - destruct (files !! index) as [f|]; [|lia].
    destruct (isCollapsed collapsed (key f)); lia.
  - by intros ->.
  - intros f ->. split; [by intros ->|]. intros ->.
    split; [lia|]. split; [lia|]. split; [lia|].
    intros files' collapsed' index' f' -> -> Hle. lia.
Qed.

(** * Further properties of the splitter *)

(** ** Trimming *)

Lemma trimStart_head s : trimStart s = [] \/ headNonBlank (trimStart s) = true.
Proof.
  induction s as [|c s IH]; [by left|]. simpl.
  destruct (isWhiteSpace c) eqn:Hc; [done|]. right. simpl. by rewrite Hc.
Qed.

Lemma trimStart_nonblank s : headNonBlank s = true -> trimStart s = s.
Proof.
  destruct s as [|c s]; [done|]. simpl. intros Hc%negb_true_iff. by rewrite Hc.
Qed.

Lemma trimEnd_last s : trimEnd s = [] \/ headNonBlank (rev (trimEnd s)) = true.
Proof.
  unfold trimEnd. rewrite rev_involutive.
  destruct (trimStart_head (rev s)) as [->|H]; [by left|by right].
Qed.

Lemma trimEnd_app a b :
  headNonBlank (rev a) = true -> trimEnd (a ++ b) = a ++ trimEnd b.
Proof.
  intros Ha. unfold trimEnd. rewrite rev_app_distr, trimStart_app by done.
  by rewrite rev_app_distr, rev_involutive.
Qed.

Lemma trimEnd_nonblank s : headNonBlank (rev s) = true -> trimEnd s = s.
Proof.
  intros Hs. unfold trimEnd. rewrite trimStart_nonblank by done.
  apply rev_involutive.
Qed.

Lemma trimEnd_head s :
  headNonBlank s = true -> headNonBlank (trimEnd s) = true.
Proof.
  destruct s as [|c s]; [done|]. intros Hc.
  change (c :: s) with ([c] ++ s). by rewrite trimEnd_app.
Qed.

Lemma trim_shape s :
  trim s = [] \/ (headNonBlank (trim s) = true /\ headNonBlank (rev (trim s)) = true).
Proof.
  unfold trim. destruct (trimStart_head s) as [->|Hhead]; [by left|].
  destruct (trimEnd_last (trimStart s)) as [->|Hlast]; [by left|].
  right. split; [by apply trimEnd_head|done].
Qed.

Lemma trim_fixed s :
  headNonBlank s = true -> headNonBlank (rev s) = true -> trim s = s.
Proof.
  intros Hh Hl. unfold trim. rewrite trimStart_nonblank by done.
  by apply trimEnd_nonblank.
Qed.

Lemma trim_idempotent s : trim (trim s) = trim s.
Proof.
  destruct (trim_shape s) as [->|[Hh Hl]]; [done|]. by apply trim_fixed.
Qed.

(** ** The blocks the collector pushes *)

Lemma pushCurrent_good st :
  Forall goodBlock (fst st) -> Forall goodBlock (fst (pushCurrent st)).
Proof.
  destruct st as [blocks current]. simpl. intros Hgood.
  destruct (isDiffBlock _) eqn:Hb; [|done].
  apply Forall_app. split; [done|].
  apply Forall_singleton. split; [done|apply trim_idempotent].
Qed.

Lemma collectLine_good st line :
  Forall goodBlock (fst st) -> Forall goodBlock (fst (collectLine st line)).
Proof.
  unfold collectLine. simpl. intros Hgood.
  destruct (isFileHeader line && _); [by apply pushCurrent_good|done].
Qed.

Lemma collectBlocks_good lines : Forall goodBlock (collectBlocks lines).
Proof.
  unfold collectBlocks. apply pushCurrent_good.
  assert (forall st, Forall goodBlock (fst st) ->
            Forall goodBlock (fst (fold_left collectLine lines st))) as Hfold.
  { induction lines as [|l lines IH]; intros st Hst; [done|].
    cbn [fold_left]. apply IH. by apply collectLine_good. }
  apply Hfold. constructor.
Qed.

Lemma splitUnifiedDiffByFile_block d r :
  r ∈ splitUnifiedDiffByFile d ->
  exists index blockText,
    r = parseBlock index blockText /\ goodBlock blockText
    /\ collectBlocks (splitLines (normalizeCrLf d)) !! index = Some blockText.
Proof.
  unfold splitUnifiedDiffByFile.
  intros (index & blockText & -> & Hb)%elem_of_lookup_imap.
  exists index, blockText. split; [done|]. split; [|done].
  pose proof (collectBlocks_good (splitLines (normalizeCrLf d))) as Hall.
  rewrite Forall_forall in Hall. apply Hall.
  apply list_elem_of_lookup. eauto.
Qed.

(** X11: the block text of a record of the splitter is never empty, starts
    and ends with a code unit that is not blank (trimming it again changes
    nothing), and passes the test for a diff marker. *)
Theorem splitUnifiedDiffByFile_block_text
    (d : JsString.t) (r : ParsedDiffFile) (Hin : r ∈ splitUnifiedDiffByFile d) :
  diffText r <> []
  /\ trim (diffText r) = diffText r
  /\ headNonBlank (diffText r) = true
  /\ headNonBlank (rev (diffText r)) = true
  /\ isDiffBlock (diffText r) = true.
Proof.
  destruct (splitUnifiedDiffByFile_block d r Hin)
    as (index & b & -> & [Hblock Htrim] & _).
  rewrite parseBlock_diffText.
  assert (b <> []) as Hne.
  { intros ->. by vm_compute in Hblock. }
  split; [done|]. split; [done|].
  destruct (trim_shape b) as [He|[Hh Hl]].
  - by rewrite Htrim in He.
  - by rewrite Htrim in Hh, Hl.
Qed.

Lemma splitUnifiedDiffByFile_block_text_witness :
  diffText modifyRecord <> []
  /\ trim (diffText modifyRecord) = diffText modifyRecord
  /\ headNonBlank (diffText modifyRecord) = true
  /\ headNonBlank (rev (diffText modifyRecord)) = true
  /\ isDiffBlock (diffText modifyRecord) = true.
Proof.
  apply (splitUnifiedDiffByFile_block_text modifyDiff modifyRecord).
  apply elem_of_cons. left. reflexivity.
Defined.

(** ** Keys and paths *)

Lemma scanLine_paths s l :
  scanOldPath (scanLine s l)
    = (if isOldMarker l then markerPath (js "a/") l else scanOldPath s)
  /\ scanNewPath (scanLine s l)
    = (if isNewMarker l then markerPath (js "b/") l else scanNewPath s).
Proof.
  unfold scanLine, isOldMarker, isNewMarker, markerPath.
  destruct (startsWith (js "+") l && negb (startsWith (js "+++ ") l));
    destruct (startsWith (js "-") l && negb (startsWith (js "--- ") l));
    done.
Qed.

Lemma scanBlock_paths ls :
  scanOldPath (scanBlock ls)
    = default [] (markerPath (js "a/") <$> lastLine isOldMarker ls)
  /\ scanNewPath (scanBlock ls)
    = default [] (markerPath (js "b/") <$> lastLine isNewMarker ls).
Proof.
  unfold scanBlock, lastLine.
  induction ls as [|l ls [IHo IHn]] using rev_ind; [done|].
  rewrite fold_left_app, rev_app_distr. cbn [fold_left app rev List.find].
  destruct (scanLine_paths (fold_left scanLine ls (mkBlockScan [] [] false 0 0)) l)
    as [-> ->].
  rewrite IHo, IHn. by destruct (isOldMarker l), (isNewMarker l).
Qed.

(** X12: the paths of a record come from the last marker lines of its
    block: the old path from the last line starting with [--- ], the new
    path from the last line starting with [+++ ], each cut after the four
    marker code units, trimmed and without the leading [a/] or [b/]; a path
    is empty when there is no such line.  The
    key joins the two paths with [->] unless both are empty, and then is
    [file-] followed by the position of the record. *)
Theorem splitUnifiedDiffByFile_paths
    (d : JsString.t) (index : nat) (r : ParsedDiffFile)
    (Hr : splitUnifiedDiffByFile d !! index = Some r) :
  let ls := splitLines (diffText r) in
  oldPath r = default [] (markerPath (js "a/") <$> lastLine isOldMarker ls)
  /\ newPath r = default [] (markerPath (js "b/") <$> lastLine isNewMarker ls)
  /\ (oldPath r <> [] \/ newPath r <> [] ->
      key r = oldPath r ++ js "->" ++ newPath r)
  /\ (oldPath r = [] -> newPath r = [] -> key r = js "file-" ++ ofNat index).
Proof.
  unfold splitUnifiedDiffByFile in Hr.
  rewrite list_lookup_imap in Hr.
  destruct (collectBlocks _ !! index) as [b|]; [|done].
  injection Hr as <-. rewrite parseBlock_diffText. intros ls.
  destruct (scanBlock_paths ls) as [Ho Hn].
  split; [exact Ho|]. split; [exact Hn|].
  unfold parseBlock. cbn [key oldPath newPath]. fold ls.
  split.
  - intros Hor.
    destruct (scanOldPath (scanBlock ls)) as [|c o]; [|done].
    destruct (scanNewPath (scanBlock ls)) as [|c n]; [|done].
    by destruct Hor.
  - by intros -> ->.
Qed.

Lemma splitUnifiedDiffByFile_paths_witness :
  let ls := splitLines (diffText modifyRecord) in
  oldPath modifyRecord
    = default [] (markerPath (js "a/") <$> lastLine isOldMarker ls)
  /\ newPath modifyRecord
    = default [] (markerPath (js "b/") <$> lastLine isNewMarker ls)
  /\ (oldPath modifyRecord <> [] \/ newPath modifyRecord <> [] ->
      key modifyRecord = oldPath modifyRecord ++ js "->" ++ newPath modifyRecord)
  /\ (oldPath modifyRecord = [] -> newPath modifyRecord = [] ->
      key modifyRecord = js "file-" ++ ofNat 0).
Proof.
  apply (splitUnifiedDiffByFile_paths modifyDiff 0 modifyRecord).
  reflexivity.
Defined.

(** For a record of the splitter the first filter of the displayed list
    looks at the paths only. *)
Lemma isDisplayable_record (d : JsString.t) (r : ParsedDiffFile) :
  r ∈ splitUnifiedDiffByFile d ->
  isDisplayable r = false
  <-> (oldPath r = [] /\ newPath r = [])
      \/ (oldPath r = devNull /\ newPath r = devNull).
Proof.
  intros Hin.
  destruct (splitUnifiedDiffByFile_records d r Hin) as (i & b & ->).
  unfold isDisplayable, parseBlock. cbn [key oldPath newPath].
  set (o := scanOldPath _). set (n := scanNewPath _).
  destruct o as [|co o]; [destruct n as [|cn n]|].
  - cbn [length Nat.eqb negb orb nonEmpty].
    rewrite startsWith_app. simpl. split; [by left|done].
  - cbn [length Nat.eqb negb orb andb nonEmpty]. rewrite andb_false_r.
    change (JsString.eqb [] devNull) with false. simpl.
    split; [done|]. by intros [[_ ?]|[? _]].
  - cbn [length Nat.eqb negb orb andb nonEmpty]. rewrite andb_false_r. cbn [andb].
    destruct (JsString.eqb (co :: o) devNull && JsString.eqb n devNull) eqn:Hdev.
    + apply andb_true_iff in Hdev as [Ho%eqb_eq Hn%eqb_eq]. split; [by right|done].
    + split; [done|]. intros [[? _]|[Ho Hn]]; [done|].
      rewrite Ho, Hn in Hdev. by vm_compute in Hdev.
Qed.

(** X13: a record of the splitter is in the displayed list exactly when
    its two paths are neither both empty nor both [/dev/null] and, where
    the filter has usable paths, the record matches one of them; so
    without usable filter paths it is left out exactly when both its paths
    are empty or both are [/dev/null].  The test on the [file-] prefix of
    the key adds nothing for these records. *)
Theorem isDisplayable_splitter_record
    (d : JsString.t) (r : ParsedDiffFile) (Hin : r ∈ splitUnifiedDiffByFile d) :
  let noPath :=
    (oldPath r = [] /\ newPath r = [])
    \/ (oldPath r = devNull /\ newPath r = devNull) in
  let usable (effectiveFilter : option (list JsString.t)) :=
    List.filter (fun p => nonEmpty p && negb (JsString.eqb p devNull))
                (default [] effectiveFilter) in
  (isDisplayable r = false <-> noPath)
  /\ (forall effectiveFilter,
        r ∈ fileDiffs (splitUnifiedDiffByFile d) effectiveFilter
        <-> ~ noPath
            /\ (usable effectiveFilter = []
                \/ matchesFilter (usable effectiveFilter) r = true))
  /\ (forall effectiveFilter,
        usable effectiveFilter = [] ->
        r ∉ fileDiffs (splitUnifiedDiffByFile d) effectiveFilter <-> noPath).
Proof.
  intros noPath usable.
  pose proof (isDisplayable_record d r Hin) as Hiff. fold noPath in Hiff.
  assert (isDisplayable r = true <-> ~ noPath) as Hshown.
  { rewrite <- Hiff. by destruct (isDisplayable r). }
  assert (forall effectiveFilter,
            r ∈ fileDiffs (splitUnifiedDiffByFile d) effectiveFilter
            <-> ~ noPath
                /\ (usable effectiveFilter = []
                    \/ matchesFilter (usable effectiveFilter) r = true)) as Hin'.
  { intros effectiveFilter. unfold fileDiffs.
    replace (match effectiveFilter with
             | Some ps =>
                 List.filter (fun p => nonEmpty p && negb (JsString.eqb p devNull)) ps
             | None => []
             end) with (usable effectiveFilter)
      by (unfold usable; by destruct effectiveFilter).
    destruct (usable effectiveFilter) as [|q qs] eqn:Hq.
    - cbn [length Nat.eqb]. rewrite elem_of_filter, Hshown. tauto.
    - cbn [length Nat.eqb]. rewrite !elem_of_filter, Hshown.
      split.
      + intros [[_ ?] ?]. split; [done|by right].
      + intros [? [?|?]]; done. }
  split; [done|]. split; [done|].
  intros effectiveFilter Hnone. rewrite Hin', Hnone.
  split.
  - intros Hnot. destruct (isDisplayable r) eqn:Hd; [|by apply Hiff].
    exfalso. apply Hnot. split; [by apply Hshown|by left].
  - intros Hno [Hnot _]. done.
Qed.

Lemma isDisplayable_splitter_record_witness :
  let r := modifyRecord in
  let noPath :=
    (oldPath r = [] /\ newPath r = [])
    \/ (oldPath r = devNull /\ newPath r = devNull) in
  let usable (effectiveFilter : option (list JsString.t)) :=
    List.filter (fun p => nonEmpty p && negb (JsString.eqb p devNull))
                (default [] effectiveFilter) in
  (isDisplayable r = false <-> noPath)
  /\ (forall effectiveFilter,
        r ∈ fileDiffs (splitUnifiedDiffByFile modifyDiff) effectiveFilter
        <-> ~ noPath
            /\ (usable effectiveFilter = []
                \/ matchesFilter (usable effectiveFilter) r = true))
  /\ (forall effectiveFilter,
        usable effectiveFilter = [] ->
        r ∉ fileDiffs (splitUnifiedDiffByFile modifyDiff) effectiveFilter <-> noPath).
Proof.
  apply (isDisplayable_splitter_record modifyDiff modifyRecord).
  apply elem_of_cons. left. reflexivity.
Defined.

(** ** One record per header *)

Lemma isFullHeader_header l : isFullHeader l = true -> isFileHeader l = true.
Proof.
  unfold isFullHeader, isFileHeader. intros H.
  destruct (trimEnd_prefix l) as [w Hw]. rewrite Hw. by apply startsWith_app_r.
Qed.

(** A block whose first line is a full header is kept, header first. *)
Lemma header_block_kept h rest :
  isFullHeader h = true ->
  isFileHeader (trim (joinLines (h :: rest))) = true
  /\ isDiffBlock (trim (joinLines (h :: rest))) = true.
Proof.
  unfold isFullHeader, isFileHeader. intros Hh.
  destruct (trimEnd_prefix h) as [w Hw].
  assert (trimEnd h <> []) as Hne.
  { intros He. by rewrite He in Hh. }
  assert (headNonBlank (trimEnd h) = true) as Hhead.
  { apply startsWith_prefix in Hh as [r ->]. reflexivity. }
  assert (headNonBlank (rev (trimEnd h)) = true) as Hlast.
  { by destruct (trimEnd_last h). }
  rewrite joinLines_cons, Hw, <- app_assoc.
  pose proof (trim_around [] (trimEnd h) (w ++ linesAfter rest) Hhead Hlast) as Ht.
  simpl in Ht. rewrite Ht.
  assert (startsWith (js "diff --git ") (trimEnd h ++ trimEnd (w ++ linesAfter rest))
          = true) as Hstart by by apply startsWith_app_r.
  split; [done|]. unfold isDiffBlock. rewrite Hstart.
  destruct (trimEnd h); [done|]. reflexivity.
Qed.

Lemma collect_fold_headers lines blocks h rest :
  Forall (fun l => isFileHeader l = true -> isFullHeader l = true) lines ->
  isFullHeader h = true ->
  Forall (fun b => isFileHeader b = true) blocks ->
  exists blocks' h' rest',
    fold_left collectLine lines (blocks, h :: rest) = (blocks', h' :: rest')
    /\ isFullHeader h' = true
    /\ length blocks' = (length blocks + countHeaders lines)%nat
    /\ Forall (fun b => isFileHeader b = true) blocks'.
Proof.
  revert blocks h rest.
  induction lines as [|l lines IH]; intros blocks h rest Hlines Hh Hblocks.
  - exists blocks, h, rest. unfold countHeaders. simpl.
    repeat split; [done| lia | done].
  - apply Forall_cons in Hlines as [Hl Hlines]. cbn [fold_left].
    unfold collectLine at 2. cbn [snd length Nat.eqb negb].
    unfold countHeaders. cbn [List.filter].
    destruct (isFileHeader l) eqn:Hhead; cbn [andb].
    + destruct (header_block_kept h rest Hh) as [Hfirst Hkept].
      unfold pushCurrent. rewrite Hkept. cbn [fst snd app].
      destruct (IH (blocks ++ [trim (joinLines (h :: rest))]) l [] Hlines)
        as (blocks' & h' & rest' & Hfold & Hh' & Hlen & Hall).
      * by apply Hl.
      * apply Forall_app. split; [done|]. by apply Forall_singleton.
      * exists blocks', h', rest'. split; [done|]. split; [done|].
        split; [|done]. rewrite Hlen, length_app. unfold countHeaders. simpl. lia.
    + cbn [fst snd].
      destruct (IH blocks h (rest ++ [l]) Hlines Hh Hblocks)
        as (blocks' & h' & rest' & Hfold & Hh' & Hlen & Hall).
      exists blocks', h', rest'. done.
Qed.

(** X14: when the first line of a diff is a [diff --git] header and every
    header line still is one with the blanks at its end cut, the splitter
    returns exactly one record per header line, and the block of every
    record starts with its header. *)
Theorem splitUnifiedDiffByFile_one_per_header
    (d h : JsString.t) (rest : list JsString.t)
    (Hlines : splitLines (normalizeCrLf d) = h :: rest)
    (Hfirst : isFullHeader h = true)
    (Hfull : Forall (fun l => isFileHeader l = true -> isFullHeader l = true) rest) :
  length (splitUnifiedDiffByFile d) = countHeaders (h :: rest)
  /\ (forall r, r ∈ splitUnifiedDiffByFile d -> isFileHeader (diffText r) = true).
Proof.
  unfold splitUnifiedDiffByFile. rewrite Hlines, length_imap.
  unfold collectBlocks. cbn [fold_left].
  assert (collectLine ([], []) h = ([], [h])) as ->.
  { unfold collectLine. cbn [snd length Nat.eqb negb]. by rewrite andb_false_r. }
  destruct (collect_fold_headers rest [] h [] Hfull Hfirst (List.Forall_nil _))
    as (blocks' & h' & rest' & -> & Hh' & Hlen & Hall).
  destruct (header_block_kept h' rest' Hh') as [Hstart Hkept].
  unfold pushCurrent. rewrite Hkept. cbn [fst].
  split.
  - rewrite length_app, Hlen. unfold countHeaders. cbn [List.filter].
    rewrite (isFullHeader_header h Hfirst). simpl. lia.
  - intros r (i & b & -> & Hb)%elem_of_lookup_imap.
    rewrite parseBlock_diffText.
    assert (b ∈ blocks' ++ [trim (joinLines (h' :: rest'))]) as Hin.
    { apply list_elem_of_lookup. eauto. }
    apply elem_of_app in Hin as [Hin|Hin].
    2: { apply list_elem_of_singleton in Hin as ->. done. }
    rewrite Forall_forall in Hall. by apply Hall.
Qed.

Lemma splitUnifiedDiffByFile_one_per_header_witness :
  length (splitUnifiedDiffByFile unsortedDiff)
  = countHeaders (splitLines (normalizeCrLf unsortedDiff))
  /\ (forall r, r ∈ splitUnifiedDiffByFile unsortedDiff ->
                isFileHeader (diffText r) = true).
Proof.
  apply (splitUnifiedDiffByFile_one_per_header unsortedDiff
           (js "diff --git a/b b/b")
           (tail (splitLines (normalizeCrLf unsortedDiff)))).
  - reflexivity.
  - reflexivity.
  - apply (bool_decide_unpack _). vm_compute. exact I.
Defined.

(** * Further properties of the validator *)

Lemma findIndex_Some {A : Type} (p : A -> bool) (l : list A) (i : nat) :
  findIndex p l = Some i ->
  exists x, l !! i = Some x /\ p x = true
            /\ forall j y, (j < i)%nat -> l !! j = Some y -> p y = false.
Proof.
  revert i. induction l as [|a l IH]; intros i; [done|]. simpl.
  destruct (p a) eqn:Ha.
  - intros [= <-]. exists a. repeat split; [done|]. intros j y Hj. lia.
  - destruct (findIndex p l) as [i'|]; [|done]. intros [= <-].
    destruct (IH i' eq_refl) as (x & Hx & Hpx & Hmin).
    exists x. repeat split; [done..|].
    intros [|j] y Hj Hy; [by injection Hy as <-|].
    apply (Hmin j y); [lia|done].
Qed.

Lemma findIndex_None {A : Type} (p : A -> bool) (l : list A) :
  findIndex p l = None <-> forall x, x ∈ l -> p x = false.
Proof.
  induction l as [|a l IH]; simpl.
  - split; [|done]. intros _ x Hx. by apply elem_of_nil in Hx.
  - destruct (p a) eqn:Ha.
    + split; [done|]. intros Hall. by rewrite (Hall a) in Ha by by left.
    + destruct (findIndex p l) as [i|]; simpl.
      * split; [done|]. intros Hall.
        assert (@None nat = None) as Hn by done.
        destruct IH as [_ IH]. discriminate IH. intros x Hx. apply Hall. by right.
      * split; [|done]. intros _ x [->|Hx]%elem_of_cons; [done|].
        by apply IH.
Qed.

(** X15: a block the validator accepts has a line starting with [--- ] and,
    strictly after the first of them, the first line starting with [+++ ],
    and then either one of the special-case phrases somewhere or a hunk
    header after that [+++ ] line.  So a block without a [--- ] line is
    rejected as lacking header lines, whatever else it holds: a pure
    rename as git prints it is invalid. *)
Theorem validateDiffHunk_valid_markers (blockText : JsString.t)
    (Hvalid : valid (validateDiffHunk blockText) = true) :
  let lines := splitLines blockText in
  (exists m p lo ln,
      (m < p)%nat
      /\ lines !! m = Some lo /\ isOldMarker lo = true
      /\ (forall j y, (j < m)%nat -> lines !! j = Some y -> isOldMarker y = false)
      /\ lines !! p = Some ln /\ isNewMarker ln = true
      /\ (forall j y, (j < p)%nat -> lines !! j = Some y -> isNewMarker y = false)
      /\ (hasSpecialCase blockText = true
          \/ exists j y, (p < j)%nat /\ lines !! j = Some y
                         /\ hunkHeaderRegex_test y = true))
  /\ (forall t,
        (forall l, l ∈ splitLines t -> isOldMarker l = false) ->
        validateDiffHunk t = mkValidation false (Some (js "missing header lines"))
        \/ validateDiffHunk t = mkValidation false (Some (js "empty diff")))
  /\ validateDiffHunk renameDiff
     = mkValidation false (Some (js "missing header lines")).
Proof.
  intros lines. split; [|split; [|reflexivity]].
  - unfold validateDiffHunk in Hvalid. fold lines in Hvalid.
    destruct (_ || _); [done|].
    destruct (findIndex isOldMarker lines) as [m|] eqn:Hm; [|done].
    destruct (findIndex isNewMarker lines) as [p|] eqn:Hp; [|done].
    destruct (Nat.leb_spec p m) as [|Hlt]; [done|].
    destruct (findIndex_Some _ _ _ Hm) as (lo & Hlo & Hold & Hminm).
    destruct (findIndex_Some _ _ _ Hp) as (ln & Hln & Hnew & Hminp).
    exists m, p, lo, ln. do 7 (split; [done|]).
    destruct (hasSpecialCase blockText); [by left|right].
    destruct (existsb hunkHeaderRegex_test (drop (S p) lines)) eqn:Hex; [|done].
    apply existsb_exists in Hex as (y & Hy & Hty).
    apply list_elem_of_In, list_elem_of_lookup in Hy as [j Hj].
    rewrite lookup_drop in Hj. exists (S p + j)%nat, y.
    split; [lia|done].
  - intros t Hnone. unfold validateDiffHunk.
    destruct (_ || _); [by right|left].
    apply findIndex_None in Hnone. by rewrite Hnone.
Qed.

Lemma validateDiffHunk_valid_markers_witness :
  let lines := splitLines markersWithHunk in
  (exists m p lo ln,
      (m < p)%nat
      /\ lines !! m = Some lo /\ isOldMarker lo = true
      /\ (forall j y, (j < m)%nat -> lines !! j = Some y -> isOldMarker y = false)
      /\ lines !! p = Some ln /\ isNewMarker ln = true
      /\ (forall j y, (j < p)%nat -> lines !! j = Some y -> isNewMarker y = false)
      /\ (hasSpecialCase markersWithHunk = true
          \/ exists j y, (p < j)%nat /\ lines !! j = Some y
                         /\ hunkHeaderRegex_test y = true))
  /\ (forall t,
        (forall l, l ∈ splitLines t -> isOldMarker l = false) ->
        validateDiffHunk t = mkValidation false (Some (js "missing header lines"))
        \/ validateDiffHunk t = mkValidation false (Some (js "empty diff")))
  /\ validateDiffHunk renameDiff
     = mkValidation false (Some (js "missing header lines")).
Proof.
  apply (validateDiffHunk_valid_markers markersWithHunk). reflexivity.
Defined.

(** ** Hunk headers *)

Lemma stripPrefix_app p s : stripPrefix p (p ++ s) = Some s.
Proof.
  induction p as [|a p IH]; [done|]. simpl. by rewrite N.eqb_refl.
Qed.

Lemma skipDigits_app ds r :
  forallb isDigit ds = true -> noDigitHead r = true -> skipDigits (ds ++ r) = r.
Proof.
  intros Hds Hr. induction ds as [|c ds IH]; simpl in *.
  - destruct r as [|c r]; [done|]. simpl in *.
    by destruct (isDigit c).
  - apply andb_true_iff in Hds as [-> Hds]. by apply IH.
Qed.

Lemma digits1_numeral ds r :
  isNumeral ds = true -> noDigitHead r = true -> digits1 (ds ++ r) = Some r.
Proof.
  unfold isNumeral. intros [Hne Hds]%andb_true_iff Hr.
  destruct ds as [|c ds]; [done|]. simpl in *.
  apply andb_true_iff in Hds as [-> Hds]. by rewrite skipDigits_app.
Qed.

Lemma optCommaDigits_count cnt r :
  isCount cnt -> noDigitHead r = true -> r <> [] -> hd 0 r <> 44 ->
  optCommaDigits (cnt ++ r) = r.
Proof.
  intros [->|(ds & -> & Hds)] Hr Hne Hcomma.
  - destruct r as [|c r]; [done|]. simpl in *.
    by destruct (N.eqb_spec c 44).
  - simpl. by rewrite digits1_numeral.
Qed.

(** X16: every line that starts with a well-formed hunk header passes the
    header test: [@@ -], a numeral, an optional comma and numeral, [ +], a
    numeral, an optional comma and numeral, [ @@], and anything after. *)
Theorem hunkHeaderRegex_accepts
    (a ac b bc rest : JsString.t)
    (Ha : isNumeral a = true) (Hb : isNumeral b = true)
    (Hac : isCount ac) (Hbc : isCount bc) :
  hunkHeaderRegex_test
    (js "@@ -" ++ a ++ ac ++ js " +" ++ b ++ bc ++ js " @@" ++ rest) = true.
Proof.
  unfold hunkHeaderRegex_test. rewrite stripPrefix_app.
  assert (forall cnt r, isCount cnt -> noDigitHead (cnt ++ 32 :: r) = true) as Hnd.
  { intros cnt r [->|(ds & -> & _)]; reflexivity. }
  rewrite (digits1_numeral a) by (done || by apply (Hnd ac)).
  rewrite (optCommaDigits_count ac) by done.
  rewrite stripPrefix_app.
  rewrite (digits1_numeral b) by (done || by apply (Hnd bc)).
  rewrite (optCommaDigits_count bc) by done.
  by rewrite stripPrefix_app.
Qed.

Lemma hunkHeaderRegex_accepts_witness :
  hunkHeaderRegex_test
    (js "@@ -" ++ js "12" ++ (44 :: js "3") ++ js " +" ++ js "14" ++ []
       ++ js " @@" ++ js " function f()") = true.
Proof.
  apply (hunkHeaderRegex_accepts (js "12") (44 :: js "3") (js "14") []
           (js " function f()")).
  - reflexivity.
  - reflexivity.
  - right. exists (js "3"). split; reflexivity.
  - by left.
Defined.

(** * Further properties of the displayed list *)

Lemma filter_filter_same {A : Type} (p : A -> bool) (l : list A) :
  List.filter p (List.filter p l) = List.filter p l.
Proof.
  induction l as [|x l IH]; [done|]. simpl.
  destruct (p x) eqn:Hp; [|done]. simpl. by rewrite Hp, IH.
Qed.

Lemma endsWith_nil s : endsWith [] s = true.
Proof. reflexivity. Qed.

(** X17: without a usable filter path (none given, or only empty ones and
    [/dev/null]) the displayed list is the displayable records in their
    order; with filter paths, a displayable record is shown as soon as its
    path equals one of them, and also whenever its new path is empty, since
    every string ends with the empty string; filtering the displayed list
    again changes nothing. *)
Theorem fileDiffs_filtering
    (all : list ParsedDiffFile) (effectiveFilter : option (list JsString.t)) :
  (List.filter (fun p => nonEmpty p && negb (JsString.eqb p devNull))
               (default [] effectiveFilter) = [] ->
   fileDiffs all effectiveFilter = List.filter isDisplayable all)
  /\ (forall f ps,
        effectiveFilter = Some ps -> f ∈ all -> isDisplayable f = true ->
        filterPathOf f ∈ ps -> filterPathOf f <> [] -> filterPathOf f <> devNull ->
        f ∈ fileDiffs all effectiveFilter)
  /\ (forall f, f ∈ all -> isDisplayable f = true -> newPath f = [] ->
        f ∈ fileDiffs all effectiveFilter)
  /\ fileDiffs (fileDiffs all effectiveFilter) effectiveFilter
     = fileDiffs all effectiveFilter.
Proof.
  unfold fileDiffs.
  set (paths := match effectiveFilter with
                | Some ps =>
                    List.filter (fun p => nonEmpty p && negb (JsString.eqb p devNull)) ps
                | None => []
                end).
  split; [|split; [|split]].
  - intros Hp. replace paths with (@nil JsString.t); [done|].
    unfold paths. by destruct effectiveFilter.
  - intros f ps Hflt Hf Hd Hin Hne Hdev.
    destruct (length paths =? 0)%nat; [by apply elem_of_filter|].
    apply elem_of_filter. split; [by apply elem_of_filter|].
    unfold matchesFilter. fold (filterPathOf f).
    apply existsb_exists. exists (filterPathOf f). split.
    + unfold paths. rewrite Hflt.
      apply filter_In. split; [by apply list_elem_of_In|].
      apply andb_true_iff. split.
      * unfold nonEmpty. by destruct (filterPathOf f).
      * by apply negb_true_iff, eqb_neq.
    + by rewrite (proj2 (eqb_eq _ _) eq_refl).
  - intros f Hf Hd Hnew.
    destruct (length paths =? 0)%nat eqn:Hlen; [by apply elem_of_filter|].
    apply elem_of_filter. split; [by apply elem_of_filter|].
    unfold matchesFilter. rewrite Hnew.
    change (negb (JsString.eqb [] devNull)) with true. cbn iota.
    destruct paths as [|p paths']; [done|]. simpl.
    rewrite endsWith_nil. by rewrite orb_true_r.
  - destruct (length paths =? 0)%nat.
    + apply filter_filter_same.
    + rewrite (filter_all isDisplayable).
      * apply filter_filter_same.
      * by intros x [[_ ?]%elem_of_filter _]%elem_of_filter.
Qed.

(** * The content hash as a string *)

Lemma digit36_value d :
  (0 <= d < 36)%Z ->
  digit36Value (digit36 d) = d /\ isDigit36 (digit36 d) = true.
Proof.
  intros Hd. unfold digit36Value, digit36, isDigit36.
  destruct (Z.ltb_spec d 10).
  - assert (Z.to_N (48 + d) <= 57) as Hle by lia.
    split.
    + apply N.leb_le in Hle. rewrite Hle. lia.
    + apply orb_true_iff. left. apply andb_true_iff.
      split; apply N.leb_le; lia.
  - assert (57 < Z.to_N (97 + (d - 10))) as Hgt by lia.
    split.
    + apply N.leb_gt in Hgt. rewrite Hgt. lia.
    + apply orb_true_iff. right. apply andb_true_iff.
      split; apply N.leb_le; lia.
Qed.

Lemma fromString36_snoc s c :
  fromString36 (s ++ [c]) = (fromString36 s * 36 + digit36Value c)%Z.
Proof. unfold fromString36. by rewrite fold_left_app. Qed.

Lemma toString36_aux_digits fuel n acc :
  (0 < fuel)%nat -> (0 <= n < 36 ^ Z.of_nat fuel)%Z ->
  exists ds,
    toString36_aux fuel n acc = ds ++ acc
    /\ fromString36 ds = n
    /\ (1 <= length ds <= fuel)%nat
    /\ forallb isDigit36 ds = true.
Proof.
  revert n acc. induction fuel as [|fuel IH]; intros n acc Hfuel Hn; [lia|].
  - cbn [toString36_aux].
    assert (0 <= n mod 36 < 36)%Z as Hmod by (apply Z.mod_pos_bound; lia).
    destruct (digit36_value _ Hmod) as [Hval Hdig].
    pose proof (Z.div_mod n 36 ltac:(lia)) as Hdm.
    destruct (Z.eqb_spec (n / 36) 0) as [Hz|Hnz].
    + exists [digit36 (n mod 36)]. split; [done|].
      split; [unfold fromString36; simpl; lia|].
      split; [simpl; lia|]. simpl. by rewrite Hdig.
    + assert (0 <= n / 36 < 36 ^ Z.of_nat fuel)%Z as Hq.
      { split; [apply Z.div_pos; lia|].
        apply Z.div_lt_upper_bound; [lia|].
        rewrite Nat2Z.inj_succ, Z.pow_succ_r in Hn by lia. lia. }
      assert (0 < fuel)%nat as Hpos.
      { destruct fuel; [simpl in Hq; lia|lia]. }
      destruct (IH (n / 36)%Z (digit36 (n mod 36) :: acc) Hpos Hq)
        as (ds & -> & Hds & Hlen & Hall).
      exists (ds ++ [digit36 (n mod 36)]).
      split; [by rewrite <- app_assoc|].
      split; [rewrite fromString36_snoc; lia|].
      split; [rewrite length_app; simpl; lia|].
      rewrite forallb_app. simpl. by rewrite Hall, Hdig.
Qed.

Lemma toString36_spec n :
  (0 <= n < 4294967296)%Z ->
  fromString36 (toString36 n) = n
  /\ (1 <= length (toString36 n) <= 7)%nat
  /\ forallb isDigit36 (toString36 n) = true.
Proof.
  intros Hn. unfold toString36.
  destruct (toString36_aux_digits 7 n []) as (ds & -> & Hds & Hlen & Hall).
  - lia.
  - change (36 ^ Z.of_nat 7)%Z with 78364164096%Z. lia.
  - by rewrite app_nil_r.
Qed.

Lemma hash32_range s : (0 <= hash32 s < 4294967296)%Z.
Proof. unfold hash32, toUint32. apply Z.mod_pos_bound. lia. Qed.

(** X18: the hash string is one to seven radix-36 digits, never empty, and
    reads back as the unsigned 32-bit hash; two texts have the same hash
    string exactly when they have the same 32-bit hash, so the rendering
    adds no collision, and the empty content hash of a reset state is the
    hash of no text. *)
Theorem hashString_faithful (a b : JsString.t) :
  fromString36 (hashString a) = hash32 a
  /\ (1 <= length (hashString a) <= 7)%nat
  /\ forallb isDigit36 (hashString a) = true
  /\ hashString a <> []
  /\ (hashString a = hashString b <-> hash32 a = hash32 b).
Proof.
  destruct (toString36_spec (hash32 a) (hash32_range a)) as (Hback & Hlen & Hall).
  destruct (toString36_spec (hash32 b) (hash32_range b)) as (Hback' & _ & _).
  change (toString36 (hash32 a)) with (hashString a) in *.
  change (toString36 (hash32 b)) with (hashString b) in *.
  split; [done|]. split; [done|]. split; [done|].
  split; [intros He; rewrite He in Hlen; simpl in Hlen; lia|].
  split; [intros He|intros He].
  - by rewrite <- Hback, He, Hback'.
  - unfold hashString. fold (hash32 a). fold (hash32 b). by rewrite He.
Qed.

(** * The diff text handed to the diff component *)

Lemma joinLines_splitLines s : joinLines (splitLines s) = s.
Proof.
  induction s as [|c s IH]; [done|]. simpl.
  pose proof (splitLines_nonempty s) as Hne.
  destruct (N.eqb_spec c LF) as [->|Hc].
  - destruct (splitLines s) as [|l ls] eqn:Hs; [done|].
    change (joinLines ([] :: l :: ls)) with ([] ++ LF :: joinLines (l :: ls)).
    by rewrite IH.
  - destruct (splitLines s) as [|l ls] eqn:Hs; [done|].
    destruct ls as [|l' ls].
    + simpl in *. by rewrite IH.
    + change (joinLines ((c :: l) :: l' :: ls))
        with (c :: (l ++ LF :: joinLines (l' :: ls))).
      change (joinLines (l :: l' :: ls)) with (l ++ LF :: joinLines (l' :: ls)) in IH.
      by rewrite IH.
Qed.

Lemma splitLines_joinLines ls :
  ls <> [] -> Forall (fun l => noLineFeed l = true) ls ->
  splitLines (joinLines ls) = ls.
Proof.
  induction ls as [|l ls IH]; [done|]. intros _ Hall.
  apply Forall_cons in Hall as [Hl Hall].
  destruct ls as [|l' ls]; [by apply splitLines_line|].
  change (joinLines (l :: l' :: ls)) with (l ++ LF :: joinLines (l' :: ls)).
  rewrite splitLines_app_LF, splitLines_line by done.
  by rewrite IH.
Qed.

Lemma splitLines_all_noLineFeed s :
  Forall (fun l => noLineFeed l = true) (splitLines s).
Proof. apply Forall_forall. intros l. apply splitLines_noLineFeed. Qed.

Lemma last_snoc_split {A : Type} (l : list A) (d : A) :
  l <> [] -> l = removelast l ++ [List.last l d].
Proof. intros Hne. by apply app_removelast_last. Qed.

Lemma joinLines_snoc g l : joinLines (g ++ [l]) = linesBefore g ++ l.
Proof. rewrite joinLines_app_cons. simpl. by rewrite app_nil_r. Qed.

(** What the last step of the normalisation does to a text. *)
Lemma lone_sign_step n2 :
  let lines := splitLines n2 in
  let lastLine := List.last lines [] in
  joinLines (removelast lines ++ [lastLine ++ js " "]) = n2 ++ js " ".
Proof.
  intros lines lastLine.
  pose proof (splitLines_nonempty n2) as Hne.
  rewrite joinLines_snoc, app_assoc, <- joinLines_snoc.
  unfold lastLine, lines. rewrite <- last_snoc_split by done.
  by rewrite joinLines_splitLines.
Qed.

Lemma last_line_app_space n2 :
  List.last (splitLines (n2 ++ js " ")) []
  = List.last (splitLines n2) [] ++ js " ".
Proof.
  pose proof (lone_sign_step n2) as Hstep. cbv zeta in Hstep.
  rewrite <- Hstep. rewrite splitLines_joinLines.
  - by rewrite last_last.
  - by destruct (removelast _).
  - apply Forall_app. split.
    + pose proof (splitLines_all_noLineFeed n2) as Hall.
      rewrite (last_snoc_split (splitLines n2) [] (splitLines_nonempty n2)) in Hall.
      by apply Forall_app in Hall as [Hall _].
    + apply Forall_singleton. unfold noLineFeed. rewrite forallb_app.
      apply andb_true_iff. split; [|done].
      apply (splitLines_noLineFeed n2).
      pose proof (splitLines_nonempty n2) as Hne.
      rewrite (last_snoc_split (splitLines n2) [] Hne) at 2.
      apply elem_of_app. right. by left.
Qed.

(** X19: the text handed to the diff component never has a lone [+] or
    [-] as its last line.  For a text that ends with a code unit that is
    not blank, as every block of the splitter does, the normalisation
    leaves the text as it is, or appends one space when the last line is a
    lone [+] or [-]. *)
Theorem normalizeForParser_last_line (dText : JsString.t) :
  let lastLine := List.last (splitLines (normalizeForParser dText)) [] in
  lastLine <> js "+" /\ lastLine <> js "-"
  /\ (headNonBlank (rev dText) = true ->
      normalizeForParser dText
      = if JsString.eqb (List.last (splitLines dText) []) (js "+")
           || JsString.eqb (List.last (splitLines dText) []) (js "-")
        then dText ++ js " " else dText).
Proof.
  intros lastLine.
  assert (lastLine <> js "+" /\ lastLine <> js "-") as Hlast.
  { unfold lastLine, normalizeForParser.
    set (n1 := collapseFinalLineFeeds dText).
    set (n2 := if endsWith (LF :: js "+" ++ [LF]) n1
                  || endsWith (LF :: js "-" ++ [LF]) n1
               then removelast n1 else n1).
    destruct (JsString.eqb (List.last (splitLines n2) []) (js "+")
              || JsString.eqb (List.last (splitLines n2) []) (js "-")) eqn:Hsign.
    - rewrite lone_sign_step, last_line_app_space.
      apply orb_true_iff in Hsign as [->%eqb_eq| ->%eqb_eq]; done.
    - apply orb_false_iff in Hsign as [Hp%eqb_neq Hm%eqb_neq]. done. }
  split; [tauto|]. split; [tauto|].
  intros Hend. unfold normalizeForParser.
  assert (forall p, startsWith (LF :: p) (rev dText) = false) as Hno.
  { intros p. destruct (rev dText) as [|c r]; [done|].
    cbn [startsWith]. destruct (N.eqb_spec LF c) as [<-|]; done. }
  assert (collapseFinalLineFeeds dText = dText) as ->.
  { unfold collapseFinalLineFeeds. by rewrite Hno. }
  assert (endsWith (LF :: js "+" ++ [LF]) dText = false) as ->.
  { unfold endsWith. change (rev (LF :: js "+" ++ [LF])) with (LF :: [43; LF]).
    apply Hno. }
  assert (endsWith (LF :: js "-" ++ [LF]) dText = false) as ->.
  { unfold endsWith. change (rev (LF :: js "-" ++ [LF])) with (LF :: [45; LF]).
    apply Hno. }
  cbn [orb].
  destruct (_ || _); [apply lone_sign_step|done].
Qed.

(** * Task helpers *)

(** ** Merging dependency lists *)

Lemma setAdd_spec s x :
  NoDup s ->
  NoDup (setAdd s x)
  /\ (forall y, y ∈ setAdd s x <-> y ∈ s \/ y = x)
  /\ s `prefix_of` setAdd s x.
Proof.
  intros Hnd. unfold setAdd. case_bool_decide as Hin.
  - split; [done|]. split; [|done].
    intros y. split; [by left|]. by intros [?| ->].
  - split; [|split].
    + apply NoDup_app. split; [done|]. split; [|apply NoDup_singleton].
      intros y Hy ->%list_elem_of_singleton. done.
    + intros y. rewrite elem_of_app, list_elem_of_singleton. done.
    + by exists [x].
Qed.

Lemma fold_setAdd_spec xs s :
  NoDup s ->
  NoDup (fold_left setAdd xs s)
  /\ (forall y, y ∈ fold_left setAdd xs s <-> y ∈ s \/ y ∈ xs)
  /\ s `prefix_of` fold_left setAdd xs s.
Proof.
  revert s. induction xs as [|x xs IH]; intros s Hnd; simpl.
  - split; [done|]. split; [|done]. intros y. split; [by left|].
    intros [?|Hy]; [done|]. by apply elem_of_nil in Hy.
  - destruct (setAdd_spec s x Hnd) as (Hnd' & Hin' & Hpre').
    destruct (IH _ Hnd') as (Hnd'' & Hin'' & Hpre'').
    split; [done|]. split.
    + intros y. rewrite Hin'', Hin', elem_of_cons. tauto.
    + by etrans.
Qed.

Lemma fold_setAdd_known xs s :
  (forall x, x ∈ xs -> x ∈ s) -> fold_left setAdd xs s = s.
Proof.
  revert s. induction xs as [|x xs IH]; intros s Hall; [done|]. simpl.
  unfold setAdd at 2. rewrite bool_decide_eq_true_2 by (apply Hall; by left).
  apply IH. intros y Hy. apply Hall. by right.
Qed.

Lemma arrayFromSet_NoDup xs : NoDup xs -> arrayFromSet xs = xs.
Proof.
  unfold arrayFromSet.
  assert (forall s, NoDup (s ++ xs) -> fold_left setAdd xs s = s ++ xs) as Hgen.
  { induction xs as [|x xs IH]; intros s Hnd; simpl.
    - by rewrite app_nil_r.
    - unfold setAdd at 2.
      rewrite bool_decide_eq_false_2.
      + rewrite IH; [by rewrite <- app_assoc|]. by rewrite <- app_assoc.
      + apply NoDup_app in Hnd as (_ & Hdisj & _).
        intros Hin. apply (Hdisj x Hin). by left. }
  intros Hnd. by apply (Hgen []).
Qed.

Lemma mergeArrays_unfold existing toAdd :
  mergeArrays existing toAdd
  = if (0 <? length (arrayFromSet (default [] existing ++ default [] toAdd)))%nat
    then Some (arrayFromSet (default [] existing ++ default [] toAdd)) else None.
Proof. unfold mergeArrays. destruct existing, toAdd; done. Qed.

(** X20: merging two dependency lists gives no list when both are missing
    or empty, and otherwise a non-empty list without repetition that holds
    exactly the ids of the two lists and starts with the existing ones
    when those do not repeat; merging the same additions once more changes
    nothing. *)
Theorem mergeArrays_spec (existing toAdd : option (list JsString.t)) :
  (mergeArrays existing toAdd = None
   <-> default [] existing = [] /\ default [] toAdd = [])
  /\ (forall r, mergeArrays existing toAdd = Some r ->
        r <> [] /\ NoDup r
        /\ (forall x, x ∈ r <-> x ∈ default [] existing \/ x ∈ default [] toAdd)
        /\ (NoDup (default [] existing) -> default [] existing `prefix_of` r))
  /\ mergeArrays (mergeArrays existing toAdd) toAdd = mergeArrays existing toAdd.
Proof.
  set (e := default [] existing). set (a := default [] toAdd).
  destruct (fold_setAdd_spec (e ++ a) [] (NoDup_nil_2)) as (Hnd & Hin & _).
  fold (arrayFromSet (e ++ a)) in Hnd, Hin.
  assert (mergeArrays existing toAdd
          = if (0 <? length (arrayFromSet (e ++ a)))%nat
            then Some (arrayFromSet (e ++ a)) else None) as Hmerge.
  { unfold mergeArrays. destruct existing, toAdd; done. }
  assert (forall r, mergeArrays existing toAdd = Some r ->
            r = arrayFromSet (e ++ a) /\ r <> []) as Hsome.
  { intros r. rewrite Hmerge. destruct (arrayFromSet (e ++ a)); [done|].
    simpl. by intros [= <-]. }
  split; [|split].
  - rewrite Hmerge. split.
    + destruct (arrayFromSet (e ++ a)) as [|x r] eqn:Hr; [|done]. intros _.
      assert (e ++ a = []) as Hnil.
      { destruct (e ++ a) as [|y l] eqn:Hea; [done|]. exfalso.
        apply (not_elem_of_nil y), Hin. right. by left. }
      by apply app_eq_nil in Hnil.
    + intros [-> ->]. done.
  - intros r [-> Hne]%Hsome. split; [done|]. split; [done|]. split.
    + intros x. rewrite Hin, elem_of_app. split; [|tauto].
      intros [Hx|?]; [by apply elem_of_nil in Hx|done].
    + intros Hnde. unfold arrayFromSet. rewrite fold_left_app.
      fold (arrayFromSet e). rewrite (arrayFromSet_NoDup e Hnde).
      by destruct (fold_setAdd_spec a e Hnde) as (_ & _ & ?).
  - destruct (mergeArrays existing toAdd) as [r|] eqn:Hr.
    + destruct (Hsome r eq_refl) as [-> Hne].
      rewrite mergeArrays_unfold.
      change (default [] (Some (arrayFromSet (e ++ a))))
        with (arrayFromSet (e ++ a)).
      fold a.
      assert (arrayFromSet (arrayFromSet (e ++ a) ++ a) = arrayFromSet (e ++ a))
        as ->.
      { unfold arrayFromSet at 1. rewrite fold_left_app.
        fold (arrayFromSet (arrayFromSet (e ++ a))).
        rewrite (arrayFromSet_NoDup _ Hnd). apply fold_setAdd_known.
        intros x Hx. apply Hin. right. apply elem_of_app. by right. }
      by destruct (arrayFromSet (e ++ a)).
    + rewrite Hmerge in Hr.
      destruct (arrayFromSet (e ++ a)) as [|x r] eqn:Hr'; [|done].
      assert (a = []) as Ha.
      { destruct a as [|y l] eqn:Ha; [done|]. exfalso.
        apply (not_elem_of_nil y), Hin. right. apply elem_of_app. right. by left. }
      unfold mergeArrays. destruct toAdd as [l|]; [|done].
      unfold a in Ha. simpl in Ha. by rewrite Ha.
Qed.

(** ** The header of a task read *)

Lemma removeFirst_unfold pattern s :
  removeFirst pattern s
  = match stripPrefix pattern s with
    | Some rest => rest
    | None => match s with [] => [] | c :: r => c :: removeFirst pattern r end
    end.
Proof. by destruct s. Qed.

Lemma removeFirst_prefix pattern s : removeFirst pattern (pattern ++ s) = s.
Proof. by rewrite removeFirst_unfold, stripPrefix_app. Qed.

Lemma splitUnderscores_cons2 c c' r :
  splitUnderscores (c :: c' :: r)
  = if (c =? 95) && (c' =? 95) then [] :: splitUnderscores r
    else match splitUnderscores (c' :: r) with
         | [] => [[c]]
         | p :: ps => (c :: p) :: ps
         end.
Proof. reflexivity. Qed.

Lemma splitUnderscores_nonempty s : splitUnderscores s <> [].
Proof.
  destruct s as [|c [|c' r]]; [done..|]. rewrite splitUnderscores_cons2.
  destruct ((c =? 95) && (c' =? 95)); [done|].
  by destruct (splitUnderscores (c' :: r)).
Qed.

Lemma joinUnderscores_cons c p ps :
  joinUnderscores ((c :: p) :: ps) = c :: joinUnderscores (p :: ps).
Proof. by destruct ps. Qed.

Lemma joinUnderscores_splitUnderscores s :
  joinUnderscores (splitUnderscores s) = s.
Proof.
  assert (forall n s, (length s <= n)%nat ->
            joinUnderscores (splitUnderscores s) = s) as Hgen.
  { clear s. induction n as [|n IH]; intros s Hlen.
    - destruct s; [done|simpl in Hlen; lia].
    - destruct s as [|c [|c' r]]; [done..|].
      rewrite splitUnderscores_cons2.
      destruct ((c =? 95) && (c' =? 95)) eqn:Hsep.
      + apply andb_true_iff in Hsep as [->%N.eqb_eq ->%N.eqb_eq].
        pose proof (splitUnderscores_nonempty r) as Hne.
        destruct (splitUnderscores r) as [|p ps] eqn:Hr; [done|].
        change (joinUnderscores ([] :: p :: ps))
          with (js "__" ++ joinUnderscores (p :: ps)).
        rewrite <- Hr, IH; [done|]. simpl in Hlen. lia.
      + pose proof (splitUnderscores_nonempty (c' :: r)) as Hne.
        pose proof (IH (c' :: r)) as Hrec.
        destruct (splitUnderscores (c' :: r)) as [|p ps]; [done|].
        rewrite joinUnderscores_cons. f_equal. apply Hrec.
        simpl in Hlen |- *. lia. }
  by apply (Hgen (length s)).
Qed.

Lemma splitUnderscores_id id rest :
  forallb (fun c => negb (c =? 95)) id = true ->
  splitUnderscores (id ++ js "__" ++ rest) = id :: splitUnderscores rest.
Proof.
  induction id as [|c id IH]; [done|]. intros [Hc Hid]%andb_true_iff.
  apply negb_true_iff in Hc.
  change ((c :: id) ++ js "__" ++ rest) with (c :: (id ++ js "__" ++ rest)).
  assert (exists c' r', id ++ js "__" ++ rest = c' :: r') as (c' & r' & Hr).
  { destruct id; simpl; eauto. }
  rewrite Hr, splitUnderscores_cons2, Hc. cbn [andb].
  rewrite <- Hr, IH by done. done.
Qed.

(** X21: the header text that flags a task read is shown as the formatted
    subject of the task, [id. subject], whenever the id holds no
    underscore, as a numeric id does; the subject may hold anything. *)
Theorem renderTaskGetHeader_roundtrip (id shownSubject : JsString.t)
    (Hid : forallb (fun c => negb (c =? 95)) id = true) :
  renderTaskGetHeader (taskGetHeader id shownSubject)
  = formatTaskSubject id shownSubject
  /\ startsWith TASK_GET (taskGetHeader id shownSubject) = true.
Proof.
  split; [|apply startsWith_app].
  unfold renderTaskGetHeader, taskGetHeader, formatTaskSubject.
  rewrite removeFirst_prefix, splitUnderscores_id by done.
  cbn [head tail default]. by rewrite joinUnderscores_splitUnderscores.
Qed.

Lemma renderTaskGetHeader_roundtrip_witness :
  renderTaskGetHeader (taskGetHeader (js "12") (js "fix __init__ order"))
  = formatTaskSubject (js "12") (js "fix __init__ order")
  /\ startsWith TASK_GET (taskGetHeader (js "12") (js "fix __init__ order")) = true.
Proof.
  apply (renderTaskGetHeader_roundtrip (js "12") (js "fix __init__ order")).
  reflexivity.
Defined.

(** * Task snapshots *)

Lemma truthy_Some s x : truthy s = Some x -> s = Some x /\ x <> [].
Proof. destruct s as [[|c r]|]; [done| |done]. by intros [= <-]. Qed.

Lemma snapshotOk_insert tasks id t :
  snapshotOk tasks -> taskId t = id -> id <> [] -> snapshotOk (<[id := t]> tasks).
Proof.
  intros Hok Hid Hne k t'. destruct (decide (id = k)) as [<-|Hk].
  - rewrite lookup_insert_eq. by intros [= <-].
  - rewrite lookup_insert_ne by done. apply Hok.
Qed.

Lemma snapshotOk_delete tasks id : snapshotOk tasks -> snapshotOk (delete id tasks).
Proof.
  intros Hok k t Hk. apply lookup_delete_Some in Hk as [_ Hk]. by apply Hok.
Qed.

Lemma setListed_ok tasks task : snapshotOk tasks -> snapshotOk (setListed tasks task).
Proof.
  intros Hok. unfold setListed.
  destruct (truthy (payloadId task)) as [id|] eqn:Hid; [|done].
  apply truthy_Some in Hid as [_ Hne]. by apply snapshotOk_insert.
Qed.

Lemma fold_setListed_ok listed tasks :
  snapshotOk tasks -> snapshotOk (fold_left setListed listed tasks).
Proof.
  revert tasks. induction listed as [|t listed IH]; intros tasks Hok; [done|].
  simpl. by apply IH, setListed_ok.
Qed.

Lemma updateTaskSnapshotFromPart_ok tasks part :
  snapshotOk tasks -> snapshotOk (updateTaskSnapshotFromPart tasks part).
Proof.
  intros Hok. unfold updateTaskSnapshotFromPart.
  case_bool_decide; [done|].
  set (tasks1 := if JsString.eqb (partType part) (js "tool-TaskCreate") then _ else _).
  assert (snapshotOk tasks1) as Hok1.
  { unfold tasks1. destruct (JsString.eqb (partType part) (js "tool-TaskCreate")); [|done].
    destruct (truthy _) as [id|] eqn:Hid; [|done].
    apply truthy_Some in Hid as [_ Hne]. by apply snapshotOk_insert. }
  clearbody tasks1.
  destruct (JsString.eqb (partType part) (js "tool-TaskUpdate")).
  - destruct (truthy _) as [id|] eqn:Hid; [|done].
    apply truthy_Some in Hid as [_ Hne].
    case_bool_decide; [by apply snapshotOk_delete|by apply snapshotOk_insert].
  - set (tasks2 := if JsString.eqb (partType part) (js "tool-TaskList") then _ else _).
    assert (snapshotOk tasks2) as Hok2.
    { unfold tasks2. destruct (JsString.eqb (partType part) (js "tool-TaskList")); [|done].
      destruct (outputField part outputTasks); [|done]. by apply fold_setListed_ok. }
    clearbody tasks2.
    destruct (JsString.eqb (partType part) (js "tool-TaskGet")); [|done].
    destruct (outputField part outputTask); [|done]. by apply setListed_ok.
Qed.

(** X22: the snapshot update keeps every task under its own id, and never
    under the empty id: when this holds of the snapshot a group starts
    from, it holds of the snapshot the group leaves. *)
Theorem updateTaskSnapshotFromParts_ok
    (parts : list ToolPart) (existingSnapshot : gmap JsString.t TaskSnapshot)
    (Hok : snapshotOk existingSnapshot) :
  snapshotOk (updateTaskSnapshotFromParts parts existingSnapshot).
Proof.
  unfold updateTaskSnapshotFromParts. revert existingSnapshot Hok.
  induction parts as [|part parts IH]; intros tasks Hok; [done|].
  simpl. by apply IH, updateTaskSnapshotFromPart_ok.
Qed.

Lemma updateTaskSnapshotFromParts_ok_witness :
  snapshotOk (updateTaskSnapshotFromParts
                [createPart (js "1") (js "Write tests"); deletePart (js "2")] ∅).
Proof.
  apply (updateTaskSnapshotFromParts_ok
           [createPart (js "1") (js "Write tests"); deletePart (js "2")] ∅).
  intros k t Hk. by rewrite lookup_empty in Hk.
Defined.

Lemma updateTaskSnapshotFromParts_app ps1 ps2 tasks :
  updateTaskSnapshotFromParts (ps1 ++ ps2) tasks
  = updateTaskSnapshotFromParts ps2 (updateTaskSnapshotFromParts ps1 tasks).
Proof. apply fold_left_app. Qed.

(** X23: parts that are still streaming their input leave the snapshot
    alone: the update over a list of parts is the update over its finished
    parts, whatever the streaming ones carry. *)
Theorem updateTaskSnapshotFromParts_streaming
    (parts : list ToolPart) (existingSnapshot : gmap JsString.t TaskSnapshot) :
  updateTaskSnapshotFromParts parts existingSnapshot
  = updateTaskSnapshotFromParts
      (List.filter (fun part => negb (isStreaming part)) parts) existingSnapshot.
Proof.
  unfold updateTaskSnapshotFromParts. revert existingSnapshot.
  induction parts as [|part parts IH]; intros tasks; [done|].
  cbn [fold_left List.filter].
  destruct (isStreaming part) eqn:Hs; cbn [negb fold_left].
  - unfold updateTaskSnapshotFromPart at 2. unfold isStreaming in Hs.
    rewrite Hs. apply IH.
  - apply IH.
Qed.

Lemma delete_step tasks part id :
  isDeleteOf id part -> updateTaskSnapshotFromPart tasks part = delete id tasks.
Proof.
  intros (Hne & Htype & Hstream & Hid & Hstatus).
  unfold updateTaskSnapshotFromPart. unfold isStreaming in Hstream.
  rewrite Hstream, Htype, Hid, Hstatus.
  change (JsString.eqb (js "tool-TaskUpdate") (js "tool-TaskCreate")) with false.
  change (JsString.eqb (js "tool-TaskUpdate") (js "tool-TaskUpdate")) with true.
  cbn iota. destruct id as [|c r]; [done|]. cbn [truthy].
  by rewrite bool_decide_eq_true_2.
Qed.

Lemma create_step tasks part id :
  isCreateOf id part ->
  updateTaskSnapshotFromPart tasks part = <[id := createdSnapshot id part]> tasks.
Proof.
  intros (Hne & Htype & Hstream & Hid).
  unfold updateTaskSnapshotFromPart. unfold isStreaming in Hstream.
  rewrite Hstream, Htype, Hid.
  change (JsString.eqb (js "tool-TaskCreate") (js "tool-TaskCreate")) with true.
  change (JsString.eqb (js "tool-TaskCreate") (js "tool-TaskUpdate")) with false.
  change (JsString.eqb (js "tool-TaskCreate") (js "tool-TaskList")) with false.
  change (JsString.eqb (js "tool-TaskCreate") (js "tool-TaskGet")) with false.
  cbn iota. by destruct id.
Qed.

(** X24: a finished create part puts the task into the snapshot as
    pending, with the subject, description and active form of its input;
    a finished update part with status [deleted] takes the task out,
    whatever came before, and touches no other task; so a task created and
    then deleted in one group leaves the snapshot as it was, when the task
    was not there before. *)
Theorem create_then_delete
    (id : JsString.t) (created deleted : ToolPart) (parts : list ToolPart)
    (tasks : gmap JsString.t TaskSnapshot)
    (Hcreate : isCreateOf id created) (Hdelete : isDeleteOf id deleted) :
  updateTaskSnapshotFromParts (parts ++ [created]) tasks !! id
    = Some (createdSnapshot id created)
  /\ updateTaskSnapshotFromParts (parts ++ [deleted]) tasks !! id = None
  /\ (forall k, k <> id ->
        updateTaskSnapshotFromParts (parts ++ [deleted]) tasks !! k
        = updateTaskSnapshotFromParts parts tasks !! k)
  /\ (tasks !! id = None ->
      updateTaskSnapshotFromParts [created; deleted] tasks = tasks).
Proof.
  rewrite !updateTaskSnapshotFromParts_app.
  unfold updateTaskSnapshotFromParts at 1 3 5. cbn [fold_left].
  rewrite (create_step _ _ id Hcreate), !(delete_step _ _ id Hdelete).
  split; [apply lookup_insert_eq|]. split; [apply lookup_delete_eq|].
  split; [intros k Hk; by apply lookup_delete_ne|].
  intros Hnone. unfold updateTaskSnapshotFromParts. cbn [fold_left].
  rewrite (create_step _ _ id Hcreate), (delete_step _ _ id Hdelete).
  by apply delete_insert_id.
Qed.

Lemma create_then_delete_witness :
  let created := createPart (js "1") (js "Write tests") in
  let deleted := deletePart (js "1") in
  updateTaskSnapshotFromParts ([] ++ [created]) ∅ !! js "1"
    = Some (createdSnapshot (js "1") created)
  /\ updateTaskSnapshotFromParts ([] ++ [deleted]) ∅ !! js "1" = None
  /\ (forall k, k <> js "1" ->
        updateTaskSnapshotFromParts ([] ++ [deleted]) ∅ !! k
        = updateTaskSnapshotFromParts [] ∅ !! k)
  /\ ((∅ : gmap JsString.t TaskSnapshot) !! js "1" = None ->
      updateTaskSnapshotFromParts [created; deleted] ∅ = ∅).
Proof.
  apply (create_then_delete (js "1") (createPart (js "1") (js "Write tests"))
           (deletePart (js "1")) [] ∅).
  - repeat split; done.
  - repeat split; done.
Defined.

(** * The snapshot history of a sub-chat *)

Lemma findIndex_snoc {A : Type} (p : A -> bool) (l : list A) (x : A) :
  findIndex p l = None -> p x = true -> findIndex p (l ++ [x]) = Some (length l).
Proof.
  intros Hnone Hx. induction l as [|a l IH]; simpl in *; [by rewrite Hx|].
  destruct (p a); [done|].
  destruct (findIndex p l); [done|]. by rewrite IH.
Qed.

Lemma findIndex_app_Some {A : Type} (p : A -> bool) (l l' : list A) (i : nat) :
  findIndex p l = Some i -> findIndex p (l ++ l') = Some i.
Proof.
  revert i. induction l as [|a l IH]; intros i; [done|]. simpl.
  destruct (p a); [done|].
  destruct (findIndex p l) as [j|]; [|done]. intros [= <-]. by rewrite (IH j).
Qed.

Lemma last_map_Some {A : Type} (l : list A) (x : A) :
  List.last (List.map Some (l ++ [x])) None = Some x.
Proof. rewrite List.map_app. simpl. apply List.last_last. Qed.

Lemma groupKey_not_found order key :
  findIndex (fun g => JsString.eqb g key) order = None <-> key ∉ order.
Proof.
  rewrite findIndex_None. split.
  - intros Hall Hin. specialize (Hall key Hin). by apply eqb_neq in Hall.
  - intros Hnot g Hg. apply eqb_neq. by intros ->.
Qed.

(** The previous snapshot does not depend on the snapshot stored for the
    group itself, nor on the group being appended to the order. *)
Lemma previousSnapshotOf_stable historyMap order key current :
  previousSnapshotOf (<[key := current]> historyMap)
    (match findIndex (fun g => JsString.eqb g key) order with
     | None => order ++ [key]
     | Some _ => order
     end) key
  = previousSnapshotOf historyMap order key.
Proof.
  unfold previousSnapshotOf at 2.
  destruct (findIndex (fun g => JsString.eqb g key) order) as [i|] eqn:Hidx.
  - unfold previousSnapshotOf. rewrite Hidx. destruct i as [|i]; [done|].
    destruct (findIndex_Some _ _ _ Hidx) as (x & Hx & _ & Hmin).
    destruct (order !! i) as [g|] eqn:Hg; [|done]. simpl.
    rewrite lookup_insert_ne; [done|].
    intros <-. specialize (Hmin i key ltac:(lia) Hg).
    by rewrite (proj2 (eqb_eq key key) eq_refl) in Hmin.
  - unfold previousSnapshotOf.
    rewrite (findIndex_snoc _ _ _ Hidx) by by apply eqb_eq.
    destruct order as [|g order _] using rev_ind; [done|].
    rewrite length_app. simpl. replace (length order + 1)%nat with (S (length order)) by lia.
    rewrite last_map_Some.
    rewrite lookup_app_l by (rewrite length_app; simpl; lia).
    rewrite lookup_app_r, Nat.sub_diag by done. simpl.
    rewrite lookup_insert_ne; [done|].
    intros <-. apply groupKey_not_found in Hidx. apply Hidx.
    apply elem_of_app. right. by left.
Qed.

(** X25: building the snapshots of a group twice in a row gives the same
    previous and current snapshot and leaves the caches as the first run
    left them. *)
Theorem buildSnapshots_idempotent
    (parts : list ToolPart) (subChatId : JsString.t) (c : TaskCaches) :
  buildSnapshots parts subChatId (fst (fst (buildSnapshots parts subChatId c)))
  = buildSnapshots parts subChatId c.
Proof.
  unfold buildSnapshots.
  destruct (nonEmpty subChatId) eqn:Hsub; cbn [negb]; [|done].
  destruct (nonEmpty (groupKeyOf parts)) eqn:Hkey; cbn [negb]; [|done].
  cbn [fst snd snapshotHistoryCache groupOrderCache].
  set (key := groupKeyOf parts).
  set (hm := default ∅ (snapshotHistoryCache c !! subChatId)).
  set (order := default [] (groupOrderCache c !! subChatId)).
  rewrite !lookup_insert_eq. cbn [default from_option]. unfold id.
  rewrite previousSnapshotOf_stable.
  destruct (findIndex (fun g => JsString.eqb g key) order) as [i|] eqn:Hidx.
  - cbv beta iota. rewrite Hidx. by rewrite !insert_insert_eq.
  - cbv beta iota. rewrite (findIndex_snoc _ _ _ Hidx) by by apply eqb_eq.
    by rewrite !insert_insert_eq.
Qed.

Lemma cachesOk_empty : cachesOk emptyCaches.
Proof. intros sub order Horder. simpl in Horder. by rewrite lookup_empty in Horder. Qed.

Lemma buildSnapshots_ok parts subChatId c :
  cachesOk c -> cachesOk (fst (fst (buildSnapshots parts subChatId c))).
Proof.
  intros Hok. unfold buildSnapshots.
  destruct (nonEmpty subChatId); cbn [negb]; [|done].
  destruct (nonEmpty (groupKeyOf parts)) eqn:Hkey; cbn [negb]; [|done].
  cbn [fst].
  set (key := groupKeyOf parts) in *.
  set (hm := default ∅ (snapshotHistoryCache c !! subChatId)).
  set (order := default [] (groupOrderCache c !! subChatId)).
  set (current := updateTaskSnapshotFromParts parts _).
  assert (NoDup order
          /\ forall g, g ∈ order -> g <> [] /\ is_Some (hm !! g)) as [Hnd Hall].
  { unfold order, hm.
    destruct (groupOrderCache c !! subChatId) as [o|] eqn:Ho; simpl.
    - destruct (Hok _ _ Ho) as [Hnd Hall]. split; [done|].
      intros g Hg. destruct (Hall g Hg) as [Hne Hsnap]. split; [done|].
      by destruct (snapshotHistoryCache c !! subChatId).
    - split; [constructor|]. intros g Hg. by apply elem_of_nil in Hg. }
  intros sub o. cbn [groupOrderCache snapshotHistoryCache].
  destruct (decide (subChatId = sub)) as [<-|Hsub].
  - rewrite !lookup_insert_eq. intros [= <-]. cbn [mbind option_bind].
    destruct (findIndex (fun g => JsString.eqb g key) order) as [i|] eqn:Hidx.
    + split; [done|]. intros g Hg. destruct (Hall g Hg) as [Hne Hsnap].
      split; [done|]. destruct (decide (key = g)) as [<-|Hg'].
      * rewrite lookup_insert_eq. by eexists.
      * by rewrite lookup_insert_ne.
    + apply groupKey_not_found in Hidx. split.
      * apply NoDup_app. split; [done|]. split; [|apply NoDup_singleton].
        intros g Hg ->%list_elem_of_singleton. done.
      * intros g [Hg| ->%list_elem_of_singleton]%elem_of_app.
        -- destruct (Hall g Hg) as [Hne Hsnap]. split; [done|].
           rewrite lookup_insert_ne; [done|]. by intros <-.
        -- split; [|rewrite lookup_insert_eq; by eexists].
           intros He. by rewrite He in Hkey.
  - rewrite !lookup_insert_ne by done. apply Hok.
Qed.

Lemma clearTaskSnapshotCache_ok subChatId c :
  cachesOk c -> cachesOk (clearTaskSnapshotCache subChatId c).
Proof.
  intros Hok sub o. cbn [clearTaskSnapshotCache groupOrderCache snapshotHistoryCache].
  intros [Hsub Ho]%lookup_delete_Some.
  rewrite lookup_delete_ne by done. by apply Hok.
Qed.

(** X26: the caches keep, for every sub-chat, an order of groups without
    repetition, made of non-empty keys that all have a snapshot: building
    the snapshots of a group and clearing a sub-chat both preserve this,
    and clearing a sub-chat forgets its order and its history and nothing
    of another sub-chat. *)
Theorem cachesOk_preserved
    (parts : list ToolPart) (subChatId : JsString.t) (c : TaskCaches)
    (Hok : cachesOk c) :
  cachesOk (fst (fst (buildSnapshots parts subChatId c)))
  /\ cachesOk (clearTaskSnapshotCache subChatId c)
  /\ groupOrderCache (clearTaskSnapshotCache subChatId c) !! subChatId = None
  /\ snapshotHistoryCache (clearTaskSnapshotCache subChatId c) !! subChatId = None
  /\ (forall other, other <> subChatId ->
        groupOrderCache (clearTaskSnapshotCache subChatId c) !! other
          = groupOrderCache c !! other
        /\ snapshotHistoryCache (clearTaskSnapshotCache subChatId c) !! other
          = snapshotHistoryCache c !! other).
Proof.
  split; [by apply buildSnapshots_ok|]. split; [by apply clearTaskSnapshotCache_ok|].
  cbn [clearTaskSnapshotCache groupOrderCache snapshotHistoryCache].
  rewrite !lookup_delete_eq. split; [done|]. split; [done|].
  intros other Hother. by rewrite !lookup_delete_ne.
Qed.

Lemma cachesOk_preserved_witness :
  let parts := [createPart (js "1") (js "Write tests")] in
  cachesOk (fst (fst (buildSnapshots parts (js "sub") emptyCaches)))
  /\ cachesOk (clearTaskSnapshotCache (js "sub") emptyCaches)
  /\ groupOrderCache (clearTaskSnapshotCache (js "sub") emptyCaches) !! js "sub" = None
  /\ snapshotHistoryCache (clearTaskSnapshotCache (js "sub") emptyCaches) !! js "sub"
     = None
  /\ (forall other, other <> js "sub" ->
        groupOrderCache (clearTaskSnapshotCache (js "sub") emptyCaches) !! other
          = groupOrderCache emptyCaches !! other
        /\ snapshotHistoryCache (clearTaskSnapshotCache (js "sub") emptyCaches) !! other
          = snapshotHistoryCache emptyCaches !! other).
Proof.
  apply (cachesOk_preserved [createPart (js "1") (js "Write tests")] (js "sub")
           emptyCaches).
  apply cachesOk_empty.
Defined.

Lemma buildAll_snoc subChatId groups parts c :
  buildAll subChatId (groups ++ [parts]) c
  = fst (fst (buildSnapshots parts subChatId (buildAll subChatId groups c))).
Proof. unfold buildAll. by rewrite fold_left_app. Qed.

Lemma buildSnapshots_new_group parts subChatId c :
  nonEmpty subChatId = true ->
  nonEmpty (groupKeyOf parts) = true ->
  groupKeyOf parts ∉ default [] (groupOrderCache c !! subChatId) ->
  let order := default [] (groupOrderCache c !! subChatId) in
  let hm := default ∅ (snapshotHistoryCache c !! subChatId) in
  let previous :=
    match List.last (List.map Some order) None with
    | Some lastGroupKey => default ∅ (hm !! lastGroupKey)
    | None => ∅
    end in
  buildSnapshots parts subChatId c
  = (mkTaskCaches
       (<[subChatId := <[groupKeyOf parts :=
            updateTaskSnapshotFromParts parts previous]> hm]>
          (snapshotHistoryCache c))
       (<[subChatId := order ++ [groupKeyOf parts]]> (groupOrderCache c)),
     previous, updateTaskSnapshotFromParts parts previous).
Proof.
  intros Hsub Hkey Hnew order hm previous. unfold buildSnapshots.
  rewrite Hsub, Hkey. cbn [negb]. fold order hm.
  apply groupKey_not_found in Hnew. fold order in Hnew.
  unfold previousSnapshotOf. by rewrite Hnew.
Qed.

(** X27: the history of a sub-chat is linear.  Starting from a sub-chat
    with no recorded group, after the groups have been built one after the
    other (each under its own, non-empty key) the recorded order is the
    order of the groups, and the snapshot stored for a group is the
    update, from the empty snapshot, by all the parts of the groups up to
    and including it. *)
Theorem buildAll_linear_history
    (subChatId : JsString.t) (groups : list (list ToolPart)) (c : TaskCaches)
    (Hsub : nonEmpty subChatId = true)
    (Hfresh : groupOrderCache c !! subChatId = None)
    (Hkeys : NoDup (List.map groupKeyOf groups))
    (Hne : Forall (fun parts => nonEmpty (groupKeyOf parts) = true) groups) :
  default [] (groupOrderCache (buildAll subChatId groups c) !! subChatId)
    = List.map groupKeyOf groups
  /\ forall before parts after,
       groups = before ++ parts :: after ->
       snapshotHistoryCache (buildAll subChatId groups c) !! subChatId
         ≫= (.!! groupKeyOf parts)
       = Some (updateTaskSnapshotFromParts (concat (before ++ [parts])) ∅).
Proof.
  induction groups as [|g groups IH] using rev_ind.
  - split; [by cbn; rewrite Hfresh|]. intros before parts after Heq.
    by destruct before.
  - rewrite List.map_app in Hkeys. apply NoDup_app in Hkeys as (Hnd & Hnot & _).
    apply Forall_app in Hne as [Hne Hg]. rewrite Forall_singleton in Hg.
    destruct (IH Hnd Hne) as [Horder Hhist]. clear IH.
    assert (groupKeyOf g ∉ List.map groupKeyOf groups) as Hnew.
    { intros Hin. apply (Hnot _ Hin). simpl. by left. }
    rewrite buildAll_snoc.
    rewrite buildSnapshots_new_group by (try done; by rewrite Horder).
    rewrite Horder.
    set (c1 := buildAll subChatId groups c) in *.
    set (hm := default ∅ (snapshotHistoryCache c1 !! subChatId)).
    assert (forall before parts after,
              groups = before ++ parts :: after ->
              hm !! groupKeyOf parts
              = Some (updateTaskSnapshotFromParts (concat (before ++ [parts])) ∅))
      as Hhm.
    { intros before parts after Heq. specialize (Hhist before parts after Heq).
      unfold hm. by destruct (snapshotHistoryCache c1 !! subChatId). }
    assert (match List.last (List.map Some (List.map groupKeyOf groups)) None with
            | Some lastGroupKey => default ∅ (hm !! lastGroupKey)
            | None => ∅
            end = updateTaskSnapshotFromParts (concat groups) ∅) as ->.
    { destruct groups as [|l groups' _] using rev_ind; [done|].
      rewrite List.map_app. cbn [List.map]. rewrite last_map_Some.
      by rewrite (Hhm groups' l [] eq_refl). }
    cbn [fst snapshotHistoryCache groupOrderCache].
    rewrite !lookup_insert_eq. cbn [default from_option mbind option_bind]. unfold id.
    split; [by rewrite List.map_app|].
    intros before parts after Heq.
    destruct after as [|a after _] using rev_ind.
    + apply app_inj_tail in Heq as [<- <-].
      rewrite lookup_insert_eq. f_equal.
      by rewrite concat_app, updateTaskSnapshotFromParts_app; cbn; rewrite app_nil_r.
    + rewrite app_comm_cons, app_assoc in Heq.
      apply app_inj_tail in Heq as [-> <-].
      rewrite lookup_insert_ne.
      * by apply (Hhm before parts after).
      * intros Heq. apply Hnew. rewrite Heq, List.map_app. cbn [List.map].
        apply elem_of_app. right. by left.
Qed.

Lemma buildAll_linear_history_witness :
  let groups := [[createPart (js "1") (js "Write tests")]] in
  default [] (groupOrderCache (buildAll (js "sub") groups emptyCaches) !! js "sub")
    = List.map groupKeyOf groups
  /\ forall before parts after,
       groups = before ++ parts :: after ->
       snapshotHistoryCache (buildAll (js "sub") groups emptyCaches) !! js "sub"
         ≫= (.!! groupKeyOf parts)
       = Some (updateTaskSnapshotFromParts (concat (before ++ [parts])) ∅).
Proof.
  apply (buildAll_linear_history (js "sub")
           [[createPart (js "1") (js "Write tests")]] emptyCaches).
  - reflexivity.
  - reflexivity.
  - apply (bool_decide_unpack _). vm_compute. exact I.
  - apply Forall_singleton. reflexivity.
Defined.

(** * The validity boundary *)

Lemma trimStart_keeps (s : JsString.t) (c : N) :
  c ∈ s -> isWhiteSpace c = false -> headNonBlank (trimStart s) = true.
Proof.
  intros Hin Hc. induction s as [|x s IH]; [by apply elem_of_nil in Hin|].
  cbn [trimStart]. destruct (isWhiteSpace x) eqn:Hx.
  - apply IH. apply elem_of_cons in Hin as [->|Hin]; [congruence|done].
  - cbn [headNonBlank]. by rewrite Hx.
Qed.

Lemma trim_keeps (s : JsString.t) (c : N) :
  c ∈ s -> isWhiteSpace c = false -> trim s <> [].
Proof.
  intros Hin Hc Hnil. pose proof (trimStart_keeps s c Hin Hc) as Hhead.
  apply trimEnd_head in Hhead. fold (trim s) in Hhead. by rewrite Hnil in Hhead.
Qed.

Lemma joinLines_elem (ls : list JsString.t) (l : JsString.t) (c : N) :
  l ∈ ls -> c ∈ l -> c ∈ joinLines ls.
Proof.
  intros Hl Hc. apply list_elem_of_split in Hl as (g1 & g2 & ->).
  rewrite joinLines_app_cons. apply elem_of_app. right.
  apply elem_of_app. by left.
Qed.

(** A text with a marker line is not blank. *)
Lemma marker_line_not_blank (t : JsString.t) (m : nat) :
  findIndex isOldMarker (splitLines t) = Some m ->
  (length t =? 0)%nat || (length (trim t) =? 0)%nat = false.
Proof.
  intros (lo & Hlo & Hold & _)%findIndex_Some.
  apply startsWith_prefix in Hold as [r ->].
  assert (45 ∈ t) as Hin.
  { rewrite <- (joinLines_splitLines t).
    apply (joinLines_elem _ (js "--- " ++ r)).
    - apply list_elem_of_lookup. by exists m.
    - by left. }
  pose proof (trim_keeps t 45 Hin eq_refl) as Htrim.
  destruct t as [|c t]; [by apply elem_of_nil in Hin|].
  destruct (trim (c :: t)); done.
Qed.

(** The verdict, read off the positions of the first marker lines. *)
Lemma validateDiffHunk_ordered (t : JsString.t) (m p : nat) :
  findIndex isOldMarker (splitLines t) = Some m ->
  findIndex isNewMarker (splitLines t) = Some p ->
  (m < p)%nat ->
  validateDiffHunk t
  = if hasSpecialCase t
       || existsb hunkHeaderRegex_test (drop (S p) (splitLines t))
    then mkValidation true None
    else mkValidation false (Some (js "no hunk headers found")).
Proof.
  intros Hm Hp Hlt. unfold validateDiffHunk.
  rewrite (marker_line_not_blank t m Hm), Hm, Hp.
  destruct (Nat.leb_spec p m); [lia|].
  destruct (hasSpecialCase t); [done|]. cbn [orb].
  by destruct (existsb _ _).
Qed.

Lemma validateDiffHunk_needs_hunk (t : JsString.t) :
  hasSpecialCase t = false ->
  (forall l, l ∈ splitLines t -> hunkHeaderRegex_test l = false) ->
  valid (validateDiffHunk t) = false.
Proof.
  intros Hspecial Hnone. unfold validateDiffHunk.
  destruct (_ || _); [done|].
  destruct (findIndex isOldMarker (splitLines t)); [|done].
  destruct (findIndex isNewMarker (splitLines t)) as [p|]; [|done].
  destruct (_ <=? _)%nat; [done|]. rewrite Hspecial.
  assert (existsb hunkHeaderRegex_test (drop (S p) (splitLines t)) = false) as ->;
    [|done].
  destruct (existsb _ _) eqn:Hex; [|done].
  apply existsb_exists in Hex as (l & Hl & Htest).
  rewrite (Hnone l) in Htest; [done|].
  apply list_elem_of_In in Hl. apply list_elem_of_lookup in Hl as [j Hj].
  rewrite lookup_drop in Hj. apply list_elem_of_lookup. by eexists.
Qed.

Lemma validateDiffHunk_appended (t more : JsString.t) (m p : nat) :
  findIndex isOldMarker (splitLines t) = Some m ->
  findIndex isNewMarker (splitLines t) = Some p ->
  (m < p)%nat ->
  (exists l, l ∈ splitLines more /\ hunkHeaderRegex_test l = true) ->
  validateDiffHunk (t ++ LF :: more) = mkValidation true None.
Proof.
  intros Hm Hp Hlt (l & Hl & Htest).
  rewrite (validateDiffHunk_ordered _ m p);
    rewrite ?splitLines_app_LF; try by (apply findIndex_app_Some || done).
  assert (existsb hunkHeaderRegex_test
            (drop (S p) (splitLines t ++ splitLines more)) = true) as ->;
    [|by rewrite orb_true_r].
  apply existsb_exists. exists l. split; [|done].
  apply list_elem_of_In.
  destruct (findIndex_Some _ _ _ Hp) as (ln & Hln & _).
  apply lookup_lt_Some in Hln.
  rewrite drop_app_le by lia. apply elem_of_app. by right.
Qed.

(** C4, as the code has it: a block with none of the special-case phrases
    and no well-formed hunk-header line is rejected by the validator; when
    its first [--- ] line comes before its first [+++ ] line and no hunk
    header follows that [+++ ] line, the reason is the missing hunk
    header; and a block whose first [--- ] line comes before its first
    [+++ ] line is accepted once lines that hold a well-formed hunk header
    are appended to it.  So it is for the block made of [--- a/x] and
    [+++ b/x], with and without the header [@@ -1,1 +1,1 @@], and for the
    splitter's records of the two blocks, which are not binary. *)
Theorem validateDiffHunk_boundary :
  (forall blockText,
      hasSpecialCase blockText = false ->
      (forall l, l ∈ splitLines blockText -> hunkHeaderRegex_test l = false) ->
      valid (validateDiffHunk blockText) = false)
  /\ (forall blockText m p,
        findIndex isOldMarker (splitLines blockText) = Some m ->
        findIndex isNewMarker (splitLines blockText) = Some p ->
        (m < p)%nat ->
        hasSpecialCase blockText = false ->
        (forall j l, (p < j)%nat -> splitLines blockText !! j = Some l ->
                     hunkHeaderRegex_test l = false) ->
        validateDiffHunk blockText
        = mkValidation false (Some (js "no hunk headers found")))
  /\ (forall blockText more m p,
        findIndex isOldMarker (splitLines blockText) = Some m ->
        findIndex isNewMarker (splitLines blockText) = Some p ->
        (m < p)%nat ->
        (exists l, l ∈ splitLines more /\ hunkHeaderRegex_test l = true) ->
        validateDiffHunk (blockText ++ LF :: more) = mkValidation true None)
  /\ validateDiffHunk markersOnly
     = mkValidation false (Some (js "no hunk headers found"))
  /\ markersWithHunk = joinLines [js "--- a/x"; js "+++ b/x"] ++ LF :: js "@@ -1,1 +1,1 @@"
  /\ validateDiffHunk markersWithHunk = mkValidation true None
  /\ List.map (fun r => (isBinary r, isValid r)) (splitUnifiedDiffByFile markersOnly)
     = [(false, false)]
  /\ List.map (fun r => (isBinary r, isValid r)) (splitUnifiedDiffByFile markersWithHunk)
     = [(false, true)].
Proof.
  split; [apply validateDiffHunk_needs_hunk|].
  split.
  { intros blockText m p Hm Hp Hlt Hspecial Hnone.
    rewrite (validateDiffHunk_ordered _ m p) by done. rewrite Hspecial.
    assert (existsb hunkHeaderRegex_test (drop (S p) (splitLines blockText)) = false)
      as ->; [|done].
    destruct (existsb _ _) eqn:Hex; [|done].
    apply existsb_exists in Hex as (l & Hl & Htest).
    apply list_elem_of_In, list_elem_of_lookup in Hl as [j Hj].
    rewrite lookup_drop in Hj.
    by rewrite (Hnone (S p + j)%nat l) in Htest by (lia || done). }
  split; [apply validateDiffHunk_appended|].
  repeat split; vm_compute; reflexivity.
Qed.

(** C4, as stated, fails on two blocks that hold the marker [--- a/x]
    followed by the marker [+++ b/x]: the first has no hunk header, is not
    binary, and is accepted, because an added line speaks of a rename; the
    second ends with the hunk header and is rejected, because a [+++ ]
    line comes before its first [--- ] line. *)
Lemma validateDiffHunk_boundary_counterexample :
  existsb hunkHeaderRegex_test (splitLines markersWithPhrase) = false
  /\ validateDiffHunk markersWithPhrase = mkValidation true None
  /\ List.map (fun r => (isBinary r, isValid r))
       (splitUnifiedDiffByFile markersWithPhrase)
     = [(false, true)]
  /\ validateDiffHunk misorderedWithHunk
     = mkValidation false (Some (js "header order wrong"))
  /\ List.map (fun r => (isBinary r, isValid r))
       (splitUnifiedDiffByFile misorderedWithHunk)
     = [(false, false)].
Proof. repeat split; vm_compute; reflexivity. Qed.

(** * What ranges over the displayed list, and what over the unfiltered one *)

Lemma fold_sum_shift {A : Type} (g : A -> nat) (l : list A) (a : nat) :
  fold_left (fun sum x => (sum + g x)%nat) l a
  = (a + fold_left (fun sum x => (sum + g x)%nat) l 0)%nat.
Proof.
  revert a. induction l as [|x l IH]; intros a; simpl; [lia|].
  rewrite (IH (a + g x)%nat), (IH (g x)). lia.
Qed.

(** A total over a list is the total over the records a test keeps plus
    the total over those it drops. *)
Lemma fold_sum_filter {A : Type} (g : A -> nat) (p : A -> bool) (l : list A) :
  fold_left (fun sum x => (sum + g x)%nat) l 0%nat
  = (fold_left (fun sum x => (sum + g x)%nat) (List.filter p l) 0
     + fold_left (fun sum x => (sum + g x)%nat)
         (List.filter (fun x => negb (p x)) l) 0)%nat.
Proof.
  induction l as [|x l IH]; [done|]. cbn [List.filter fold_left].
  destruct (p x); cbn [negb fold_left];
    rewrite !(fold_sum_shift g _ (0 + g x)), IH; lia.
Qed.

Lemma filter_length_split {A : Type} (p : A -> bool) (l : list A) :
  length l
  = (length (List.filter p l) + length (List.filter (fun x => negb (p x)) l))%nat.
Proof.
  induction l as [|x l IH]; [done|]. cbn [List.filter].
  destruct (p x); simpl; lia.
Qed.

(** A record left out of the display has no path to navigate to. *)
Lemma selectablePath_excluded (file : ParsedDiffFile) :
  isDisplayable file = false -> selectablePath file = None.
Proof.
  unfold isDisplayable, selectablePath.
  destruct (startsWith (js "file-") (key file)
            && negb (nonEmpty (oldPath file)) && negb (nonEmpty (newPath file)))
    eqn:Hfile.
  - intros _. apply andb_true_iff in Hfile as [[_ Ho]%andb_true_iff Hn].
    apply negb_true_iff in Ho, Hn. rewrite Hn. cbn [andb]. by rewrite Ho.
  - destruct (JsString.eqb (oldPath file) devNull && JsString.eqb (newPath file) devNull)
      eqn:Hdev; [|done].
    intros _. apply andb_true_iff in Hdev as [Ho Hn].
    rewrite Hn. cbn [negb]. rewrite andb_false_r. rewrite Ho. cbn [negb].
    by rewrite andb_false_r.
Qed.

(** C10, as the code has it.  The displayed list is a sublist of the
    unfiltered one and holds no record with a positional [file-] key and
    two empty paths, and none whose two paths are [/dev/null], though the
    splitter returns such records.  What renders and iterates the viewed
    state ranges over the displayed list: the viewed count never exceeds
    its length, mark-all-viewed stores a state exactly for the keys of its
    records, and the invalidation effect leaves every other key alone.
    The stats and the navigation range over the unfiltered list: the
    reported file count and totals are those of the displayed-or-not
    records together, and when the next unviewed record of the scan is one
    that is left out of the display, the callback is not called. *)
Theorem fileDiffs_excludes_unparsed (p : ViewProps) :
  let all := viewAllFileDiffs p in
  let shown := viewFileDiffs p in
  let leftOut := List.filter (fun f => negb (isDisplayable f)) all in
  sublist shown (List.filter isDisplayable all)
  /\ (forall f, f ∈ shown ->
        ~ (startsWith (js "file-") (key f) = true
           /\ oldPath f = [] /\ newPath f = [])
        /\ ~ (oldPath f = devNull /\ newPath f = devNull))
  /\ (forall st, viewGetViewedCount p st <= length shown)%nat
  /\ (forall st k,
        is_Some (viewedFiles (viewMarkAllViewed p st) !! k)
        <-> exists f, f ∈ shown /\ key f = k)
  /\ (forall st k,
        (forall f, f ∈ shown -> key f <> k) ->
        viewedFiles (viewInvalidateStale p st) !! k = viewedFiles st !! k)
  /\ (forall prevStats stats,
        viewStatsEffect p prevStats = Some stats ->
        fileCount stats
        = (length (List.filter isDisplayable all) + length leftOut)%nat
        /\ statAdditions stats
           = (totalAdditions (List.filter isDisplayable all) + totalAdditions leftOut)%nat
        /\ statDeletions stats
           = (totalDeletions (List.filter isDisplayable all) + totalDeletions leftOut)%nat)
  /\ (filteredDiffFiles p = None -> all <> [] ->
      is_Some (viewStatsEffect p None))
  /\ (forall st fKey dText i f,
        isFileViewed (viewedFiles st) fKey dText = false ->
        findIndex (fun g => JsString.eqb (key g) fKey) all = Some i ->
        List.find
          (fun g => negb (isFileViewed
                            (viewedFiles (fst (viewHandleToggleViewed
                                                 p st fKey dText)))
                            (key g) (diffText g)))
          (drop (S i) all ++ take i all) = Some f ->
        isDisplayable f = false ->
        snd (viewHandleToggleViewed p st fKey dText) = None)
  /\ allFileDiffs None (Some headerOnlyDiff)
     = [mkParsedDiffFile (js "file-0") [] [] headerOnlyDiff false 0 0 false]
  /\ List.filter isDisplayable (allFileDiffs None (Some headerOnlyDiff)) = []
  /\ allFileDiffs None (Some devNullDiff)
     = [mkParsedDiffFile (js "/dev/null->/dev/null") devNull devNull
          devNullDiff false 0 0 false]
  /\ List.filter isDisplayable (allFileDiffs None (Some devNullDiff)) = [].
Proof.
  intros all shown leftOut.
  split.
  { unfold shown, viewFileDiffs, fileDiffs. fold all.
    destruct (length _ =? 0)%nat; [done|]. apply filter_sublist. }
  split.
  { intros f Hf. apply fileDiffs_displayable in Hf.
    unfold isDisplayable in Hf. split.
    - intros (Hk & Ho & Hn). by rewrite Hk, Ho, Hn in Hf.
    - intros [Ho Hn]. rewrite Ho, Hn in Hf.
      destruct (_ && _ && _); [done|].
      by rewrite (proj2 (eqb_eq devNull devNull) eq_refl) in Hf. }
  split.
  { intros st. unfold viewGetViewedCount, getViewedCount.
    apply sublist_length, filter_sublist. }
  split.
  { intros st k. unfold viewMarkAllViewed. fold shown. simpl.
    rewrite fold_insert_lookup, lookup_empty.
    rewrite <- find_key_is_Some.
    destruct (List.find _ _); split; intros [? ?]; by eauto. }
  split.
  { intros st k Hk. unfold viewInvalidateStale. fold shown.
    rewrite invalidateStale_viewedFiles.
    case_decide as Hin; [|done]. exfalso.
    apply list_elem_of_In, in_map_iff in Hin as (g & Hkg & Hg).
    apply filter_In in Hg as [Hg _]. apply list_elem_of_In in Hg.
    by apply (Hk g). }
  split.
  { intros prevStats stats Hcall.
    assert (stats = mkDiffStats (length all) (totalAdditions all)
                      (totalDeletions all) (isLoadingDiff p)
                      (0 <? length all)%nat) as ->.
    { unfold viewStatsEffect in Hcall. fold all in Hcall.
      destruct (match filteredDiffFiles p with
                | Some (_ :: _) => true
                | _ => false
                end); [done|].
      destruct (_ && negb _); [done|].
      destruct prevStats as [prev|]; [|by injection Hcall as <-].
      destruct (_ && _ && _ && _); [done|]. by injection Hcall as <-. }
    cbn [fileCount statAdditions statDeletions].
    unfold leftOut, totalAdditions, totalDeletions.
    by rewrite <- !fold_sum_filter, <- filter_length_split. }
  split.
  { intros Hfilter Hall. unfold viewStatsEffect. fold all.
    rewrite Hfilter. destruct all; [done|]. by eexists. }
  split.
  { intros st fKey dText i f Hunviewed Hindex Hfind Hout.
    unfold viewHandleToggleViewed in *. fold all in Hfind |- *.
    rewrite <- nextUnviewedFile_rotation in Hfind.
    unfold handleToggleViewed in *. cbn [fst snd viewedFiles] in *.
    rewrite Hunviewed in *. cbn [negb andb] in *.
    destruct (hasOnSelectNextFile p); [|done].
    rewrite Hindex, Hfind. by apply selectablePath_excluded. }
  repeat split; vm_compute; reflexivity.
Qed.

(** C10, as stated, fails on [modeChangeDiff], whose second file only
    changes its mode: its record has the key [file-1] and no path and is
    not displayed, but the file count handed to [onStatsChange] is three
    where two files are displayed, and when the first file is marked
    viewed the scan stops at the record that is not displayed, so that the
    callback is not called, though the third file is displayed and
    unviewed. *)
Lemma fileDiffs_excludes_unparsed_counterexample :
  List.map key (viewAllFileDiffs modeChangeView)
    = [js "a->a"; js "file-1"; js "c->c"]
  /\ List.map key (viewFileDiffs modeChangeView) = [js "a->a"; js "c->c"]
  /\ viewStatsEffect modeChangeView None
     = Some (mkDiffStats 3 2 2 false true)
  /\ snd (viewHandleToggleViewed modeChangeView initialViewState
            (js "a->a") blockOfA) = None
  /\ viewGetViewedCount modeChangeView
       (fst (viewHandleToggleViewed modeChangeView initialViewState
               (js "a->a") blockOfA)) = 1%nat.
Proof. repeat split; vm_compute; reflexivity. Qed.
